(** * Trapper for Photoshop: the colour-separation and trapping core

    A shallow embedding of the algorithmic core of the plugin
    ([src/utils/TrapSizeParser.js], [src/core/TrappingEngine.js] and the
    pixel-level parts of [src/core/TrapperController.js]) together with
    the properties its specification states about it.

    Conventions of the embedding.
    - A JavaScript number is an IEEE-754 binary64 value: [JS.number] is
      [spec_float] at precision 53 and maximal exponent 1024, and the
      arithmetic operators are the correctly rounded operations of
      [SpecFloat].  Numbers that the code only uses as counters, indices
      and array lengths are kept as [Z].
    - A [Uint8ClampedArray] is a [list byte]; reading outside the array
      gives [None] (JavaScript's [undefined]) and writing outside the
      array does nothing, as for typed arrays.
    - A string is a [string] whose characters are the code units 0..255.
    - [throw new Error(...)] is the [Err] constructor of [result].
    - A dilation or erosion radius is the integer that [Math.round]
      produced for it, as a [Z].
    - The calls to the host application (creating layers, writing
      pixels) are not part of the model: a function returns the raster
      that the code hands to the host. *)

From Stdlib Require Import ZArith NArith List Bool String Ascii Lia.
From Stdlib Require Import Strings.Byte.
From Stdlib Require Import Floats.SpecFloat.
From stdpp Require Import base list.

Local Open Scope Z_scope.

(** ** JavaScript values and built-ins used by the plugin *)

Module JS.

(** *** Numbers *)

Definition prec : Z := 53.
Definition emax : Z := 1024.

Definition number : Type := spec_float.

Definition NaN : number := S754_nan.
Definition pos_zero : number := S754_zero false.

Definition fadd : number -> number -> number := SFadd prec emax.
Definition fsub : number -> number -> number := SFsub prec emax.
Definition fmul : number -> number -> number := SFmul prec emax.
Definition fdiv : number -> number -> number := SFdiv prec emax.

(** The number denoted by an integer (exact below 2^53). *)
Definition of_Z (z : Z) : number := binary_normalize prec emax z 0 false.

(** The number nearest to [m * 10^e] (ties to even), with sign [s]:
    the value of a decimal literal. *)
Definition of_decimal (s : bool) (m : N) (e : Z) : number :=
  match m with
  | N0 => S754_zero s
  | Npos p =>
      match e with
      | Zneg k =>
          let '(q, e', l) :=
            SFdiv_core_binary prec emax (Zpos p) 0 (Zpos (10 ^ k)) 0 in
          binary_round_aux prec emax s q e' l
      | Z0 => binary_round prec emax s p 0
      | Zpos k => binary_round prec emax s (p * 10 ^ k) 0
      end
  end.

Definition isNaN (x : number) : bool :=
  match x with S754_nan => true | _ => false end.

(** [x < y], [x <= y], [x > y], [x >= y], [x === y] on numbers. *)
Definition lt (x y : number) : bool := SFltb x y.
Definition le (x y : number) : bool := SFleb x y.
Definition gt (x y : number) : bool := SFltb y x.
Definition ge (x y : number) : bool := SFleb y x.
Definition strict_eq (x y : number) : bool := SFeqb x y.

(** [Math.round]: the integer nearest to [x], ties towards +infinity;
    the sign of a zero result is the sign of [x]. *)
Definition Math_round (x : number) : number :=
  match x with
  | S754_finite s m e =>
      match e with
      | Zneg k =>
          let v := if s then Zneg m else Zpos m in
          let r := (2 * v + 2 ^ Zpos k) / 2 ^ (Zpos k + 1) in
          binary_normalize prec emax r 0 s
      | _ => x
      end
  | _ => x
  end.

(** [Math.max] of two numbers. *)
Definition Math_max (x y : number) : number :=
  match SFcompare x y with
  | None => NaN
  | Some Lt => y
  | Some Gt => x
  | Some Eq =>
      match x with S754_zero true => y | _ => x end
  end.

(** An integer-valued number as an integer; [None] for a number that
    is not finite or not an integer. *)
Definition to_Z (x : number) : option Z :=
  match x with
  | S754_zero _ => Some 0
  | S754_finite s m e =>
      match e with
      | Zneg k =>
          if (Zpos m mod 2 ^ Zpos k =? 0)
          then Some ((if s then -1 else 1) * (Zpos m / 2 ^ Zpos k))
          else None
      | _ => Some ((if s then Zneg m else Zpos m) * 2 ^ e)
      end
  | _ => None
  end.

(** *** Strings *)

Definition code (c : ascii) : N := N_of_ascii c.

(** White space and line terminators among the code units 0..255. *)
Definition is_white_space (c : ascii) : bool :=
  let n := code c in
  ((9 <=? n) && (n <=? 13) || (n =? 32) || (n =? 160))%N.

Fixpoint trimStart (s : string) : string :=
  match s with
  | String c r => if is_white_space c then trimStart r else s
  | EmptyString => EmptyString
  end.

Fixpoint rev_string (acc s : string) : string :=
  match s with
  | String c r => rev_string (String c acc) r
  | EmptyString => acc
  end.

Definition trimEnd (s : string) : string :=
  rev_string EmptyString (trimStart (rev_string EmptyString s)).

Definition trim (s : string) : string := trimStart (trimEnd s).

Definition lower_char (c : ascii) : ascii :=
  let n := code c in
  if ((65 <=? n) && (n <=? 90)
      || (192 <=? n) && (n <=? 222) && negb (n =? 215))%N
  then ascii_of_N (n + 32) else c.

Fixpoint toLowerCase (s : string) : string :=
  match s with
  | String c r => String (lower_char c) (toLowerCase r)
  | EmptyString => EmptyString
  end.

Definition startsWith (s p : string) : bool := String.prefix p s.

Definition endsWith (s p : string) : bool :=
  String.prefix (rev_string EmptyString p) (rev_string EmptyString s).

(** [s.includes(c)] for a one-character search string. *)
Fixpoint includes_char (s : string) (c : ascii) : bool :=
  match s with
  | String d r => Ascii.eqb d c || includes_char r c
  | EmptyString => false
  end.

(** [s.split(c)] for a one-character separator. *)
Fixpoint split_char (c : ascii) (s : string) : list string :=
  match s with
  | EmptyString => [EmptyString]
  | String d r =>
      if Ascii.eqb d c then EmptyString :: split_char c r
      else match split_char c r with
           | p :: ps => String d p :: ps
           | [] => [String d EmptyString]
           end
  end.

(** [s.substring(0, n)]: a negative [n] counts as 0. *)
Definition substring0 (n : Z) (s : string) : string :=
  String.substring 0 (Z.to_nat n) s.

Definition str_length (s : string) : Z := Z.of_nat (String.length s).

(** *** parseFloat *)

Definition is_digit (c : ascii) : bool :=
  ((48 <=? code c) && (code c <=? 57))%N.

Definition digit_value (c : ascii) : N := (code c - 48)%N.

(** The longest prefix of decimal digits, and the rest. *)
Fixpoint take_digits (s : string) : list ascii * string :=
  match s with
  | String c r =>
      if is_digit c
      then let '(ds, rest) := take_digits r in (c :: ds, rest)
      else ([], s)
  | EmptyString => ([], EmptyString)
  end.

Definition digits_to_N (ds : list ascii) : N :=
  fold_left (fun acc c => (acc * 10 + digit_value c)%N) ds 0%N.

(** An exponent part [e|E (+|-)? digits]: its value and the rest, or
    [None] when the text does not start with a complete one. *)
Definition scan_exponent (s : string) : option (Z * string) :=
  match s with
  | String c r =>
      if Ascii.eqb c "e" || Ascii.eqb c "E" then
        let '(neg, r1) :=
          match r with
          | String "-" r' => (true, r')
          | String "+" r' => (false, r')
          | _ => (false, r)
          end in
        match take_digits r1 with
        | ([], _) => None
        | (ds, rest) =>
            let v := Z.of_N (digits_to_N ds) in
            Some (if neg then - v else v, rest)
        end
      else None
  | EmptyString => None
  end.

(** The longest prefix of [s] that is a [StrDecimalLiteral], as a
    number, and the text that follows it. *)
Definition scan_decimal (s : string) : option (number * string) :=
  let '(neg, s1) :=
    match s with
    | String "-" r => (true, r)
    | String "+" r => (false, r)
    | _ => (false, s)
    end in
  if String.prefix "Infinity" s1
  then Some (S754_infinity neg, String.substring 8 (String.length s1 - 8) s1)
  else
    let '(ip, s2) := take_digits s1 in
    let '(fp, s3) :=
      match s2 with
      | String "." r => take_digits r
      | _ => ([], s2)
      end in
    match ip, fp with
    | [], [] => None
    | _, _ =>
        let '(ex, rest) :=
          match scan_exponent s3 with
          | Some (v, r) => (v, r)
          | None => (0, s3)
          end in
        Some (of_decimal neg (digits_to_N (ip ++ fp))
                (ex - Z.of_nat (List.length fp)), rest)
    end.

Definition parseFloat (s : string) : number :=
  match scan_decimal (trimStart s) with
  | Some (v, _) => v
  | None => NaN
  end.

(** *** Typed arrays *)

Abbreviation Uint8ClampedArray := (list byte).

(** [new Uint8ClampedArray(n)]: [n] zero bytes (the lengths that occur
    are not negative). *)
Definition new_array (n : Z) : Uint8ClampedArray :=
  replicate (Z.to_nat n) x00.

(** [a[i]]; [None] is [undefined]. *)
Definition get (a : Uint8ClampedArray) (i : Z) : option byte :=
  if i <? 0 then None else a !! Z.to_nat i.

(** [a[i] = v]: out of range it does nothing; [undefined] is stored
    as 0. *)
Definition set (a : Uint8ClampedArray) (i : Z) (v : option byte)
  : Uint8ClampedArray :=
  if i <? 0 then a else <[Z.to_nat i := default x00 v]> a.

(** [v > 0] and [v === 0] for an array element. *)
Definition gt0 (v : option byte) : bool :=
  match v with Some b => negb (Byte.eqb b x00) | None => false end.

Definition is0 (v : option byte) : bool :=
  match v with Some b => Byte.eqb b x00 | None => false end.

(** [v === c] for an array element [v] and a byte [c]. *)
Definition same (v : option byte) (c : byte) : bool :=
  match v with Some b => Byte.eqb b c | None => false end.

(** [for (let i = 0; i < n; i++) body]. *)
Definition for_loop {S : Type} (n : Z) (body : Z -> S -> S) (s : S) : S :=
  foldl (fun acc i => body i acc) s (seqZ 0 n).

End JS.

(** ** Errors *)

(** One constructor per [throw new Error(...)] of the modelled code. *)
Inductive error : Type :=
  | EmptySpecification      (* 'Invalid trap size specification: empty or not a string' *)
  | InvalidPointFormat      (* 'Invalid point format: ...' *)
  | PointsNegative          (* 'Points must be non-negative: ...' *)
  | InvalidFractionParts    (* 'Invalid fraction format: ... Use format like 1/32' *)
  | InvalidFractionNumbers  (* 'Invalid fraction format: ... Use numbers like 1/32' *)
  | DivisionByZeroInFraction (* 'Division by zero in fraction: ...' *)
  | InvalidDecimalFormat    (* 'Invalid decimal format: ...' *)
  | TrapSizesNegative       (* 'Trap sizes must be non-negative' *)
  | MinimumAboveMaximum     (* 'Minimum trap size must be less than or equal to maximum trap size' *)
  | ExceedsMaximumColors    (* 'Document has ... distinct colors ..., exceeds maximum of 10' *)
  | NoSignificantColorsFound. (* 'No significant colors found in document' *)

(** The error kinds of the specification. *)
Inductive error_kind : Type :=
  | InvalidFormat | DivisionByZero | NegativeValue | RangeOrder
  | TooManyColors | NoSignificantColors.

Definition kind_of (e : error) : error_kind :=
  match e with
  | EmptySpecification | InvalidPointFormat | InvalidFractionParts
  | InvalidFractionNumbers | InvalidDecimalFormat => InvalidFormat
  | DivisionByZeroInFraction => DivisionByZero
  | PointsNegative | TrapSizesNegative => NegativeValue
  | MinimumAboveMaximum => RangeOrder
  | ExceedsMaximumColors => TooManyColors
  | NoSignificantColorsFound => NoSignificantColors
  end.

Inductive result (A : Type) : Type :=
  | Ok (a : A)
  | Err (e : error).

Arguments Ok {A} a.
Arguments Err {A} e.

Definition fails {A : Type} (r : result A) : Prop :=
  exists e, r = Err e.

(** ** src/utils/TrapSizeParser.js *)

Module TrapSizeParser.
Import JS.

Definition parsePoints (spec : string) : result number :=
  let pointStr := trim (substring0 (str_length spec - 2) spec) in
  let points := parseFloat pointStr in
  if isNaN points then Err InvalidPointFormat
  else if lt points pos_zero then Err PointsNegative
  else Ok (fdiv points (of_Z 72)).

Definition parseFraction (spec : string) : result number :=
  match split_char "/" spec with
  | [p0; p1] =>
      let numerator := parseFloat (trim p0) in
      let denominator := parseFloat (trim p1) in
      if isNaN numerator || isNaN denominator then Err InvalidFractionNumbers
      else if strict_eq denominator pos_zero then Err DivisionByZeroInFraction
      else Ok (fdiv numerator denominator)
  | _ => Err InvalidFractionParts
  end.

Definition parseDecimal (spec : string) : result number :=
  let value := parseFloat spec in
  if isNaN value then Err InvalidDecimalFormat
  else Ok value.

(** The three notations, in the order in which [parse] tries them. *)
Inductive notation : Type := Points | Fraction | Decimal.

Definition notation_of (spec : string) : notation :=
  if endsWith (toLowerCase spec) "pt" then Points
  else if includes_char spec "/" then Fraction
  else Decimal.

Definition parse (spec : string) : result number :=
  match spec with
  | EmptyString => Err EmptySpecification
  | _ =>
      let spec := trim spec in
      match notation_of spec with
      | Points => parsePoints spec
      | Fraction => parseFraction spec
      | Decimal => parseDecimal spec
      end
  end.

Definition inchesToPixels (inches dpi : number) : number :=
  Math_round (fmul inches dpi).

Record range : Type := { min : number; max : number }.

(** The second component tells whether the 'unusually large' warning
    was written to the console. *)
Definition validateRange (minSpec maxSpec : string) : result (range * bool) :=
  match parse minSpec with
  | Err e => Err e
  | Ok min =>
      match parse maxSpec with
      | Err e => Err e
      | Ok max =>
          if lt min pos_zero || lt max pos_zero then Err TrapSizesNegative
          else if gt min max then Err MinimumAboveMaximum
          else Ok ({| min := min; max := max |},
                   gt max (of_decimal false 25 (-2)))
      end
  end.

Definition calculateLayerTrap (layerIndex totalLayers minTrap maxTrap : number)
  : number :=
  if strict_eq totalLayers (of_Z 1) then minTrap
  else
    let t := fdiv layerIndex (fsub totalLayers (of_Z 1)) in
    fsub maxTrap (fmul t (fsub maxTrap minTrap)).

End TrapSizeParser.

(** ** src/core/TrappingEngine.js *)

Module TrappingEngine.
Import JS.

Record ImageData : Type :=
  { width : Z; height : Z; data : Uint8ClampedArray }.

Definition createImageData (width height : Z)
  (data : option Uint8ClampedArray) : ImageData :=
  {| width := width; height := height;
     data := default (new_array (width * height * 4)) data |}.

(** Index of the first channel of pixel (x, y). *)
Definition pixel_index (width x y : Z) : Z := (y * width + x) * 4.

Record ColorEntry : Type :=
  { r : byte; g : byte; b : byte; count : Z; lightness : number }.

Definition byte_number (v : byte) : number := of_Z (Z.of_N (Byte.to_N v)).

Definition calculateLightness (r g b : byte) : number :=
  fadd (fadd (fmul (of_decimal false 299 (-3)) (byte_number r))
             (fmul (of_decimal false 587 (-3)) (byte_number g)))
       (fmul (of_decimal false 114 (-3)) (byte_number b)).

(** The [Map] of [analyzeColors]: keys in insertion order.  The key
    [`${r},${g},${b}`] is kept as the triple it prints. *)
Definition color_key : Type := (byte * byte * byte)%type.

Definition key_eqb (k1 k2 : color_key) : bool :=
  let '(r1, g1, b1) := k1 in
  let '(r2, g2, b2) := k2 in
  Byte.eqb r1 r2 && Byte.eqb g1 g2 && Byte.eqb b1 b2.

Definition color_map : Type := list (color_key * ColorEntry).

Fixpoint map_has (m : color_map) (k : color_key) : bool :=
  match m with
  | (k', _) :: m' => key_eqb k' k || map_has m' k
  | [] => false
  end.

(** [colorMap.get(key).count++] *)
Fixpoint map_increment (m : color_map) (k : color_key) : color_map :=
  match m with
  | (k', e) :: m' =>
      if key_eqb k' k
      then (k', {| r := r e; g := g e; b := b e; count := count e + 1;
                   lightness := lightness e |}) :: m'
      else (k', e) :: map_increment m' k
  | [] => []
  end.

(** The body of the two loops of [analyzeColors] at pixel (x, y).  A
    pixel whose channels lie outside the buffer is not entered; it
    does not occur in a raster of length width * height * 4. *)
Definition analyze_pixel (img : ImageData) (y x : Z) (colorMap : color_map)
  : color_map :=
  let idx := pixel_index (width img) x y in
  match get (data img) idx, get (data img) (idx + 1),
        get (data img) (idx + 2), get (data img) (idx + 3) with
  | Some r, Some g, Some b, Some a =>
      if Byte.eqb a x00 then colorMap
      else
        let key := (r, g, b) in
        if map_has colorMap key then map_increment colorMap key
        else colorMap ++ [(key, {| r := r; g := g; b := b; count := 1;
                                   lightness := calculateLightness r g b |})]
  | _, _, _, _ => colorMap
  end.

Record ColorAnalysis : Type :=
  { colors : list ColorEntry; totalPixels : Z; uniqueColors : Z }.

Definition analyzeColors (imageData : ImageData) : ColorAnalysis :=
  let colorMap :=
    for_loop (height imageData) (fun y =>
      for_loop (width imageData) (fun x => analyze_pixel imageData y x)) [] in
  let colors := map snd colorMap in
  {| colors := colors;
     totalPixels := width imageData * height imageData;
     uniqueColors := Z.of_nat (length colors) |}.

(** [colors.sort((a, b) => b.lightness - a.lightness)]: the stable
    sort, lightest first. *)
Fixpoint sort_insert (a : ColorEntry) (l : list ColorEntry) : list ColorEntry :=
  match l with
  | [] => [a]
  | c :: l' =>
      if gt (fsub (lightness c) (lightness a)) pos_zero
      then c :: sort_insert a l'
      else a :: l
  end.

Definition sortColorsByLightness (colors : list ColorEntry) : list ColorEntry :=
  foldr sort_insert [] colors.

(** The four neighbours, in the order of the source: top, right,
    bottom, left. *)
Definition neighbors : list (Z * Z) := [(0, -1); (1, 0); (0, 1); (-1, 0)].

Definition in_bounds (width height nx ny : Z) : bool :=
  (0 <=? nx) && (nx <? width) && (0 <=? ny) && (ny <? height).

(** [mask && mask.data && mask.data[i] === 0] *)
Definition mask_forbids (mask : option ImageData) (i : Z) : bool :=
  match mask with
  | Some m => is0 (get (data m) i)
  | None => false
  end.

(** The loop over the neighbours in [applyDilationWithMask]: the first
    neighbour that is in bounds and opaque in [current] is copied to
    [next] at [idx], and the loop is left. *)
Fixpoint dilate_from_neighbors (width height : Z) (current : Uint8ClampedArray)
  (x y idx : Z) (ns : list (Z * Z)) (next : Uint8ClampedArray)
  : Uint8ClampedArray :=
  match ns with
  | [] => next
  | (dx, dy) :: ns' =>
      let nx := x + dx in
      let ny := y + dy in
      if in_bounds width height nx ny then
        let nIdx := pixel_index width nx ny in
        if gt0 (get current (nIdx + 3)) then
          let next := set next idx (get current nIdx) in
          let next := set next (idx + 1) (get current (nIdx + 1)) in
          let next := set next (idx + 2) (get current (nIdx + 2)) in
          set next (idx + 3) (get current (nIdx + 3))
        else dilate_from_neighbors width height current x y idx ns' next
      else dilate_from_neighbors width height current x y idx ns' next
  end.

Definition dilate_pixel (width height : Z) (current : Uint8ClampedArray)
  (mask : option ImageData) (y x : Z) (next : Uint8ClampedArray)
  : Uint8ClampedArray :=
  let idx := pixel_index width x y in
  if gt0 (get current (idx + 3)) then next
  else if mask_forbids mask (idx + 3) then next
  else dilate_from_neighbors width height current x y idx neighbors next.

(** [for (i = 0; i < current.data.length; i++) next.data[i] = current.data[i]] *)
Definition copy_into (current next : Uint8ClampedArray) : Uint8ClampedArray :=
  for_loop (Z.of_nat (length current)) (fun i n => set n i (get current i)) next.

(** One iteration of the outer loop of [applyDilationWithMask]. *)
Definition dilate_pass (mask : option ImageData) (current : ImageData)
  : ImageData :=
  let w := width current in
  let h := height current in
  let next := createImageData w h None in
  let d := copy_into (data current) (data next) in
  let d :=
    for_loop h (fun y =>
      for_loop w (fun x => dilate_pixel w h (data current) mask y x)) d in
  {| width := w; height := h; data := d |}.

Definition applyDilationWithMask (sourceData : ImageData) (radiusPixels : Z)
  (mask : option ImageData) : ImageData :=
  if radiusPixels <=? 0 then sourceData
  else
    let current :=
      createImageData (width sourceData) (height sourceData)
        (Some (data sourceData)) in
    Nat.iter (Z.to_nat radiusPixels) (dilate_pass mask) current.

Definition applyDilation (sourceData : ImageData) (radiusPixels : Z)
  : ImageData :=
  applyDilationWithMask sourceData radiusPixels None.

(** The loop over the neighbours in [applyErosion]: [keepPixel]. *)
Fixpoint erode_keep (width height : Z) (current : Uint8ClampedArray)
  (x y : Z) (ns : list (Z * Z)) : bool :=
  match ns with
  | [] => true
  | (dx, dy) :: ns' =>
      let nx := x + dx in
      let ny := y + dy in
      if (nx <? 0) || (nx >=? width) || (ny <? 0) || (ny >=? height)
      then false
      else
        let nIdx := pixel_index width nx ny in
        if is0 (get current (nIdx + 3)) then false
        else erode_keep width height current x y ns'
  end.

Definition erode_pixel (width height : Z) (current : Uint8ClampedArray)
  (y x : Z) (next : Uint8ClampedArray) : Uint8ClampedArray :=
  let idx := pixel_index width x y in
  if is0 (get current (idx + 3)) then next
  else if erode_keep width height current x y neighbors then
    let next := set next idx (get current idx) in
    let next := set next (idx + 1) (get current (idx + 1)) in
    let next := set next (idx + 2) (get current (idx + 2)) in
    set next (idx + 3) (get current (idx + 3))
  else next.

Definition erode_pass (current : ImageData) : ImageData :=
  let w := width current in
  let h := height current in
  let next := createImageData w h None in
  let d :=
    for_loop h (fun y =>
      for_loop w (fun x => erode_pixel w h (data current) y x)) (data next) in
  {| width := w; height := h; data := d |}.

Definition applyErosion (sourceData : ImageData) (radiusPixels : Z)
  : ImageData :=
  if radiusPixels <=? 0 then sourceData
  else
    let current :=
      createImageData (width sourceData) (height sourceData)
        (Some (data sourceData)) in
    Nat.iter (Z.to_nat radiusPixels) erode_pass current.

End TrappingEngine.

(** ** src/core/TrapperController.js *)

Module TrapperController.
Import JS TrapSizeParser TrappingEngine.

(** The part of the host document that the pixel code reads. *)
Record Document : Type := { doc_width : Z; doc_height : Z }.

(** An entry of [colorLayers]; the host layer it belongs to is the
    layer at the same position of the document. *)
Record ColorLayer : Type :=
  { color : ColorEntry; layer_lightness : number; pixelData : ImageData }.

(** [Math.max(100, Math.round(totalPixels * 0.0001))] *)
Definition minPixelThreshold (totalPixels : Z) : number :=
  Math_max (of_Z 100)
    (Math_round (fmul (of_Z totalPixels) (of_decimal false 1 (-4)))).

(** [colors.filter(c => c.count >= minPixelThreshold)] *)
Definition is_significant (threshold : number) (c : ColorEntry) : bool :=
  ge (of_Z (count c)) threshold.

Definition significantColors (colorAnalysis : ColorAnalysis) : list ColorEntry :=
  List.filter (is_significant (minPixelThreshold (totalPixels colorAnalysis)))
    (colors colorAnalysis).

(** The analysis step of [applyTrapping]: the colours of the flattened
    raster that are kept, lightest first, or the error thrown. *)
Definition analyzeDocument (flattenedData : ImageData)
  : result (list ColorEntry) :=
  let colorAnalysis := analyzeColors flattenedData in
  let significant := significantColors colorAnalysis in
  if Z.of_nat (length significant) >? 10 then Err ExceedsMaximumColors
  else if Z.of_nat (length significant) =? 0 then Err NoSignificantColorsFound
  else Ok (sortColorsByLightness significant).

Definition extract_pixel (sourceData : ImageData) (color : ColorEntry)
  (y x : Z) (layerData : Uint8ClampedArray) : Uint8ClampedArray :=
  let idx := pixel_index (width sourceData) x y in
  let r := get (data sourceData) idx in
  let g := get (data sourceData) (idx + 1) in
  let b := get (data sourceData) (idx + 2) in
  let a := get (data sourceData) (idx + 3) in
  if gt0 a && same r (TrappingEngine.r color)
           && same g (TrappingEngine.g color)
           && same b (TrappingEngine.b color)
  then
    let layerData := set layerData idx r in
    let layerData := set layerData (idx + 1) g in
    let layerData := set layerData (idx + 2) b in
    set layerData (idx + 3) (Some xff)
  else layerData.

Definition extractSingleColor (sourceData : ImageData) (color : ColorEntry)
  : ImageData :=
  let width := width sourceData in
  let height := height sourceData in
  let layerData := new_array (width * height * 4) in
  {| width := width; height := height;
     data :=
       for_loop height (fun y =>
         for_loop width (fun x => extract_pixel sourceData color y x))
         layerData |}.

(** The separation step: one entry per colour, in the order of the
    sorted colours, holding the raster extracted for it. *)
Definition separateColors (flattenedData : ImageData)
  (sortedColors : list ColorEntry) : list ColorLayer :=
  map (fun c => {| color := c; layer_lightness := lightness c;
                   pixelData := extractSingleColor flattenedData c |})
    sortedColors.

Definition mask_pixel (width : Z) (darkerPixels : ImageData) (y x : Z)
  (maskData : Uint8ClampedArray) : Uint8ClampedArray :=
  let idx := pixel_index width x y in
  if gt0 (get (data darkerPixels) (idx + 3)) then
    let maskData := set maskData idx (Some xff) in
    let maskData := set maskData (idx + 1) (Some xff) in
    let maskData := set maskData (idx + 2) (Some xff) in
    set maskData (idx + 3) (Some xff)
  else maskData.

(** One iteration of the loop over the darker layers. *)
Definition mask_add_layer (width height : Z) (maskData : Uint8ClampedArray)
  (darkerLayer : ColorLayer) : Uint8ClampedArray :=
  for_loop height (fun y =>
    for_loop width (fun x => mask_pixel width (pixelData darkerLayer) y x))
    maskData.

(** The layers visited by [for (i = currentIndex + 1; i < length; i++)]
    are the entries of [colorLayers] after position [currentIndex]. *)
Definition createDarkerColorMaskFromLayers (document : Document)
  (currentIndex : nat) (colorLayers : list ColorLayer) : ImageData :=
  let width := doc_width document in
  let height := doc_height document in
  let maskData := new_array (width * height * 4) in
  {| width := width; height := height;
     data := foldl (mask_add_layer width height) maskData
               (drop (S currentIndex) colorLayers) |}.

(** The raster that [applyTrappingToLayer] writes to the host layer;
    [None] when [colorLayers] has no entry at [layerIndex]. *)
Definition applyTrappingToLayer (document : Document) (trapPixels : Z)
  (layerIndex : nat) (colorLayers : list ColorLayer) : option ImageData :=
  match colorLayers !! layerIndex with
  | Some cl =>
      let currentPixelData := pixelData cl in
      let darkerMask :=
        createDarkerColorMaskFromLayers document layerIndex colorLayers in
      Some (applyDilationWithMask currentPixelData trapPixels (Some darkerMask))
  | None => None
  end.

(** What the trapping loop of [applyTrapping] leaves in host layer [i]:
    its trap in pixels and its raster.  The raster is the extracted one
    unless the trap is positive; [None] stands for a run that does not
    return (an infinite trap makes the pass loop endless). *)
Definition trapLayer (document : Document) (trapSizes : range)
  (resolution : number) (colorLayers : list ColorLayer) (i : nat)
  : option (number * ImageData) :=
  let trapInches :=
    calculateLayerTrap (of_Z (Z.of_nat i))
      (of_Z (Z.of_nat (length colorLayers)))
      (min trapSizes) (max trapSizes) in
  let trapPixels := inchesToPixels trapInches resolution in
  if gt trapPixels pos_zero then
    match to_Z trapPixels with
    | Some radius =>
        match applyTrappingToLayer document radius i colorLayers with
        | Some trapped => Some (trapPixels, trapped)
        | None => None
        end
    | None => None
    end
  else
    match colorLayers !! i with
    | Some cl => Some (trapPixels, pixelData cl)
    | None => None
    end.

Definition trapLayers (document : Document) (trapSizes : range)
  (resolution : number) (colorLayers : list ColorLayer)
  : list (option (number * ImageData)) :=
  map (trapLayer document trapSizes resolution colorLayers)
    (seq 0 (length colorLayers)).

End TrapperController.

(** ** Vocabulary of the specification *)

Module Spec.
Import JS TrapSizeParser TrappingEngine.

(** A raster: non-negative dimensions and four bytes per pixel. *)
Definition well_formed (img : ImageData) : Prop :=
  0 <= width img /\ 0 <= height img /\
  Z.of_nat (length (data img)) = width img * height img * 4.

Definition inside (w h x y : Z) : Prop := 0 <= x < w /\ 0 <= y < h.

(** Channel [k] (0 = R, 1 = G, 2 = B, 3 = A) of pixel (x, y). *)
Definition channel (img : ImageData) (x y k : Z) : option byte :=
  get (data img) (pixel_index (width img) x y + k).

Definition alpha (img : ImageData) (x y : Z) : option byte :=
  channel img x y 3.

(** Alpha greater than 0. *)
Definition opaque (img : ImageData) (x y : Z) : bool := gt0 (alpha img x y).

(** Alpha equal to 0. *)
Definition transparent (img : ImageData) (x y : Z) : bool :=
  is0 (alpha img x y).

(** The four channels of pixel (x, y). *)
Definition pixel (img : ImageData) (x y : Z) : list (option byte) :=
  [channel img x y 0; channel img x y 1; channel img x y 2; channel img x y 3].

Definition transparent_black : list (option byte) :=
  [Some x00; Some x00; Some x00; Some x00].

(** The four axis-aligned neighbours of (x, y): up, right, down, left. *)
Definition neighbours4 (x y : Z) : list (Z * Z) :=
  [(x, y - 1); (x + 1, y); (x, y + 1); (x - 1, y)].

(** The first of the neighbours (up, right, down, left) that lies in
    the raster and is opaque. *)
Definition first_opaque_neighbour (img : ImageData) (x y : Z) : option (Z * Z) :=
  List.find
    (fun p => in_bounds (width img) (height img) p.1 p.2 && opaque img p.1 p.2)
    (neighbours4 x y).

(** One step between 4-connected cells of a [w] x [h] raster. *)
Definition adjacent4 (p q : Z * Z) : Prop :=
  Z.abs (p.1 - q.1) + Z.abs (p.2 - q.2) = 1.

(** [within_steps w h n p q]: [q] is reached from [p] in at most [n]
    4-connected steps that stay inside the raster. *)
Inductive within_steps (w h : Z) : nat -> Z * Z -> Z * Z -> Prop :=
  | steps_here n p : inside w h p.1 p.2 -> within_steps w h n p p
  | steps_more n p q q' :
      within_steps w h n p q -> adjacent4 q q' -> inside w h q'.1 q'.2 ->
      within_steps w h (S n) p q'.

(** The mask lets the pixel grow: there is no mask, or the mask is
    opaque there. *)
Definition mask_permits (mask : option ImageData) (x y : Z) : Prop :=
  match mask with
  | None => True
  | Some m => opaque m x y = true
  end.

(** A mask of the size of the raster. *)
Definition same_size (mask : option ImageData) (img : ImageData) : Prop :=
  match mask with
  | None => True
  | Some m =>
      well_formed m /\ width m = width img /\ height m = height img
  end.

(** The pixels of a [w] x [h] raster, as (y, x), in scan order. *)
Definition scan_order (w h : Z) : list (Z * Z) :=
  y ← seqZ 0 h; (fun x => (y, x)) <$> seqZ 0 w.

(** What a loop body does to the array at one pixel: nothing, or the
    four channels it stores there. *)
Definition pixel_write : Type :=
  option (option byte * option byte * option byte * option byte).

Definition write4 (a : Uint8ClampedArray) (idx : Z)
  (v : option byte * option byte * option byte * option byte)
  : Uint8ClampedArray :=
  let '(v0, v1, v2, v3) := v in
  set (set (set (set a idx v0) (idx + 1) v1) (idx + 2) v2) (idx + 3) v3.

Definition apply_write (w : Z) (f : Z -> Z -> pixel_write) (y x : Z)
  (a : Uint8ClampedArray) : Uint8ClampedArray :=
  match f y x with
  | Some v => write4 a (pixel_index w x y) v
  | None => a
  end.

Definition component (k : Z)
  (v : option byte * option byte * option byte * option byte) : option byte :=
  let '(v0, v1, v2, v3) := v in
  if k =? 0 then v0 else if k =? 1 then v1 else if k =? 2 then v2 else v3.

(** The pixel of the source is opaque and has exactly the colour
    [color]. *)
Definition matches_color (sourceData : ImageData) (color : ColorEntry)
  (x y : Z) : bool :=
  opaque sourceData x y
  && same (channel sourceData x y 0) (r color)
  && same (channel sourceData x y 1) (g color)
  && same (channel sourceData x y 2) (b color).

(** What [extract_pixel] stores. *)
Definition extract_write (sourceData : ImageData) (color : ColorEntry)
  (y x : Z) : pixel_write :=
  if matches_color sourceData color x y
  then Some (channel sourceData x y 0, channel sourceData x y 1,
             channel sourceData x y 2, Some xff)
  else None.

(** The four cells that start at [idx]. *)
Definition quad_at (a : Uint8ClampedArray) (idx : Z)
  : option byte * option byte * option byte * option byte :=
  (get a idx, get a (idx + 1), get a (idx + 2), get a (idx + 3)).

(** What [mask_pixel] stores. *)
Definition mask_write (w : Z) (darkerPixels : ImageData) (y x : Z)
  : pixel_write :=
  if gt0 (get (data darkerPixels) (pixel_index w x y + 3))
  then Some (Some xff, Some xff, Some xff, Some xff)
  else None.

(** The offset at which the neighbour loop of the dilation stops. *)
Definition first_offset (w h : Z) (current : Uint8ClampedArray) (x y : Z)
  (ns : list (Z * Z)) : option (Z * Z) :=
  List.find
    (fun d => in_bounds w h (x + d.1) (y + d.2)
              && gt0 (get current (pixel_index w (x + d.1) (y + d.2) + 3)))
    ns.

(** What [dilate_pixel] stores. *)
Definition dilate_write (w h : Z) (current : Uint8ClampedArray)
  (mask : option ImageData) (y x : Z) : pixel_write :=
  let idx := pixel_index w x y in
  if gt0 (get current (idx + 3)) then None
  else if mask_forbids mask (idx + 3) then None
  else
    match first_offset w h current x y neighbors with
    | Some d => Some (quad_at current (pixel_index w (x + d.1) (y + d.2)))
    | None => None
    end.

(** What [erode_pixel] stores. *)
Definition erode_write (w h : Z) (current : Uint8ClampedArray) (y x : Z)
  : pixel_write :=
  let idx := pixel_index w x y in
  if is0 (get current (idx + 3)) then None
  else if erode_keep w h current x y neighbors
       then Some (quad_at current idx)
       else None.

(** All four neighbours of (x, y) lie in the raster and are opaque. *)
Definition surrounded (img : ImageData) (x y : Z) : bool :=
  forallb (fun p => in_bounds (width img) (height img) p.1 p.2
                    && opaque img p.1 p.2)
    (neighbours4 x y).

(** (x, y) lies on the border of a [w] x [h] raster. *)
Definition on_edge (w h x y : Z) : Prop :=
  x = 0 \/ y = 0 \/ x = w - 1 \/ y = h - 1.

(** The palette key of pixel [p] = (y, x): its (r, g, b) when its
    alpha is not 0. *)
Definition pixel_key (img : ImageData) (p : Z * Z) : option color_key :=
  match channel img p.2 p.1 0, channel img p.2 p.1 1,
        channel img p.2 p.1 2, channel img p.2 p.1 3 with
  | Some r, Some g, Some b, Some a =>
      if Byte.eqb a x00 then None else Some (r, g, b)
  | _, _, _, _ => None
  end.

(** The keys of the pixels that are not transparent, in scan order. *)
Definition opaque_keys (img : ImageData) : list color_key :=
  omap (pixel_key img) (scan_order (width img) (height img)).

Definition key_of (e : ColorEntry) : color_key := (r e, g e, b e).

(** The palette entry of key [k] after [n] pixels of that colour. *)
Definition entry_of (k : color_key) (n : Z) : ColorEntry :=
  {| r := k.1.1; g := k.1.2; b := k.2; count := n;
     lightness := calculateLightness k.1.1 k.1.2 k.2 |}.

(** How often [k] occurs in [keys]. *)
Definition occurrences (k : color_key) (keys : list color_key) : Z :=
  Z.of_nat (length (List.filter (key_eqb k) keys)).

(** The distinct keys of [keys], in the order of their first
    occurrence. *)
Definition discovered (keys : list color_key) : list color_key :=
  foldl (fun acc k => if existsb (key_eqb k) acc then acc else acc ++ [k])
    [] keys.

(** [has / get.count++ / set] of [analyzeColors] for one key. *)
Definition upsert (colorMap : color_map) (k : color_key) : color_map :=
  if map_has colorMap k then map_increment colorMap k
  else colorMap ++ [(k, entry_of k 1)].

Definition sum_counts (cs : list ColorEntry) : Z :=
  foldr (fun c acc => count c + acc) 0 cs.

(** Following the words of the specification: the threshold
    [max(100, round(totalPixels * 0.0001))] in whole numbers, where
    [round] goes to the nearest integer and rounds a half upward. *)
Definition significance_threshold (totalPixels : Z) : Z :=
  Z.max 100 ((totalPixels + 5000) / 10000).

(** [x] is a zero, an infinity or a finite number of sign bit [s]
    (so it is not NaN). *)
Definition has_sign (s : bool) (x : number) : Prop :=
  match x with
  | S754_zero s' | S754_infinity s' | S754_finite s' _ _ => s' = s
  | S754_nan => False
  end.

Definition is_finite (x : number) : bool :=
  match x with
  | S754_zero _ | S754_finite _ _ _ => true
  | _ => false
  end.

(** Following the words of the specification: a text is numeric when
    all of it, surrounding white space aside, is one decimal literal. *)
Definition numeric_text (s : string) : bool :=
  match scan_decimal (trim s) with
  | Some (_, EmptyString) => true
  | _ => false
  end.

(** The texts that [parse] hands to [parseFloat] for the (trimmed)
    specification [spec]. *)
Definition residual_texts (spec : string) : list string :=
  match notation_of spec with
  | Points => [trim (substring0 (str_length spec - 2) spec)]
  | Fraction => map trim (split_char "/" spec)
  | Decimal => [spec]
  end.

End Spec.

(** ** Small rasters used to exercise the theorems *)

Module Examples.
Import JS TrapSizeParser TrappingEngine TrapperController Spec.

Definition clear_px : list byte := [x00; x00; x00; x00].
Definition red_px : list byte := [xff; x00; x00; xff].
Definition ink_px : list byte := [x01; x02; x03; xff].

(** 3 x 3: a red pixel in the centre and a dark one in the lower
    right corner. *)
Definition two_colors : ImageData :=
  {| width := 3; height := 3;
     data := clear_px ++ clear_px ++ clear_px
             ++ clear_px ++ red_px ++ clear_px
             ++ clear_px ++ clear_px ++ ink_px |}.

(** 3 x 3, every pixel red. *)
Definition all_red : ImageData :=
  {| width := 3; height := 3;
     data := red_px ++ red_px ++ red_px ++ red_px ++ red_px ++ red_px
             ++ red_px ++ red_px ++ red_px |}.

(** A mask that is opaque in the top row only. *)
Definition top_row_mask : ImageData :=
  {| width := 3; height := 3;
     data := red_px ++ red_px ++ red_px
             ++ clear_px ++ clear_px ++ clear_px
             ++ clear_px ++ clear_px ++ clear_px |}.

Definition red : ColorEntry :=
  {| r := xff; g := x00; b := x00; count := 1;
     lightness := calculateLightness xff x00 x00 |}.

Definition ink : ColorEntry :=
  {| r := x01; g := x02; b := x03; count := 1;
     lightness := calculateLightness x01 x02 x03 |}.

Definition document3 : Document := {| doc_width := 3; doc_height := 3 |}.

(** The [w] x [h] raster whose pixel (x, y) is [f x y]. *)
Definition raster_of (w h : Z) (f : Z -> Z -> list byte) : ImageData :=
  {| width := w; height := h; data := p ← scan_order w h; f p.2 p.1 |}.

Definition black_px : list byte := [x00; x00; x00; xff].

(** 20 x 10: the left half red, the right half black. *)
Definition red_and_black : ImageData :=
  raster_of 20 10 (fun x _ => if x <? 10 then red_px else black_px).

Definition document20 : Document := {| doc_width := 20; doc_height := 10 |}.

(** [img] is opaque exactly at the pixels with [x < limit]. *)
Definition opaque_left_of (limit : Z) (img : ImageData) : bool :=
  forallb (fun p => Bool.eqb (opaque img p.2 p.1) (p.2 <? limit))
    (scan_order (width img) (height img)).

(** [img] is opaque exactly at the pixels with [limit <= x]. *)
Definition opaque_from (limit : Z) (img : ImageData) : bool :=
  forallb (fun p => Bool.eqb (opaque img p.2 p.1) (limit <=? p.2))
    (scan_order (width img) (height img)).

Definition two_layers : list ColorLayer :=
  separateColors two_colors [red; ink].

End Examples.

(** ** src/core/TrappingEngine.js, the underbase *)

Module TrappingEngineExt.
Import JS TrappingEngine.

(** [options.garmentColor]: three numbers, integers here. *)
Record GarmentColor : Type := { garment_r : Z; garment_g : Z; garment_b : Z }.

(** The options of [generateUnderbase]; [None] is a property that is
    absent.  The choke is a whole number of pixels. *)
Record UnderbaseOptions : Type :=
  { garmentColor : option GarmentColor; chokePixels : option Z }.

(** [{ r: 255, g: 255, b: 255 }] *)
Definition white_garment : GarmentColor :=
  {| garment_r := 255; garment_g := 255; garment_b := 255 |}.

(** [Math.abs(v - c) < 10] for an array element [v]. *)
Definition near (v : option byte) (c : Z) : bool :=
  match v with
  | Some b => Z.abs (Z.of_N (Byte.to_N b) - c) <? 10
  | None => false
  end.

Definition underbase_pixel (sourceData : ImageData) (garmentColor : GarmentColor)
  (y x : Z) (underbase : Uint8ClampedArray) : Uint8ClampedArray :=
  let idx := pixel_index (width sourceData) x y in
  let r := get (data sourceData) idx in
  let g := get (data sourceData) (idx + 1) in
  let b := get (data sourceData) (idx + 2) in
  let a := get (data sourceData) (idx + 3) in
  if gt0 a then
    let isGarmentColor :=
      near r (garment_r garmentColor) && near g (garment_g garmentColor)
      && near b (garment_b garmentColor) in
    if negb isGarmentColor then
      let underbase := set underbase idx (Some xff) in
      let underbase := set underbase (idx + 1) (Some xff) in
      let underbase := set underbase (idx + 2) (Some xff) in
      set underbase (idx + 3) (Some xff)
    else underbase
  else underbase.

Definition generateUnderbase (sourceData : ImageData)
  (options : UnderbaseOptions) : ImageData :=
  let width := width sourceData in
  let height := height sourceData in
  let underbase := createImageData width height None in
  let garmentColor := default white_garment (garmentColor options) in
  let chokePixels := default 0 (chokePixels options) in
  let underbase :=
    {| width := width; height := height;
       data :=
         for_loop height (fun y =>
           for_loop width (fun x => underbase_pixel sourceData garmentColor y x))
           (data underbase) |} in
  if chokePixels >? 0 then applyErosion underbase chokePixels
  else underbase.

Record TrappingStrategy : Type :=
  { name : string;
    direction : string;
    description : string;
    defaultMinTrap : number;
    defaultMaxTrap : number }.

Definition getTrappingStrategy (mode : string) : TrappingStrategy :=
  if String.eqb mode "screen" then
    {| name := "Screen Printing";
       direction := "Light spreads under dark";
       description := "Optimized for screen printing on garments";
       defaultMinTrap := of_Z 0;
       defaultMaxTrap := of_decimal false 556 (-4) |}
  else
    {| name := "Offset Lithography";
       direction := "Light spreads under dark";
       description := "High-precision commercial printing";
       defaultMinTrap := of_Z 0;
       defaultMaxTrap := of_decimal false 3125 (-5) |}.

End TrappingEngineExt.

(** ** More of the JavaScript built-ins *)

Module JSExt.
Import JS.

(** [s.lastIndexOf(c)] for a one-character search string: the index of
    the last occurrence of [c], or -1. *)
Fixpoint lastIndexOf (s : string) (c : ascii) : Z :=
  match s with
  | EmptyString => -1
  | String d r =>
      let i := lastIndexOf r c in
      if 0 <=? i then i + 1 else if Ascii.eqb d c then 0 else -1
  end.

(** [s.substring(n)]: a negative [n] counts as 0. *)
Definition substring_from (n : Z) (s : string) : string :=
  String.substring (Z.to_nat n) (String.length s - Z.to_nat n) s.

(** [Math.abs] *)
Definition Math_abs (x : number) : number :=
  match x with
  | S754_zero _ => S754_zero false
  | S754_infinity _ => S754_infinity false
  | S754_nan => S754_nan
  | S754_finite _ m e => S754_finite false m e
  end.

(** *** Number.prototype.toFixed *)

Definition digit_char (d : N) : ascii := ascii_of_N (48 + d).

Fixpoint digits_fuel (fuel : nat) (n : N) (acc : list ascii) : list ascii :=
  match fuel with
  | O => acc
  | S k =>
      let acc' := digit_char (n mod 10) :: acc in
      if (n / 10 =? 0)%N then acc' else digits_fuel k (n / 10) acc'
  end.

(** The decimal digits of [n], the most significant first; [0] for 0. *)
Definition digits_of_N (n : N) : list ascii :=
  digits_fuel (S (N.to_nat (N.log2 n))) n [].

(** The integer [n] for which [n / 10^f - m * 2^e] is as close to zero
    as possible; the larger one when there are two. *)
Definition nearest_scaled (m : positive) (e : Z) (f : N) : N :=
  let scaled := Zpos m * 10 ^ Z.of_N f in
  Z.to_N match e with
         | Zneg k => (2 * scaled + 2 ^ Zpos k) / 2 ^ (Zpos k + 1)
         | _ => scaled * 2 ^ e
         end.

(** The digits of [n] with a decimal point before the last [f] of
    them, after padding with zeros on the left to [f + 1] digits. *)
Definition fixed_digits (n f : N) : list ascii :=
  let m := digits_of_N n in
  if (f =? 0)%N then m
  else
    let m := replicate (N.to_nat f + 1 - length m) "0"%char ++ m in
    take (length m - N.to_nat f) m ++ "."%char :: drop (length m - N.to_nat f) m.

(** [x.toFixed(f)] for [0 <= f <= 100].  From 10^21 on the result is
    the text of [ToString], which is not modelled: [None]. *)
Definition toFixed (x : number) (f : N) : option string :=
  match x with
  | S754_nan => Some "NaN"%string
  | S754_infinity s => Some (if s then "-Infinity" else "Infinity")%string
  | S754_zero _ => Some (string_of_list_ascii (fixed_digits 0 f))
  | S754_finite s m e =>
      if ge (S754_finite false m e) (of_decimal false 1 21) then None
      else
        let digits := fixed_digits (nearest_scaled m e f) f in
        Some (string_of_list_ascii (if s then "-"%char :: digits else digits))
  end.

End JSExt.

(** ** src/utils/TrapSizeParser.js, the recommended sizes *)

Module TrapSizeParserExt.
Import JS JSExt TrapSizeParser.

Record RecommendedSizes : Type :=
  { recommended_min : string;   (* min *)
    recommended_max : string;   (* max *)
    minInches : number;
    maxInches : number;
    description : string }.

(** [inl message] stands for [throw new Error(message)]. *)
Definition getRecommendedSizes (mode : string) : string + RecommendedSizes :=
  if String.eqb mode "offset" then
    inr {| recommended_min := "0";
           recommended_max := "1/32";
           minInches := of_Z 0;
           maxInches := of_decimal false 3125 (-5);
           description :=
             String.append "Offset lithography typically uses 0 to 1/32"
               (String "034" " trapping") |}
  else if String.eqb mode "screen" then
    inr {| recommended_min := "0";
           recommended_max := "4pt";
           minInches := of_Z 0;
           maxInches := of_decimal false 556 (-4);
           description :=
             "Screen printing typically uses 0 to 4-6 points trapping" |}
  else inl (String.append "Unknown mode: " mode).

Record CommonFraction : Type := { value : number; str : string }.

(** The inch mark, a double quote. *)
Definition inch_mark : string := String "034" EmptyString.

Definition commonFractions : list CommonFraction :=
  [ {| value := fdiv (of_Z 1) (of_Z 64); str := String.append "1/64" inch_mark |};
    {| value := fdiv (of_Z 1) (of_Z 32); str := String.append "1/32" inch_mark |};
    {| value := fdiv (of_Z 3) (of_Z 64); str := String.append "3/64" inch_mark |};
    {| value := fdiv (of_Z 1) (of_Z 16); str := String.append "1/16" inch_mark |};
    {| value := fdiv (of_Z 5) (of_Z 64); str := String.append "5/64" inch_mark |};
    {| value := fdiv (of_Z 3) (of_Z 32); str := String.append "3/32" inch_mark |};
    {| value := fdiv (of_Z 1) (of_Z 8); str := String.append "1/8" inch_mark |} ].

(** [Math.abs(inches - frac.value) < 0.0001] *)
Definition is_close (inches : number) (frac : CommonFraction) : bool :=
  lt (Math_abs (fsub inches (value frac))) (of_decimal false 1 (-4)).

(** [mode] is [None] when the argument is left out; [None] as a result
    is a text that [toFixed] does not give in the model. *)
Definition format (inches : number) (mode : option string) : option string :=
  let mode := default "fraction"%string mode in
  if String.eqb mode "points" then
    let points := fmul inches (of_Z 72) in
    option_map (fun text => String.append text "pt") (toFixed points 1)
  else
    match (if String.eqb mode "fraction"
           then List.find (is_close inches) commonFractions
           else None) with
    | Some frac => Some (str frac)
    | None =>
        option_map (fun text => String.append text inch_mark)
          (toFixed inches 5)
    end.

End TrapSizeParserExt.

(** ** src/core/TrapperController.js, names and validity *)

Module TrapperControllerExt.
Import JS JSExt.

Definition createTrappedDocumentName (originalName : string) : string :=
  let lastDotIndex := lastIndexOf originalName "." in
  if (lastDotIndex =? -1) || (lastDotIndex =? 0)
  then String.append originalName "-trapped"
  else
    let basename := substring0 lastDotIndex originalName in
    let extension := substring_from lastDotIndex originalName in
    String.append basename (String.append "-trapped" extension).

(** What [getDocumentInfo] returns, as far as the checks read it. *)
Record DocInfo : Type :=
  { mode : string; bitsPerChannel : Z; info_width : Z; info_height : Z }.

Record Layer : Type := { locked : bool }.

(** The active document of the host: its layers, and the information
    that [getDocumentInfo] returns for it. *)
Record HostDocument : Type := { layers : list Layer; docInfo : DocInfo }.

(** One constructor per [reason] of [checkDocumentValidity]; the
    reason of the layer check is built from the three counts. *)
Inductive invalid_reason : Type :=
  | NoDocumentOpen                  (* 'No document open' *)
  | WrongColorMode (mode : string)  (* 'Document is in ... mode. ...' *)
  | WrongBitDepth                   (* 'Document must be 8-bit per channel' *)
  | AllLayersLocked                 (* 'All layers are locked. ...' *)
  | NeedsOneUnlockedLayer (total unlocked lockedCount : Z).
                                    (* 'Document has ... layer(s) total ...' *)

Inductive validity : Type :=
  | Valid (docInfo : DocInfo)       (* { isValid: true, docInfo } *)
  | Invalid (reason : invalid_reason).

(** [None] is a host without an active document.  A call to the host
    that throws is not part of the model. *)
Definition checkDocumentValidity (document : option HostDocument) : validity :=
  match document with
  | None => Invalid NoDocumentOpen
  | Some document =>
      let docInfo := docInfo document in
      if negb (String.eqb (mode docInfo) "RGB")
      then Invalid (WrongColorMode (mode docInfo))
      else if negb (bitsPerChannel docInfo =? 8) then Invalid WrongBitDepth
      else
        let unlockedLayers :=
          List.filter (fun layer => negb (locked layer)) (layers document) in
        if Z.of_nat (length unlockedLayers) =? 0 then Invalid AllLayersLocked
        else if (Z.of_nat (length unlockedLayers) >? 1)
                || (Z.of_nat (length (layers document)) >? 1)
        then
          let lockedCount :=
            Z.of_nat (length (layers document))
            - Z.of_nat (length unlockedLayers) in
          Invalid (NeedsOneUnlockedLayer
                     (Z.of_nat (length (layers document)))
                     (Z.of_nat (length unlockedLayers)) lockedCount)
        else Valid docInfo
  end.

Inductive document_error : Type :=
  | MustBeRGB     (* 'Document must be in RGB color mode. ...' *)
  | MustBe8Bit.   (* 'Document must be 8-bit per channel' *)

(** [inl] is the error thrown; [inr] tells whether the warning about a
    large document was written to the console. *)
Definition validateDocument (docInfo : DocInfo) : document_error + bool :=
  if negb (String.eqb (mode docInfo) "RGB") then inl MustBeRGB
  else if negb (bitsPerChannel docInfo =? 8) then inl MustBe8Bit
  else inr ((info_width docInfo >? 10000) || (info_height docInfo >? 10000)).

(** [document.layers.find(layer => !layer.locked)] of [applyTrapping]. *)
Definition sourceLayer (document : HostDocument) : option Layer :=
  List.find (fun layer => negb (locked layer)) (layers document).

End TrapperControllerExt.

(** ** Vocabulary of the further properties *)

Module SpecExt.
Import JS TrapSizeParser TrappingEngine TrapperController Spec
  JSExt TrapSizeParserExt TrappingEngineExt TrapperControllerExt.

(** [spreads_to mask src n p]: [p] is opaque in [src], or is reached
    from an opaque pixel of [src] in at most [n] 4-connected steps, each
    of which enters a cell of the raster that the mask permits. *)
Inductive spreads_to (mask : option ImageData) (src : ImageData)
  : nat -> Z * Z -> Prop :=
  | spread_source n p :
      inside (width src) (height src) p.1 p.2 ->
      opaque src p.1 p.2 = true -> spreads_to mask src n p
  | spread_step n q p :
      spreads_to mask src n q -> adjacent4 q p ->
      inside (width src) (height src) p.1 p.2 ->
      mask_permits mask p.1 p.2 ->
      spreads_to mask src (S n) p.

(** Every cell at distance at most [n] from (x, y) lies in the raster
    and is opaque. *)
Definition ball_opaque (img : ImageData) (n : Z) (x y : Z) : Prop :=
  forall qx qy,
    Z.abs (qx - x) + Z.abs (qy - y) <= n ->
    inside (width img) (height img) qx qy /\ opaque img qx qy = true.

Definition white_opaque : list (option byte) :=
  [Some xff; Some xff; Some xff; Some xff].

(** The pixel is opaque and differs from the garment colour by 10 or
    more in some channel. *)
Definition needs_underbase (img : ImageData) (garment : GarmentColor)
  (x y : Z) : bool :=
  opaque img x y
  && negb (near (channel img x y 0) (garment_r garment)
           && near (channel img x y 1) (garment_g garment)
           && near (channel img x y 2) (garment_b garment)).

(** What [underbase_pixel] stores. *)
Definition underbase_write (img : ImageData) (garment : GarmentColor)
  (y x : Z) : pixel_write :=
  if needs_underbase img garment x y
  then Some (Some xff, Some xff, Some xff, Some xff)
  else None.

(** No entry is directly followed by one that the comparator
    [(a, b) => b.lightness - a.lightness] of the sort puts before it. *)
Definition lightest_first (colors : list ColorEntry) : Prop :=
  forall i c1 c2,
    colors !! i = Some c1 -> colors !! S i = Some c2 ->
    gt (fsub (lightness c2) (lightness c1)) pos_zero = false.

Definition is_infinity (x : number) : bool :=
  match x with S754_infinity _ => true | _ => false end.

(** The (trimmed) specification is a fraction whose numerator and
    denominator both read as an infinity, as in [Infinity/Infinity]. *)
Definition infinite_fraction (spec : string) : Prop :=
  notation_of spec = Fraction /\
  exists p0 p1,
    split_char "/" spec = [p0; p1]
    /\ is_infinity (parseFloat (trim p0)) = true
    /\ is_infinity (parseFloat (trim p1)) = true.

(** The text is empty or starts with a character that is not white
    space. *)
Definition starts_clean (s : string) : Prop :=
  match s with
  | String c _ => is_white_space c = false
  | EmptyString => True
  end.

(** [scan_decimal] after the sign. *)
Definition scan_unsigned (neg : bool) (s1 : string) : option (number * string) :=
  if String.prefix "Infinity" s1
  then Some (S754_infinity neg, String.substring 8 (String.length s1 - 8) s1)
  else
    let '(ip, s2) := take_digits s1 in
    let '(fp, s3) :=
      match s2 with
      | String "." r => take_digits r
      | _ => ([], s2)
      end in
    match ip, fp with
    | [], [] => None
    | _, _ =>
        let '(ex, rest) :=
          match scan_exponent s3 with
          | Some (v, r) => (v, r)
          | None => (0, s3)
          end in
        Some (of_decimal neg (digits_to_N (ip ++ fp))
                (ex - Z.of_nat (List.length fp)), rest)
    end.

Definition all_digits (ds : list ascii) : Prop :=
  Forall (fun c => is_digit c = true) ds.

(** The text is empty or starts with a character that is not a
    digit. *)
Definition no_digit_ahead (s : string) : Prop :=
  match s with
  | String c _ => is_digit c = false
  | EmptyString => True
  end.

(** [text] is an optional minus sign, the digits [ip], a point and the
    digits [fp]. *)
Definition fixed_text (neg : bool) (ip fp : list ascii) (text : string) : Prop :=
  text = string_of_list_ascii
           ((if neg then ["-"%char] else []) ++ ip ++ "."%char :: fp)
  /\ ip <> [] /\ fp <> [] /\ all_digits ip /\ all_digits fp.

(** The underbase before the choke. *)
Definition underbase_plain (img : ImageData) (garment : GarmentColor)
  : ImageData :=
  generateUnderbase img {| garmentColor := Some garment; chokePixels := None |}.

(** The number of opaque pixels of a raster. *)
Definition opaque_count (img : ImageData) : Z :=
  Z.of_nat (length (List.filter (fun p => opaque img p.2 p.1)
                      (scan_order (width img) (height img)))).

End SpecExt.


(** * Properties *)

Import JS TrapSizeParser TrappingEngine TrapperController Spec Examples.

(** ** Typed arrays *)

Section Arrays.
Implicit Types a : Uint8ClampedArray.
Implicit Types i j idx k : Z.
Implicit Types v : option byte.

Lemma length_set a i v : length (set a i v) = length a.
Proof.
  unfold set. destruct (i <? 0); [done|]. by rewrite length_insert.
Qed.

Lemma get_set_other a i j v : i <> j -> get (set a i v) j = get a j.
Proof.
  intros Hij. unfold get, set.
  destruct (j <? 0) eqn:Hj; [done|].
  destruct (i <? 0) eqn:Hi; [done|].
  apply list_lookup_insert_ne. lia.
Qed.

Lemma get_set_same a i v :
  0 <= i < Z.of_nat (length a) -> get (set a i v) i = Some (default x00 v).
Proof.
  intros Hi. unfold get, set.
  destruct (i <? 0) eqn:Hneg; [lia|].
  apply list_lookup_insert_eq. lia.
Qed.

Lemma get_None a i : Z.of_nat (length a) <= i -> get a i = None.
Proof.
  intros Hi. unfold get. destruct (i <? 0); [done|].
  apply lookup_ge_None. lia.
Qed.

Lemma get_Some_range a i b : get a i = Some b -> 0 <= i < Z.of_nat (length a).
Proof.
  unfold get. destruct (i <? 0) eqn:Hneg; [done|].
  intros H%lookup_lt_Some. lia.
Qed.

Lemma get_in_range a i :
  0 <= i < Z.of_nat (length a) -> exists b, get a i = Some b.
Proof.
  intros Hi. unfold get. destruct (i <? 0) eqn:Hneg; [lia|].
  apply lookup_lt_is_Some. lia.
Qed.

Lemma get_new_array n i :
  0 <= i < n -> get (new_array n) i = Some x00.
Proof.
  intros Hi. unfold get, new_array.
  destruct (i <? 0) eqn:Hneg; [lia|].
  apply lookup_replicate. split; [done|lia].
Qed.

Lemma length_new_array n : Z.of_nat (length (new_array n)) = Z.max 0 n.
Proof. unfold new_array. rewrite length_replicate. lia. Qed.

Lemma length_write4 a idx q : length (write4 a idx q) = length a.
Proof.
  destruct q as [[[v0 v1] v2] v3]. unfold write4.
  by rewrite !length_set.
Qed.

Lemma get_write4_other a idx q j :
  j < idx \/ idx + 4 <= j -> get (write4 a idx q) j = get a j.
Proof.
  intros Hj. destruct q as [[[v0 v1] v2] v3]. unfold write4.
  rewrite !get_set_other by lia. done.
Qed.

Lemma get_write4_at a idx q k :
  0 <= idx -> 0 <= k < 4 -> idx + k < Z.of_nat (length a) ->
  get (write4 a idx q) (idx + k) = Some (default x00 (component k q)).
Proof.
  intros Hidx Hk Hlen. destruct q as [[[v0 v1] v2] v3]. unfold write4, component.
  assert (k = 0 \/ k = 1 \/ k = 2 \/ k = 3) as [-> | [-> | [-> | ->]]] by lia; simpl.
  - rewrite !get_set_other by lia. rewrite Z.add_0_r.
    apply get_set_same. lia.
  - rewrite !get_set_other by lia.
    apply get_set_same. rewrite length_set. lia.
  - rewrite !get_set_other by lia.
    apply get_set_same. rewrite !length_set. lia.
  - apply get_set_same. rewrite !length_set. lia.
Qed.

End Arrays.

(** ** The scan over all pixels *)

Section Scan.
Context {S : Type}.
Implicit Types body : Z -> Z -> S -> S.

Lemma nested_loops_lists body (ys xs : list Z) (s : S) :
  foldl (fun acc y => foldl (fun acc' x => body y x acc') acc xs) s ys =
  foldl (fun acc p => body p.1 p.2 acc) s
    (y ← ys; (fun x => (y, x)) <$> xs).
Proof.
  revert s. induction ys as [|y ys IH]; intros s; [done|].
  simpl. rewrite foldl_app, <- IH. f_equal.
  generalize s. clear. induction xs as [|x xs IHx]; intros s; [done|].
  simpl. apply IHx.
Qed.

(** The two nested [for] loops visit the pixels in scan order. *)
Lemma nested_loops body (w h : Z) (s : S) :
  for_loop h (fun y => for_loop w (fun x => body y x)) s =
  foldl (fun acc p => body p.1 p.2 acc) s (scan_order w h).
Proof. unfold for_loop, scan_order. apply nested_loops_lists. Qed.

End Scan.

Lemma elem_of_scan_order w h y x :
  (y, x) ∈ scan_order w h <-> inside w h x y.
Proof.
  unfold scan_order, inside. rewrite list_elem_of_bind. split.
  - intros (y' & Hx & Hy). apply list_elem_of_fmap in Hx as (x' & Heq & Hx).
    inversion Heq; subst. apply elem_of_seqZ in Hx, Hy. lia.
  - intros [Hx Hy]. exists y. split.
    + apply list_elem_of_fmap. exists x. split; [done|]. apply elem_of_seqZ. lia.
    + apply elem_of_seqZ. lia.
Qed.

(** Distinct pixels of a row-major raster own distinct array cells. *)
Lemma pixel_index_inj w x y k x' y' k' :
  0 <= x < w -> 0 <= x' < w -> 0 <= k < 4 -> 0 <= k' < 4 ->
  pixel_index w x y + k = pixel_index w x' y' + k' ->
  x = x' /\ y = y' /\ k = k'.
Proof.
  unfold pixel_index. intros Hx Hx' Hk Hk' Heq.
  assert (k = k') as -> by lia.
  assert (y * w + x = y' * w + x') as Hrow by lia.
  assert (y = y') as -> by nia.
  lia.
Qed.

Lemma pixel_index_bounds w h x y k :
  inside w h x y -> 0 <= k < 4 ->
  0 <= pixel_index w x y /\ pixel_index w x y + k < w * h * 4.
Proof. unfold inside, pixel_index. intros [Hx Hy] Hk. nia. Qed.

Section Writes.
Variable w : Z.
Variable f : Z -> Z -> pixel_write.

Lemma length_fold_writes (ps : list (Z * Z)) (a : list byte) :
  length (foldl (fun acc p => apply_write w f p.1 p.2 acc) a ps) = length a.
Proof.
  revert a. induction ps as [|p ps IH]; intros a; [done|].
  simpl. rewrite IH. unfold apply_write.
  destruct (f p.1 p.2); [apply length_write4|done].
Qed.

(** A pixel that the scan does not visit keeps its cells. *)
Lemma get_fold_writes_unvisited (ps : list (Z * Z)) (a : list byte) x y k :
  (forall p, p ∈ ps -> 0 <= p.2 < w) ->
  0 <= x < w -> 0 <= k < 4 -> (y, x) ∉ ps ->
  get (foldl (fun acc p => apply_write w f p.1 p.2 acc) a ps)
      (pixel_index w x y + k) = get a (pixel_index w x y + k).
Proof.
  revert a. induction ps as [|[y' x'] ps IH]; intros a Hps Hx Hk Hnot; [done|].
  simpl. rewrite IH.
  - unfold apply_write. destruct (f y' x') as [q|]; [|done].
    apply get_write4_other.
    assert (0 <= x' < w) by (apply (Hps (y', x')); left).
    destruct (decide (pixel_index w x y + k < pixel_index w x' y'
                      \/ pixel_index w x' y' + 4 <= pixel_index w x y + k))
      as [|Hin]; [done|].
    exfalso. apply Hnot. 
    destruct (pixel_index_inj w x y k x' y'
                (pixel_index w x y + k - pixel_index w x' y')) as (-> & -> & _);
      [lia..|left].
  - intros p Hp. apply Hps. by right.
  - done.
  - done.
  - intros Hin. apply Hnot. by right.
Qed.

(** A visited pixel holds what the body stores for it, or what it
    held before when the body stores nothing. *)
Lemma get_fold_writes_visited (ps : list (Z * Z)) (a : list byte) x y k :
  (forall p, p ∈ ps -> 0 <= p.2 < w /\ 0 <= p.1) ->
  0 <= w -> 0 <= k < 4 -> (y, x) ∈ ps ->
  pixel_index w x y + k < Z.of_nat (length a) ->
  get (foldl (fun acc p => apply_write w f p.1 p.2 acc) a ps)
      (pixel_index w x y + k) =
  match f y x with
  | Some q => Some (default x00 (component k q))
  | None => get a (pixel_index w x y + k)
  end.
Proof.
  revert a. induction ps as [|[y' x'] ps IH]; intros a Hps Hw Hk Hin Hlen.
  - by apply elem_of_nil in Hin.
  - assert (0 <= x < w /\ 0 <= y) as [Hx Hy] by (apply (Hps (y, x)); done).
    assert (0 <= x' < w /\ 0 <= y') as [Hx' Hy'] by (apply (Hps (y', x')); left).
    assert (forall p, p ∈ ps -> 0 <= p.2 < w /\ 0 <= p.1) as Hps'
        by (intros p Hp; apply Hps; by right).
    assert (forall b, length (apply_write w f y' x' b) = length b) as Hl.
    { intros b. unfold apply_write. destruct (f y' x'); [apply length_write4|done]. }
    simpl. destruct (decide ((y, x) ∈ ps)) as [Hps_in|Hps_out].
    + rewrite IH by (rewrite ?Hl; done).
      destruct (f y x) as [q|] eqn:Hf; [done|].
      unfold apply_write. destruct (f y' x') as [q'|] eqn:Hf'; [|done].
      apply get_write4_other.
      destruct (decide (pixel_index w x y + k < pixel_index w x' y'
                        \/ pixel_index w x' y' + 4 <= pixel_index w x y + k))
        as [|Hclash]; [done|].
      exfalso.
      destruct (pixel_index_inj w x y k x' y'
                  (pixel_index w x y + k - pixel_index w x' y')) as (-> & -> & _);
        [lia..|congruence].
    + rewrite get_fold_writes_unvisited; [| |done..].
      2:{ intros p Hp. by apply Hps'. }
      apply elem_of_cons in Hin as [Heq|]; [|done].
      inversion Heq; subst x' y'.
      unfold apply_write. destruct (f y x) as [q|]; [|done].
      apply get_write4_at; [|done..].
      unfold pixel_index. nia.
Qed.

End Writes.

(** The result of scanning a whole [w] x [h] array with a body that
    stores at most the four cells of its own pixel. *)
Lemma scan_pixels (body : Z -> Z -> list byte -> list byte)
    (f : Z -> Z -> pixel_write) (w h : Z) (a : list byte) :
  (forall y x acc, body y x acc = apply_write w f y x acc) ->
  let out := for_loop h (fun y => for_loop w (fun x => body y x)) a in
  length out = length a /\
  forall x y k,
    inside w h x y -> 0 <= k < 4 ->
    pixel_index w x y + k < Z.of_nat (length a) ->
    get out (pixel_index w x y + k) =
    match f y x with
    | Some q => Some (default x00 (component k q))
    | None => get a (pixel_index w x y + k)
    end.
Proof.
  intros Hbody out.
  assert (forall a', for_loop h (fun y => for_loop w (fun x => body y x)) a' =
            foldl (fun acc p => apply_write w f p.1 p.2 acc) a'
              (scan_order w h)) as Hfold.
  { intros a'. rewrite nested_loops. generalize (scan_order w h) as ps.
    intros ps. revert a'. induction ps as [|p ps IH]; intros a'; [done|].
    simpl. rewrite Hbody. apply IH. }
  unfold out. clear out. rewrite Hfold.
  split; [apply length_fold_writes|].
  intros x y k Hin Hk Hlen.
  apply get_fold_writes_visited; [|unfold inside in Hin; lia|done| |done].
  - intros [y' x'] Hp. apply elem_of_scan_order in Hp. unfold inside in Hp.
    simpl. lia.
  - by apply elem_of_scan_order.
Qed.

Lemma byte_eqb_eq (x y : byte) : Byte.eqb x y = true <-> x = y.
Proof.
  split; [apply Byte.byte_dec_bl|apply Byte.byte_dec_lb].
Qed.

Lemma gt0_Some b : gt0 (Some b) = true <-> b <> x00.
Proof.
  simpl. rewrite negb_true_iff. split.
  - intros H ->. by vm_compute in H.
  - intros H. destruct (Byte.eqb b x00) eqn:E; [|done].
    by apply byte_eqb_eq in E.
Qed.

(** [gt0] is "greater than 0" on the value of the byte. *)
Lemma gt0_to_N b : gt0 (Some b) = true <-> (0 < Byte.to_N b)%N.
Proof.
  rewrite gt0_Some. split.
  - intros Hb. destruct (Byte.to_N b) eqn:E; [|lia].
    exfalso. apply Hb. pose proof (Byte.of_to_N b) as H.
    rewrite E in H. vm_compute in H. by injection H.
  - intros Hb ->. vm_compute in Hb. done.
Qed.

Lemma is0_negb_gt0 v b : v = Some b -> is0 v = negb (gt0 v).
Proof. intros ->. simpl. by rewrite negb_involutive. Qed.

Lemma same_Some v c : same v c = true <-> v = Some c.
Proof.
  destruct v as [b|]; simpl; [|split; done].
  rewrite byte_eqb_eq. split; [by intros ->|by intros [= ->]].
Qed.

(** ** Layer separation: [extractSingleColor] *)

Section Extract.
Variable sourceData : ImageData.
Variable color : ColorEntry.

Lemma extract_pixel_write y x acc :
  extract_pixel sourceData color y x acc =
  apply_write (width sourceData) (extract_write sourceData color) y x acc.
Proof.
  unfold extract_pixel, apply_write, extract_write, matches_color, opaque,
    alpha, channel.
  rewrite Z.add_0_r.
  destruct (_ && _ && _ && _); done.
Qed.

Lemma extract_channel x y k :
  inside (width sourceData) (height sourceData) x y -> 0 <= k < 4 ->
  channel (extractSingleColor sourceData color) x y k =
  if matches_color sourceData color x y
  then Some (default x00 (component k
         (Some (r color), Some (g color), Some (b color), Some xff)))
  else Some x00.
Proof.
  intros Hin Hk. unfold channel, extractSingleColor. simpl.
  pose proof (pixel_index_bounds _ _ x y k Hin Hk) as [Hlo Hhi].
  assert (Z.of_nat (length (new_array
            (width sourceData * height sourceData * 4)))
          = width sourceData * height sourceData * 4) as Hlen.
  { rewrite length_new_array. unfold inside in Hin. nia. }
  destruct (scan_pixels (extract_pixel sourceData color)
              (extract_write sourceData color)
              (width sourceData) (height sourceData)
              (new_array (width sourceData * height sourceData * 4))
              extract_pixel_write) as [_ Hget].
  rewrite Hget by (rewrite ?Hlen; done).
  unfold extract_write. destruct (matches_color sourceData color x y) eqn:Hm.
  - unfold matches_color in Hm.
    apply andb_true_iff in Hm as [Hm Hb]. apply andb_true_iff in Hm as [Hm Hg].
    apply andb_true_iff in Hm as [_ Hr].
    apply same_Some in Hr, Hg, Hb. by rewrite Hr, Hg, Hb.
  - apply get_new_array. lia.
Qed.

End Extract.

(** C7. [extractSingleColor] returns a raster of the dimensions of the
    source in which a pixel is the target colour with alpha 255 where
    the source pixel has alpha > 0 and exactly the target (r, g, b), and
    transparent black everywhere else; so every alpha of the result is
    0 or 255. *)
Theorem extractSingleColor_spec (sourceData : ImageData) (color : ColorEntry) :
  let out := extractSingleColor sourceData color in
  width out = width sourceData /\ height out = height sourceData /\
  forall x y,
    inside (width sourceData) (height sourceData) x y ->
    (matches_color sourceData color x y = true ->
       pixel out x y = [Some (r color); Some (g color); Some (b color); Some xff]) /\
    (matches_color sourceData color x y = false ->
       pixel out x y = transparent_black) /\
    (alpha out x y = Some x00 \/ alpha out x y = Some xff).
Proof.
  intros out. split; [done|]. split; [done|].
  intros x y Hin.
  assert (forall k, 0 <= k < 4 ->
            channel out x y k =
            if matches_color sourceData color x y
            then Some (default x00 (component k
                   (Some (r color), Some (g color), Some (b color), Some xff)))
            else Some x00) as Hch
      by (intros k Hk; by apply extract_channel).
  unfold pixel, alpha, transparent_black.
  rewrite !Hch by lia.
  destruct (matches_color sourceData color x y); simpl;
    (split; [|split]); try done; auto.
Qed.

(** ** Copying a buffer *)

Lemma get_fold_sets (g : Z -> option byte) (ixs : list Z) (a : list byte) j :
  (forall i, i ∈ ixs -> 0 <= i) ->
  get (foldl (fun acc i => set acc i (g i)) a ixs) j =
  if decide (j ∈ ixs /\ j < Z.of_nat (length a))
  then Some (default x00 (g j)) else get a j.
Proof.
  revert a. induction ixs as [|i ixs IH]; intros a Hpos.
  - cbn [foldl]. case_decide as Hd; [|done].
    destruct Hd as [Hin _]. by apply elem_of_nil in Hin.
  - cbn [foldl]. rewrite IH by (intros i' Hi'; apply Hpos; by right).
    rewrite length_set.
    assert (0 <= i) as Hi by (apply Hpos; left).
    destruct (decide (j ∈ ixs /\ j < Z.of_nat (length a))) as [[Hin Hlt]|Hno].
    + rewrite decide_True; [done|]. split; [by right|done].
    + destruct (decide (j = i)) as [->|Hne].
      * destruct (decide (i < Z.of_nat (length a))) as [Hlt|Hge].
        -- rewrite get_set_same by lia.
           rewrite decide_True; [done|]. split; [left|done].
        -- rewrite (get_None (set a i (g i))) by (rewrite length_set; lia).
           rewrite decide_False by (intros [_ ?]; lia).
           symmetry. apply get_None. lia.
      * rewrite get_set_other by done.
        rewrite decide_False; [done|].
        intros [Hin Hlt]. apply Hno. split; [|done].
        apply elem_of_cons in Hin as [|]; [done|done].
Qed.

Lemma length_fold_sets (g : Z -> option byte) (ixs : list Z) (a : list byte) :
  length (foldl (fun acc i => set acc i (g i)) a ixs) = length a.
Proof.
  revert a. induction ixs as [|i ixs IH]; intros a; [done|].
  simpl. by rewrite IH, length_set.
Qed.

Lemma length_copy_into (current next : list byte) :
  length (copy_into current next) = length next.
Proof. unfold copy_into, for_loop. apply length_fold_sets. Qed.

(** Copying into a buffer of the same length gives the same cells. *)
Lemma get_copy_into (current next : list byte) j :
  length next = length current ->
  get (copy_into current next) j = get current j.
Proof.
  intros Hlen. unfold copy_into, for_loop.
  rewrite get_fold_sets by (intros i Hi%elem_of_seqZ; lia).
  case_decide as Hno.
  - destruct Hno as [Hin Hlt]. apply elem_of_seqZ in Hin.
    destruct (get_in_range current j) as [b Hb]; [lia|]. by rewrite Hb.
  - destruct (decide (0 <= j < Z.of_nat (length current))) as [Hr|Hr].
    + exfalso. apply Hno. split; [apply elem_of_seqZ; lia|lia].
    + unfold get. destruct (j <? 0) eqn:Hneg; [done|].
      rewrite !(proj2 (lookup_ge_None _ _)); [done|lia|lia].
Qed.

(** ** Reading a well-formed raster *)

Lemma channel_defined (img : ImageData) x y k :
  well_formed img -> inside (width img) (height img) x y -> 0 <= k < 4 ->
  exists b, channel img x y k = Some b.
Proof.
  intros (Hw & Hh & Hlen) Hin Hk. unfold channel.
  apply get_in_range.
  pose proof (pixel_index_bounds _ _ x y k Hin Hk). lia.
Qed.

Lemma component_quad_at (a : list byte) idx k :
  0 <= k < 4 -> component k (quad_at a idx) = get a (idx + k).
Proof.
  intros Hk. unfold component, quad_at.
  assert (k = 0 \/ k = 1 \/ k = 2 \/ k = 3) as [-> | [-> | [-> | ->]]] by lia;
    simpl; by rewrite ?Z.add_0_r.
Qed.

Lemma in_bounds_inside w h x y : in_bounds w h x y = true <-> inside w h x y.
Proof.
  unfold in_bounds, inside. rewrite !andb_true_iff.
  rewrite !Z.leb_le, !Z.ltb_lt. lia.
Qed.

(** On a well-formed raster, "alpha is 0" is the negation of "alpha is
    greater than 0". *)
Lemma transparent_negb_opaque (img : ImageData) x y :
  well_formed img -> inside (width img) (height img) x y ->
  transparent img x y = negb (opaque img x y).
Proof.
  intros Hwf Hin. unfold transparent, opaque, alpha.
  destruct (channel_defined img x y 3 Hwf Hin) as [b Hb]; [lia|].
  by apply is0_negb_gt0 with b.
Qed.

(** ** One pass of the dilation *)

Section DilatePass.
Variable mask : option ImageData.
Variable current : ImageData.
Hypothesis Hwf : well_formed current.

Lemma dilate_from_neighbors_write x y ns next :
  dilate_from_neighbors (width current) (height current) (data current)
    x y (pixel_index (width current) x y) ns next =
  match first_offset (width current) (height current) (data current) x y ns with
  | Some d =>
      write4 next (pixel_index (width current) x y)
        (quad_at (data current)
           (pixel_index (width current) (x + d.1) (y + d.2)))
  | None => next
  end.
Proof.
  induction ns as [|[dx dy] ns IH]; [done|].
  unfold first_offset in *. simpl.
  destruct (in_bounds _ _ (x + dx) (y + dy)); simpl; [|apply IH].
  destruct (gt0 _); [done|apply IH].
Qed.

Lemma dilate_pixel_write y x acc :
  dilate_pixel (width current) (height current) (data current) mask y x acc =
  apply_write (width current)
    (dilate_write (width current) (height current) (data current) mask)
    y x acc.
Proof.
  unfold dilate_pixel, apply_write, dilate_write.
  destruct (gt0 _); [done|]. destruct (mask_forbids _ _); [done|].
  rewrite dilate_from_neighbors_write. by destruct (first_offset _ _ _ _ _ _).
Qed.

Lemma dilate_pass_dims :
  width (dilate_pass mask current) = width current /\
  height (dilate_pass mask current) = height current.
Proof. done. Qed.

Lemma dilate_pass_length :
  length (data (dilate_pass mask current)) = length (data current).
Proof.
  destruct Hwf as (Hw & Hh & Hlen).
  unfold dilate_pass. simpl.
  destruct (scan_pixels _ _ (width current) (height current)
              (copy_into (data current)
                 (new_array (width current * height current * 4)))
              dilate_pixel_write) as [Hl _].
  rewrite Hl, length_copy_into.
  apply Nat2Z.inj. rewrite length_new_array. nia.
Qed.

Lemma dilate_pass_well_formed : well_formed (dilate_pass mask current).
Proof.
  pose proof dilate_pass_length as Hl.
  destruct Hwf as (Hw & Hh & Hlen).
  unfold well_formed. rewrite Hl. done.
Qed.

Lemma dilate_pass_channel x y k :
  inside (width current) (height current) x y -> 0 <= k < 4 ->
  channel (dilate_pass mask current) x y k =
  match dilate_write (width current) (height current) (data current) mask y x with
  | Some q => Some (default x00 (component k q))
  | None => channel current x y k
  end.
Proof.
  intros Hin Hk. destruct Hwf as (Hw & Hh & Hlen).
  unfold channel at 1. unfold dilate_pass. simpl.
  pose proof (pixel_index_bounds _ _ x y k Hin Hk) as [Hlo Hhi].
  assert (length (new_array (width current * height current * 4))
          = length (data current)) as Hnew.
  { apply Nat2Z.inj. rewrite length_new_array. nia. }
  destruct (scan_pixels _ _ (width current) (height current)
              (copy_into (data current)
                 (new_array (width current * height current * 4)))
              dilate_pixel_write) as [_ Hget].
  rewrite Hget; [|done|done|rewrite length_copy_into, Hnew; lia].
  destruct (dilate_write _ _ _ _ _ _); [done|].
  by apply get_copy_into.
Qed.

(** The offset found by the loop is the first opaque neighbour in the
    order up, right, down, left. *)
Lemma first_offset_neighbour x y :
  first_opaque_neighbour current x y =
  (fun d => (x + d.1, y + d.2)) <$>
    first_offset (width current) (height current) (data current) x y neighbors.
Proof.
  unfold first_opaque_neighbour, first_offset, neighbours4, neighbors,
    opaque, alpha, channel.
  simpl.
  replace (x + 0) with x by lia. replace (y + 0) with y by lia.
  replace (y + -1) with (y - 1) by lia. replace (x + -1) with (x - 1) by lia.
  repeat (destruct (_ && _); [simpl; do 2 f_equal; lia|]). done.
Qed.

Lemma dilate_pass_pixel x y :
  inside (width current) (height current) x y ->
  pixel (dilate_pass mask current) x y =
  if opaque current x y then pixel current x y
  else if mask_forbids mask (pixel_index (width current) x y + 3)
       then pixel current x y
       else match first_opaque_neighbour current x y with
            | Some p => pixel current p.1 p.2
            | None => pixel current x y
            end.
Proof.
  intros Hin. unfold pixel.
  rewrite !dilate_pass_channel by (done || lia).
  rewrite first_offset_neighbour.
  unfold dilate_write, opaque, alpha, channel.
  destruct (gt0 (get (data current) _)); [done|].
  destruct (mask_forbids _ _); [done|].
  destruct (first_offset _ _ _ _ _ _) as [d|] eqn:Hd; [|done].
  cbn -[component quad_at pixel_index get]. rewrite !component_quad_at by lia.
  apply find_some in Hd as [_ Hd]. apply andb_true_iff in Hd as [Hb _].
  apply in_bounds_inside in Hb.
  destruct (channel_defined current _ _ 0 Hwf Hb) as [b0 H0]; [lia|].
  destruct (channel_defined current _ _ 1 Hwf Hb) as [b1 H1]; [lia|].
  destruct (channel_defined current _ _ 2 Hwf Hb) as [b2 H2]; [lia|].
  destruct (channel_defined current _ _ 3 Hwf Hb) as [b3 H3]; [lia|].
  unfold channel in *. by rewrite H0, H1, H2, H3.
Qed.

End DilatePass.

(** For a mask of the size of the raster the test of the code is the
    negation of "the mask permits". *)
Lemma mask_forbids_permits (mask : option ImageData) (img : ImageData) x y :
  same_size mask img -> inside (width img) (height img) x y ->
  (mask_forbids mask (pixel_index (width img) x y + 3) = false
   <-> mask_permits mask x y).
Proof.
  unfold same_size, mask_forbids, mask_permits.
  destruct mask as [m|]; [|done].
  intros (Hwf & Hw & Hh) Hin. rewrite <- Hw, <- Hh in Hin. rewrite <- Hw.
  pose proof (transparent_negb_opaque m x y Hwf Hin) as Ht.
  unfold transparent, opaque, alpha, channel in *.
  rewrite Ht. by rewrite negb_false_iff.
Qed.

Lemma pixel_eq_opaque (img img' : ImageData) x y x' y' :
  pixel img x y = pixel img' x' y' -> opaque img x y = opaque img' x' y'.
Proof. unfold pixel, opaque, alpha. by intros [= _ _ _ ->]. Qed.

(** A positive radius runs that many passes on (a copy of) the source. *)
Lemma applyDilationWithMask_passes (sourceData : ImageData) (radiusPixels : Z)
    (mask : option ImageData) :
  0 < radiusPixels ->
  applyDilationWithMask sourceData radiusPixels mask =
  Nat.iter (Z.to_nat radiusPixels) (dilate_pass mask) sourceData.
Proof.
  intros Hr. unfold applyDilationWithMask.
  destruct (radiusPixels <=? 0) eqn:E; [lia|]. by destruct sourceData.
Qed.

Lemma dilate_passes_invariant (mask : option ImageData) (img : ImageData) n :
  well_formed img ->
  let out := Nat.iter n (dilate_pass mask) img in
  well_formed out /\ width out = width img /\ height out = height img.
Proof.
  intros Hwf. induction n as [|n (IHwf & IHw & IHh)]; [done|].
  simpl. split; [by apply dilate_pass_well_formed|]. done.
Qed.

(** C3. One pass of the dilation reads only the raster [current] it
    starts from and builds a new raster [next] of the same size: a pixel
    that is opaque in [current] is carried over unchanged; a transparent
    pixel that the mask permits takes the four channels of the first
    neighbour (up, right, down, left) that is opaque in [current]; a
    transparent pixel without such a neighbour, or one that the mask
    forbids, stays as it is, transparent.  [applyDilationWithMask] with a
    positive radius is that many such passes. *)
Theorem dilate_pass_spec (mask : option ImageData) (current : ImageData) :
  well_formed current -> same_size mask current ->
  let next := dilate_pass mask current in
  (well_formed next /\ width next = width current
   /\ height next = height current) /\
  (forall x y,
     inside (width current) (height current) x y ->
     (opaque current x y = true -> pixel next x y = pixel current x y) /\
     (opaque current x y = false -> mask_permits mask x y ->
        forall p, first_opaque_neighbour current x y = Some p ->
          pixel next x y = pixel current p.1 p.2) /\
     (opaque current x y = false ->
        first_opaque_neighbour current x y = None ->
        pixel next x y = pixel current x y /\ opaque next x y = false) /\
     (opaque current x y = false -> ~ mask_permits mask x y ->
        pixel next x y = pixel current x y /\ opaque next x y = false)) /\
  (forall radiusPixels,
     0 < radiusPixels ->
     applyDilationWithMask current radiusPixels mask =
     Nat.iter (Z.to_nat radiusPixels) (dilate_pass mask) current).
Proof.
  intros Hwf Hsize next. split; [|split].
  - split; [by apply dilate_pass_well_formed|done].
  - intros x y Hin.
    pose proof (dilate_pass_pixel mask current Hwf x y Hin) as Hpx.
    pose proof (mask_forbids_permits mask current x y Hsize Hin) as Hmask.
    fold next in Hpx.
    split; [|split; [|split]].
    + intros Hop. by rewrite Hop in Hpx.
    + intros Hop Hperm p Hp. rewrite Hop in Hpx.
      apply Hmask in Hperm. by rewrite Hperm, Hp in Hpx.
    + intros Hop Hnone. rewrite Hop, Hnone in Hpx.
      assert (pixel next x y = pixel current x y) as Heq
          by (by destruct (mask_forbids _ _)).
      split; [done|]. by rewrite (pixel_eq_opaque _ _ _ _ _ _ Heq).
    + intros Hop Hperm. rewrite Hop in Hpx.
      destruct (mask_forbids _ _) eqn:Hf.
      * split; [done|]. by rewrite (pixel_eq_opaque _ _ _ _ _ _ Hpx).
      * exfalso. apply Hperm. by apply Hmask.
  - intros radiusPixels Hr. by apply applyDilationWithMask_passes.
Qed.

(** ** Reach of the dilation *)

Lemma within_steps_more w h n p q :
  within_steps w h n p q -> within_steps w h (S n) p q.
Proof.
  induction 1 as [n p Hin|n p q q' _ IH Hadj Hin].
  - by apply steps_here.
  - by apply steps_more with q.
Qed.

(** Steps are unit moves: [n] steps cover a distance of at most [n]. *)
Lemma within_steps_distance w h n p q :
  within_steps w h n p q ->
  Z.abs (p.1 - q.1) + Z.abs (p.2 - q.2) <= Z.of_nat n.
Proof.
  induction 1 as [n p Hin|n p q q' _ IH Hadj Hin]; [lia|].
  unfold adjacent4 in Hadj. lia.
Qed.

Lemma neighbours4_adjacent x y p :
  In p (neighbours4 x y) -> adjacent4 p (x, y).
Proof.
  unfold neighbours4, adjacent4. simpl.
  intros [<- | [<- | [<- | [<- | []]]]]; simpl; lia.
Qed.

(** A pixel that a pass turns opaque is permitted by the mask and has
    a neighbour that was opaque before the pass. *)
Lemma dilate_pass_grows (mask : option ImageData) (current : ImageData) x y :
  well_formed current -> same_size mask current ->
  inside (width current) (height current) x y ->
  opaque (dilate_pass mask current) x y = true ->
  opaque current x y = true \/
  (mask_permits mask x y /\
   exists p, adjacent4 p (x, y)
             /\ inside (width current) (height current) p.1 p.2
             /\ opaque current p.1 p.2 = true).
Proof.
  intros Hwf Hsize Hin Hout.
  pose proof (dilate_pass_pixel mask current Hwf x y Hin) as Hpx.
  pose proof (mask_forbids_permits mask current x y Hsize Hin) as Hmask.
  destruct (opaque current x y) eqn:Hop; [by left|right].
  destruct (mask_forbids _ _) eqn:Hf.
  { apply pixel_eq_opaque in Hpx. congruence. }
  split; [by apply Hmask|].
  destruct (first_opaque_neighbour current x y) as [p|] eqn:Hp.
  - unfold first_opaque_neighbour in Hp. apply find_some in Hp as [Hp Hb].
    apply andb_true_iff in Hb as [Hb Ho]. apply in_bounds_inside in Hb.
    exists p. split; [by apply neighbours4_adjacent|done].
  - apply pixel_eq_opaque in Hpx. congruence.
Qed.

(** C1. Where the result of the dilation is opaque, an opaque pixel of
    the input lies within [radius] 4-connected steps; and a pixel that
    was not opaque in the input is opaque in the result only where the
    mask is absent or opaque. *)
Theorem applyDilationWithMask_reach (sourceData : ImageData)
    (radiusPixels : Z) (mask : option ImageData) :
  well_formed sourceData -> same_size mask sourceData -> 0 <= radiusPixels ->
  let out := applyDilationWithMask sourceData radiusPixels mask in
  forall x y,
    inside (width sourceData) (height sourceData) x y ->
    opaque out x y = true ->
    (exists p, opaque sourceData p.1 p.2 = true
               /\ within_steps (width sourceData) (height sourceData)
                    (Z.to_nat radiusPixels) p (x, y)) /\
    (opaque sourceData x y = false -> mask_permits mask x y).
Proof.
  intros Hwf Hsize Hr out.
  assert (out = Nat.iter (Z.to_nat radiusPixels) (dilate_pass mask) sourceData)
    as ->.
  { unfold out. destruct (decide (radiusPixels = 0)) as [->|Hne]; [done|].
    apply applyDilationWithMask_passes. lia. }
  clear Hr. generalize (Z.to_nat radiusPixels) as n.
  induction n as [|n IH]; intros x y Hin Hout.
  - simpl in *. split; [|congruence].
    exists (x, y). split; [done|]. by apply steps_here.
  - destruct (dilate_passes_invariant mask sourceData n Hwf)
      as (Hwfn & Hwn & Hhn).
    simpl in Hout.
    assert (same_size mask (Nat.iter n (dilate_pass mask) sourceData)) as Hsn.
    { unfold same_size in *. destruct mask; [|done]. by rewrite Hwn, Hhn. }
    destruct (dilate_pass_grows mask _ x y Hwfn Hsn)
      as [Hold|(Hperm & p & Hadj & Hp & Hop)];
      [by rewrite Hwn, Hhn|done| |].
    + destruct (IH x y Hin Hold) as [(p & Hp & Hsteps) Hm].
      split; [|done]. exists p. split; [done|]. by apply within_steps_more.
    + rewrite Hwn, Hhn in Hp. destruct p as [px py].
      destruct (IH px py Hp Hop) as [(q & Hq & Hsteps) _].
      split; [|done]. exists q. split; [done|].
      by apply steps_more with (px, py).
Qed.

(** ** The mask of the darker layers *)

Section DarkerMask.
Variables w h : Z.
Hypothesis Hw : 0 <= w.
Hypothesis Hh : 0 <= h.

Lemma mask_pixel_write (darkerPixels : ImageData) y x acc :
  mask_pixel w darkerPixels y x acc =
  apply_write w (mask_write w darkerPixels) y x acc.
Proof.
  unfold mask_pixel, apply_write, mask_write. by destruct (gt0 _).
Qed.

Lemma length_mask_add_layer (a : list byte) (l : ColorLayer) :
  length (mask_add_layer w h a l) = length a.
Proof.
  unfold mask_add_layer.
  by destruct (scan_pixels _ _ w h a (mask_pixel_write (pixelData l))).
Qed.

Lemma length_mask_fold (a : list byte) (ls : list ColorLayer) :
  length (foldl (mask_add_layer w h) a ls) = length a.
Proof.
  revert a. induction ls as [|l ls IH]; intros a; [done|].
  simpl. by rewrite IH, length_mask_add_layer.
Qed.

(** After the loop over the layers [ls], a cell of the mask is 255
    when one of them is opaque at its pixel, and untouched otherwise. *)
Lemma get_mask_fold (a : list byte) (ls : list ColorLayer) x y k :
  Z.of_nat (length a) = w * h * 4 ->
  inside w h x y -> 0 <= k < 4 ->
  get (foldl (mask_add_layer w h) a ls) (pixel_index w x y + k) =
  if existsb (fun l => gt0 (get (data (pixelData l)) (pixel_index w x y + 3))) ls
  then Some xff
  else get a (pixel_index w x y + k).
Proof.
  intros Hlen Hin Hk. revert a Hlen.
  induction ls as [|l ls IH]; intros a Hlen; [done|].
  pose proof (pixel_index_bounds _ _ x y k Hin Hk) as [Hlo Hhi].
  simpl. rewrite IH by (by rewrite length_mask_add_layer).
  destruct (existsb _ ls); [by rewrite orb_true_r|].
  rewrite orb_false_r. unfold mask_add_layer.
  destruct (scan_pixels _ _ w h a (mask_pixel_write (pixelData l)))
    as [_ Hget].
  rewrite Hget by (done || lia).
  unfold mask_write. destruct (gt0 _); [|done].
  unfold component.
  assert (k = 0 \/ k = 1 \/ k = 2 \/ k = 3) as [-> | [-> | [-> | ->]]] by lia;
    done.
Qed.

End DarkerMask.

Lemma createDarkerColorMask_channel (document : Document) (currentIndex : nat)
    (colorLayers : list ColorLayer) x y k :
  inside (doc_width document) (doc_height document) x y -> 0 <= k < 4 ->
  channel (createDarkerColorMaskFromLayers document currentIndex colorLayers)
    x y k =
  if existsb
       (fun l => gt0 (get (data (pixelData l))
                        (pixel_index (doc_width document) x y + 3)))
       (drop (S currentIndex) colorLayers)
  then Some xff else Some x00.
Proof.
  intros Hin Hk. unfold channel, createDarkerColorMaskFromLayers. simpl.
  assert (0 <= doc_width document /\ 0 <= doc_height document) as [Hw Hh]
      by (unfold inside in Hin; lia).
  pose proof (pixel_index_bounds _ _ x y k Hin Hk) as [Hlo Hhi].
  rewrite (get_mask_fold _ (doc_height document)) by
    (done || rewrite length_new_array; nia).
  destruct (existsb _ _); [done|].
  apply get_new_array. lia.
Qed.

Lemma createDarkerColorMask_well_formed (document : Document)
    (currentIndex : nat) (colorLayers : list ColorLayer) :
  0 <= doc_width document -> 0 <= doc_height document ->
  well_formed (createDarkerColorMaskFromLayers document currentIndex colorLayers).
Proof.
  intros Hw Hh. unfold well_formed, createDarkerColorMaskFromLayers. simpl.
  split; [done|]. split; [done|].
  rewrite length_mask_fold, length_new_array. nia.
Qed.

Lemma extractSingleColor_well_formed (sourceData : ImageData) (color : ColorEntry) :
  0 <= width sourceData -> 0 <= height sourceData ->
  well_formed (extractSingleColor sourceData color).
Proof.
  intros Hw Hh. unfold well_formed, extractSingleColor. simpl.
  split; [done|]. split; [done|].
  destruct (scan_pixels _ _ (width sourceData) (height sourceData)
              (new_array (width sourceData * height sourceData * 4))
              (extract_pixel_write sourceData color)) as [Hl _].
  rewrite Hl, length_new_array. nia.
Qed.

(** Under a mask that is transparent everywhere no pass changes a
    pixel. *)
Lemma dilate_under_empty_mask (mask sourceData : ImageData) (radiusPixels : Z) :
  well_formed sourceData -> same_size (Some mask) sourceData ->
  (forall x y, inside (width sourceData) (height sourceData) x y ->
               opaque mask x y = false) ->
  forall x y,
    inside (width sourceData) (height sourceData) x y ->
    pixel (applyDilationWithMask sourceData radiusPixels (Some mask)) x y =
    pixel sourceData x y.
Proof.
  intros Hwf Hsize Hempty x y Hin.
  unfold applyDilationWithMask.
  destruct (radiusPixels <=? 0); [done|].
  replace (createImageData (width sourceData) (height sourceData)
             (Some (data sourceData))) with sourceData by (by destruct sourceData).
  generalize (Z.to_nat radiusPixels) as n. induction n as [|n IH]; [done|].
  destruct (dilate_passes_invariant (Some mask) sourceData n Hwf)
    as (Hwfn & Hwn & Hhn).
  simpl. rewrite dilate_pass_pixel by (done || by rewrite Hwn, Hhn).
  destruct (opaque _ x y); [done|].
  assert (mask_forbids (Some mask)
            (pixel_index (width (Nat.iter n (dilate_pass (Some mask)) sourceData))
               x y + 3) = true) as ->; [|done].
  rewrite Hwn.
  destruct (mask_forbids (Some mask) _) eqn:Hf; [done|].
  apply (mask_forbids_permits (Some mask) sourceData x y Hsize Hin) in Hf.
  simpl in Hf. rewrite Hempty in Hf; done.
Qed.

Lemma existsb_drop_lookup {A : Type} (f : A -> bool) (l : list A) (i : nat) :
  existsb f (drop (S i) l) = true <->
  exists j a, (i < j)%nat /\ l !! j = Some a /\ f a = true.
Proof.
  rewrite existsb_exists. split.
  - intros (a & Hin & Hf). apply list_elem_of_In, list_elem_of_lookup in Hin.
    destruct Hin as [n Hn]. rewrite lookup_drop in Hn.
    exists (S i + n)%nat, a. split; [lia|done].
  - intros (j & a & Hj & Hl & Hf). exists a. split; [|done].
    apply list_elem_of_In, list_elem_of_lookup. exists (j - S i)%nat.
    rewrite lookup_drop. by replace (S i + (j - S i))%nat with j by lia.
Qed.

Lemma lookup_separateColors (flattenedData : ImageData)
    (sortedColors : list ColorEntry) (j : nat) (cl : ColorLayer) :
  separateColors flattenedData sortedColors !! j = Some cl ->
  exists c, sortedColors !! j = Some c
            /\ color cl = c
            /\ pixelData cl = extractSingleColor flattenedData c.
Proof.
  unfold separateColors. intros H.
  change (map ?f ?l) with (f <$> l) in H.
  rewrite list_lookup_fmap in H.
  destruct (sortedColors !! j) as [c|]; [|done].
  simpl in H. injection H as <-. by exists c.
Qed.

(** C2. The mask built for layer [currentIndex] is opaque exactly where
    a layer of larger index is opaque in the raster stored for it in
    [colorLayers]; these rasters are the ones extracted from the
    flattened image, and the trapping loop hands the same [colorLayers]
    to every layer, whatever was written for the others.  For the last
    (darkest) layer the mask is transparent everywhere, and the raster
    written for it equals its extracted raster at every pixel. *)
Theorem createDarkerColorMaskFromLayers_spec (document : Document)
    (colorLayers : list ColorLayer) (currentIndex : nat) :
  Forall (fun cl => width (pixelData cl) = doc_width document
                    /\ height (pixelData cl) = doc_height document
                    /\ well_formed (pixelData cl)) colorLayers ->
  let mask := createDarkerColorMaskFromLayers document currentIndex colorLayers in
  (forall x y,
     inside (doc_width document) (doc_height document) x y ->
     (opaque mask x y = true <->
      exists j cl, (currentIndex < j)%nat /\ colorLayers !! j = Some cl
                   /\ opaque (pixelData cl) x y = true) /\
     (alpha mask x y = Some xff \/ alpha mask x y = Some x00)) /\
  (forall flattenedData sortedColors j cl,
     colorLayers = separateColors flattenedData sortedColors ->
     colorLayers !! j = Some cl ->
     exists c, sortedColors !! j = Some c
               /\ pixelData cl = extractSingleColor flattenedData c) /\
  (forall trapSizes resolution t raster,
     trapLayers document trapSizes resolution colorLayers !! currentIndex
       = Some (Some (t, raster)) ->
     gt t pos_zero = true ->
     exists radius cl,
       colorLayers !! currentIndex = Some cl /\ to_Z t = Some radius /\
       raster = applyDilationWithMask (pixelData cl) radius (Some mask)) /\
  (S currentIndex = length colorLayers ->
     (forall x y,
        inside (doc_width document) (doc_height document) x y ->
        opaque mask x y = false) /\
     (forall cl radius,
        colorLayers !! currentIndex = Some cl ->
        exists out,
          applyTrappingToLayer document radius currentIndex colorLayers
            = Some out /\
          forall x y,
            inside (doc_width document) (doc_height document) x y ->
            pixel out x y = pixel (pixelData cl) x y)).
Proof.
  intros Hdims mask.
  assert (forall x y,
            inside (doc_width document) (doc_height document) x y ->
            opaque mask x y = true <->
            exists j cl, (currentIndex < j)%nat /\ colorLayers !! j = Some cl
                         /\ opaque (pixelData cl) x y = true) as Hmask.
  { intros x y Hin. unfold opaque at 1. unfold alpha, mask.
    rewrite createDarkerColorMask_channel by (done || lia).
    destruct (existsb _ _) eqn:Hex.
    - split; [intros _|done].
      apply existsb_drop_lookup in Hex as (j & cl & Hj & Hl & Hop).
      exists j, cl. split; [done|]. split; [done|].
      rewrite Forall_lookup in Hdims. destruct (Hdims j cl Hl) as (Hw & _).
      unfold opaque, alpha, channel. by rewrite Hw.
    - split; [done|]. intros (j & cl & Hj & Hl & Hop).
      assert (existsb
                (fun l => gt0 (get (data (pixelData l))
                                 (pixel_index (doc_width document) x y + 3)))
                (drop (S currentIndex) colorLayers) = true) as Hex';
        [|congruence].
      apply existsb_drop_lookup. exists j, cl. split; [done|]. split; [done|].
      rewrite Forall_lookup in Hdims. destruct (Hdims j cl Hl) as (Hw & _).
      unfold opaque, alpha, channel in Hop. by rewrite Hw in Hop. }
  assert (S currentIndex = length colorLayers ->
          forall x y,
            inside (doc_width document) (doc_height document) x y ->
            opaque mask x y = false) as Hlast.
  { intros Hlen x y Hin. destruct (opaque mask x y) eqn:Hop; [|done].
    apply Hmask in Hop as (j & cl & Hj & Hl & _); [|done].
    apply lookup_lt_Some in Hl. lia. }
  split; [|split; [|split; [|split]]].
  - intros x y Hin. split; [by apply Hmask|].
    unfold alpha, mask. rewrite createDarkerColorMask_channel by (done || lia).
    destruct (existsb _ _); auto.
  - intros flattenedData sortedColors j cl -> Hl.
    apply lookup_separateColors in Hl as (c & Hc & _ & Hpx). by exists c.
  - intros trapSizes resolution t raster Hl Hpos.
    unfold trapLayers in Hl.
    change (map ?f ?l) with (f <$> l) in Hl.
    rewrite list_lookup_fmap in Hl.
    destruct (seq 0 (length colorLayers) !! currentIndex) as [i|] eqn:Hi;
      [|done].
    apply lookup_seq in Hi as [-> Hlt]. simpl in Hl. injection Hl as Hl.
    unfold trapLayer in Hl.
    destruct (gt (inchesToPixels _ _) pos_zero) eqn:Hgt.
    + destruct (to_Z _) as [radius|] eqn:Hr; [|done].
      unfold applyTrappingToLayer in Hl.
      destruct (colorLayers !! currentIndex) as [cl|] eqn:Hcl; [|done].
      injection Hl as <- <-. by exists radius, cl.
    + destruct (colorLayers !! currentIndex) as [cl|]; [|done].
      injection Hl as <- <-. congruence.
  - by apply Hlast.
  - intros cl radius Hcl. unfold applyTrappingToLayer. rewrite Hcl.
    eexists. split; [done|].
    rewrite Forall_lookup in Hdims.
    destruct (Hdims currentIndex cl Hcl) as (Hw & Hh & Hwf).
    intros x y Hin. fold mask.
    apply dilate_under_empty_mask; [done| | |by rewrite Hw, Hh].
    + simpl. split; [|done].
      apply createDarkerColorMask_well_formed; unfold inside in Hin; lia.
    + rewrite Hw, Hh. by apply Hlast.
Qed.

(** ** Erosion *)

Section ErodePass.
Variable current : ImageData.
Hypothesis Hwf : well_formed current.

Lemma erode_pixel_write y x acc :
  erode_pixel (width current) (height current) (data current) y x acc =
  apply_write (width current)
    (erode_write (width current) (height current) (data current)) y x acc.
Proof.
  unfold erode_pixel, apply_write, erode_write.
  destruct (is0 _); [done|]. by destruct (erode_keep _ _ _ _ _ _).
Qed.

(** One neighbour test of the erosion loop. *)
Lemma erode_keep_step nx ny (rest : bool) :
  (if (nx <? 0) || (nx >=? width current) || (ny <? 0) || (ny >=? height current)
   then false
   else if is0 (get (data current) (pixel_index (width current) nx ny + 3))
        then false else rest) =
  in_bounds (width current) (height current) nx ny && opaque current nx ny
  && rest.
Proof.
  destruct (in_bounds (width current) (height current) nx ny) eqn:Hb.
  - pose proof Hb as Hin. apply in_bounds_inside in Hin.
    pose proof (transparent_negb_opaque current nx ny Hwf Hin) as Ht.
    unfold transparent, alpha, channel in Ht. rewrite Ht.
    unfold inside in Hin.
    replace ((nx <? 0) || (nx >=? width current) || (ny <? 0)
             || (ny >=? height current)) with false.
    + simpl. by destruct (opaque current nx ny).
    + symmetry. rewrite !orb_false_iff, !Z.ltb_ge, !Z.geb_leb, !Z.leb_gt. lia.
  - replace ((nx <? 0) || (nx >=? width current) || (ny <? 0)
             || (ny >=? height current)) with true; [done|].
    symmetry. unfold in_bounds in Hb.
    rewrite !andb_false_iff, !Z.leb_gt, !Z.ltb_ge in Hb.
    rewrite !orb_true_iff, !Z.ltb_lt, !Z.geb_leb, !Z.leb_le. lia.
Qed.

Lemma erode_keep_surrounded x y :
  erode_keep (width current) (height current) (data current) x y neighbors =
  surrounded current x y.
Proof.
  unfold neighbors, surrounded, neighbours4. cbn [erode_keep forallb fst snd].
  rewrite !erode_keep_step.
  replace (x + 0) with x by lia. replace (y + 0) with y by lia.
  replace (y + -1) with (y - 1) by lia. replace (x + -1) with (x - 1) by lia.
  by rewrite !andb_assoc.
Qed.

Lemma erode_pass_length :
  Z.of_nat (length (data (erode_pass current))) =
  width current * height current * 4.
Proof.
  destruct Hwf as (Hw & Hh & Hlen). unfold erode_pass. simpl.
  destruct (scan_pixels _ _ (width current) (height current)
              (new_array (width current * height current * 4))
              erode_pixel_write) as [Hl _].
  rewrite Hl, length_new_array. nia.
Qed.

Lemma erode_pass_well_formed : well_formed (erode_pass current).
Proof.
  pose proof erode_pass_length. destruct Hwf as (Hw & Hh & Hlen). done.
Qed.

Lemma erode_pass_pixel x y :
  inside (width current) (height current) x y ->
  pixel (erode_pass current) x y =
  if opaque current x y && surrounded current x y
  then pixel current x y else transparent_black.
Proof.
  intros Hin. destruct Hwf as (Hw & Hh & Hlen).
  assert (forall k, 0 <= k < 4 ->
            channel (erode_pass current) x y k =
            if opaque current x y && surrounded current x y
            then channel current x y k else Some x00) as Hch.
  { intros k Hk. unfold channel at 1. unfold erode_pass. simpl.
    pose proof (pixel_index_bounds _ _ x y k Hin Hk) as [Hlo Hhi].
    destruct (scan_pixels _ _ (width current) (height current)
                (new_array (width current * height current * 4))
                erode_pixel_write) as [_ Hget].
    rewrite Hget by (done || rewrite length_new_array; nia).
    unfold erode_write. rewrite erode_keep_surrounded.
    pose proof (transparent_negb_opaque current x y Hwf Hin) as Ht.
    unfold transparent, alpha, channel in Ht. rewrite Ht.
    destruct (opaque current x y); simpl; [|apply get_new_array; lia].
    destruct (surrounded current x y); [|apply get_new_array; lia].
    rewrite component_quad_at by done.
    destruct (channel_defined current x y k Hwf Hin Hk) as [c Hc].
    unfold channel in *. by rewrite Hc. }
  unfold pixel, transparent_black. rewrite !Hch by lia.
  by destruct (opaque current x y && surrounded current x y).
Qed.

Lemma on_edge_not_surrounded x y :
  on_edge (width current) (height current) x y ->
  surrounded current x y = false.
Proof.
  unfold on_edge, surrounded, neighbours4. intros Hedge.
  cbn [forallb fst snd]. rewrite !andb_false_iff.
  unfold in_bounds. rewrite !andb_false_iff, !Z.leb_gt, !Z.ltb_ge. lia.
Qed.

End ErodePass.

Lemma applyErosion_passes (sourceData : ImageData) (radiusPixels : Z) :
  1 <= radiusPixels ->
  applyErosion sourceData radiusPixels =
  Nat.iter (Z.to_nat radiusPixels) erode_pass sourceData.
Proof.
  intros Hr. unfold applyErosion.
  destruct (radiusPixels <=? 0) eqn:E; [lia|]. by destruct sourceData.
Qed.

Lemma opaque_transparent_black (img : ImageData) x y :
  pixel img x y = transparent_black -> opaque img x y = false.
Proof. unfold pixel, transparent_black, opaque, alpha. by intros [= _ _ _ ->]. Qed.

(** C8. One pass of the erosion keeps a pixel opaque exactly when it is
    opaque before the pass and its four neighbours lie in the raster
    and are opaque before the pass; a kept pixel keeps its four
    channels and every other pixel becomes transparent black, so the
    pixels on the border of the raster are transparent after the pass.
    [applyErosion] with a radius of at least 1 is that many passes, and
    eroding a raster whose opaque pixels are one 3 x 3 block by 1 leaves
    only the centre of the block opaque. *)
Theorem erode_pass_spec (current : ImageData) :
  well_formed current ->
  let next := erode_pass current in
  (well_formed next /\ width next = width current
   /\ height next = height current) /\
  (forall x y,
     inside (width current) (height current) x y ->
     (opaque next x y = true <->
      opaque current x y = true /\ surrounded current x y = true) /\
     (opaque next x y = true -> pixel next x y = pixel current x y) /\
     (opaque next x y = false -> pixel next x y = transparent_black) /\
     (on_edge (width current) (height current) x y -> opaque next x y = false)) /\
  (forall radiusPixels,
     1 <= radiusPixels ->
     applyErosion current radiusPixels =
     Nat.iter (Z.to_nat radiusPixels) erode_pass current) /\
  (forall x0 y0,
     inside (width current) (height current) x0 y0 ->
     inside (width current) (height current) (x0 + 2) (y0 + 2) ->
     (forall x y,
        inside (width current) (height current) x y ->
        (opaque current x y = true <->
         x0 <= x <= x0 + 2 /\ y0 <= y <= y0 + 2)) ->
     forall x y,
       inside (width current) (height current) x y ->
       (opaque (applyErosion current 1) x y = true <->
        x = x0 + 1 /\ y = y0 + 1)).
Proof.
  intros Hwf next.
  assert (forall x y,
            inside (width current) (height current) x y ->
            opaque next x y = true <->
            opaque current x y = true /\ surrounded current x y = true) as Hiff.
  { intros x y Hin.
    pose proof (erode_pass_pixel current Hwf x y Hin) as Hpx. fold next in Hpx.
    destruct (opaque current x y && surrounded current x y) eqn:Hk.
    - apply pixel_eq_opaque in Hpx. rewrite Hpx.
      apply andb_true_iff in Hk as [Ho Hs]. by rewrite Ho.
    - apply opaque_transparent_black in Hpx. rewrite Hpx.
      apply andb_false_iff in Hk. split; [done|]. intros [? ?].
      destruct Hk; congruence. }
  split; [|split; [|split]].
  - split; [by apply erode_pass_well_formed|done].
  - intros x y Hin.
    pose proof (erode_pass_pixel current Hwf x y Hin) as Hpx. fold next in Hpx.
    split; [by apply Hiff|]. split; [|split].
    + intros Hop. apply Hiff in Hop as [Ho Hs]; [|done].
      by rewrite Ho, Hs in Hpx.
    + intros Hop. destruct (opaque current x y && surrounded current x y) eqn:Hk;
        [|done].
      apply andb_true_iff in Hk. apply Hiff in Hk; [congruence|done].
    + intros Hedge. destruct (opaque next x y) eqn:Hop; [|done].
      apply Hiff in Hop as [_ Hs]; [|done].
      by rewrite (on_edge_not_surrounded current x y Hedge) in Hs.
  - intros radiusPixels Hr. by apply applyErosion_passes.
  - intros x0 y0 H0 H2 Hblock x y Hin.
    rewrite applyErosion_passes by lia. simpl. fold next.
    rewrite (Hiff x y Hin), (Hblock x y Hin).
    unfold surrounded, neighbours4. cbn [forallb fst snd].
    rewrite !andb_true_iff, !in_bounds_inside.
    split.
    + intros (Hxy & ([Hu Hou] & [Hr Hor] & [Hd Hod] & [Hl Hol] & _)).
      apply (Hblock _ _ Hu) in Hou. apply (Hblock _ _ Hr) in Hor.
      apply (Hblock _ _ Hd) in Hod. apply (Hblock _ _ Hl) in Hol.
      unfold inside in *. lia.
    + intros (-> & ->).
      assert (forall x y, x0 <= x <= x0 + 2 -> y0 <= y <= y0 + 2 ->
                inside (width current) (height current) x y) as Hblk
          by (unfold inside in *; lia).
      assert (forall x y, x0 <= x <= x0 + 2 -> y0 <= y <= y0 + 2 ->
                inside (width current) (height current) x y
                /\ opaque current x y = true) as Hcell.
      { intros x y Hx Hy. split; [by apply Hblk|].
        apply Hblock; [by apply Hblk|done]. }
      split; [lia|].
      split; [apply Hcell; lia|]. split; [apply Hcell; lia|].
      split; [apply Hcell; lia|]. split; [apply Hcell; lia|done].
Qed.

(** ** Colour analysis *)

Lemma key_eqb_eq (k1 k2 : color_key) : key_eqb k1 k2 = true <-> k1 = k2.
Proof.
  destruct k1 as [[r1 g1] b1], k2 as [[r2 g2] b2]. unfold key_eqb.
  rewrite !andb_true_iff, !byte_eqb_eq. split.
  - by intros [[-> ->] ->].
  - by intros [= -> -> ->].
Qed.

Lemma key_eqb_refl (k : color_key) : key_eqb k k = true.
Proof. by apply key_eqb_eq. Qed.

Lemma key_eqb_neq (k1 k2 : color_key) : key_eqb k1 k2 = false <-> k1 <> k2.
Proof.
  rewrite <- key_eqb_eq. by destruct (key_eqb k1 k2).
Qed.

Lemma key_eqb_sym (k1 k2 : color_key) : key_eqb k1 k2 = key_eqb k2 k1.
Proof.
  destruct (key_eqb k1 k2) eqn:E1, (key_eqb k2 k1) eqn:E2; try done.
  - apply key_eqb_eq in E1. apply key_eqb_neq in E2. congruence.
  - apply key_eqb_eq in E2. apply key_eqb_neq in E1. congruence.
Qed.

Lemma analyze_pixel_upsert (img : ImageData) y x (m : color_map) :
  analyze_pixel img y x m =
  match pixel_key img (y, x) with
  | Some k => upsert m k
  | None => m
  end.
Proof.
  unfold analyze_pixel, pixel_key, channel, upsert, entry_of. simpl.
  rewrite Z.add_0_r.
  destruct (get _ _) as [r0|]; [|done].
  destruct (get _ _) as [g0|]; [|done].
  destruct (get _ _) as [b0|]; [|done].
  destruct (get _ _) as [a0|]; [|done].
  by destruct (Byte.eqb a0 x00).
Qed.

(** The map built by the two loops is the fold of [upsert] over the
    keys of the pixels that are not transparent. *)
Lemma analyzeColors_fold (img : ImageData) :
  for_loop (height img) (fun y =>
    for_loop (width img) (fun x => analyze_pixel img y x)) [] =
  foldl upsert [] (opaque_keys img).
Proof.
  rewrite nested_loops. unfold opaque_keys.
  generalize (scan_order (width img) (height img)) as ps.
  generalize ([] : color_map) as m.
  intros m ps. revert m. induction ps as [|[y x] ps IH]; intros m; [done|].
  simpl. rewrite analyze_pixel_upsert.
  destruct (pixel_key img (y, x)) as [k|]; simpl; apply IH.
Qed.

Section Palette.
Implicit Types k : color_key.
Implicit Types keys : list color_key.

Lemma discovered_snoc keys k :
  discovered (keys ++ [k]) =
  if existsb (key_eqb k) (discovered keys) then discovered keys
  else discovered keys ++ [k].
Proof. unfold discovered. by rewrite foldl_app. Qed.

Lemma occurrences_snoc k k' keys :
  occurrences k (keys ++ [k']) =
  occurrences k keys + (if key_eqb k k' then 1 else 0).
Proof.
  unfold occurrences. rewrite List.filter_app, length_app. simpl.
  destruct (key_eqb k k'); simpl; lia.
Qed.

Lemma existsb_key_elem k (l : list color_key) :
  existsb (key_eqb k) l = true <-> k ∈ l.
Proof.
  rewrite existsb_exists. split.
  - intros (k' & Hin & Heq). apply key_eqb_eq in Heq as ->.
    by apply list_elem_of_In.
  - intros Hin. exists k. split; [by apply list_elem_of_In|apply key_eqb_refl].
Qed.

Lemma elem_of_discovered k keys : k ∈ discovered keys <-> k ∈ keys.
Proof.
  revert k. induction keys as [|k' keys IH] using rev_ind; intros k.
  - done.
  - rewrite discovered_snoc.
    destruct (existsb (key_eqb k') (discovered keys)) eqn:Hex.
    + apply existsb_key_elem, IH in Hex. rewrite IH.
      rewrite elem_of_app, list_elem_of_singleton. split; [auto|].
      intros [?| ->]; done.
    + rewrite !elem_of_app, IH. done.
Qed.

Lemma NoDup_discovered keys : NoDup (discovered keys).
Proof.
  induction keys as [|k' keys IH] using rev_ind.
  - constructor.
  - rewrite discovered_snoc.
    destruct (existsb (key_eqb k') (discovered keys)) eqn:Hex; [done|].
    apply NoDup_app. split; [done|]. split; [|apply NoDup_singleton].
    intros k Hk ->%list_elem_of_singleton.
    apply existsb_key_elem in Hk. congruence.
Qed.

Lemma map_has_fmap (f : color_key -> ColorEntry) (l : list color_key) k :
  map_has ((fun k' => (k', f k')) <$> l) k = existsb (key_eqb k) l.
Proof.
  induction l as [|k' l IH]; [done|].
  rewrite fmap_cons. cbn [map_has existsb].
  by rewrite IH, (key_eqb_sym k' k).
Qed.

(** Incrementing the entry of [k] in a map with distinct keys. *)
Lemma map_increment_fmap (n n' : color_key -> Z) (l : list color_key) k :
  NoDup l ->
  (forall k', k' ∈ l -> n' k' = n k' + (if key_eqb k' k then 1 else 0)) ->
  map_increment ((fun k' => (k', entry_of k' (n k'))) <$> l) k =
  (fun k' => (k', entry_of k' (n' k'))) <$> l.
Proof.
  induction l as [|k1 l IH]; intros Hnd Hn; [done|].
  apply NoDup_cons in Hnd as [Hfresh Hnd].
  rewrite !fmap_cons. cbn [map_increment]. destruct (key_eqb k1 k) eqn:E.
  - apply key_eqb_eq in E as ->. f_equal.
    + rewrite (Hn k) by left. by rewrite key_eqb_refl.
    + apply list_fmap_ext. intros i k' Hk'.
      apply list_elem_of_lookup_2 in Hk'.
      rewrite (Hn k') by (by right).
      assert (key_eqb k' k = false) as ->
          by (apply key_eqb_neq; congruence).
      by rewrite Z.add_0_r.
  - f_equal.
    + rewrite (Hn k1) by left. by rewrite E, Z.add_0_r.
    + apply IH; [done|]. intros k' Hk'. apply Hn. by right.
Qed.

(** The palette after the pixels with keys [keys]. *)
Lemma upsert_fold keys :
  foldl upsert [] keys =
  (fun k => (k, entry_of k (occurrences k keys))) <$> discovered keys.
Proof.
  induction keys as [|k keys IH] using rev_ind; [done|].
  rewrite foldl_app, IH, discovered_snoc. simpl. unfold upsert.
  rewrite (map_has_fmap (fun k' => entry_of k' (occurrences k' keys))).
  destruct (existsb (key_eqb k) (discovered keys)) eqn:Hex.
  - apply map_increment_fmap; [apply NoDup_discovered|].
    intros k' _. apply occurrences_snoc.
  - rewrite fmap_app. simpl. f_equal.
    + apply list_fmap_ext. intros i k' Hk'.
      apply list_elem_of_lookup_2 in Hk'.
      rewrite occurrences_snoc.
      assert (key_eqb k' k = false) as ->.
      { apply key_eqb_neq. intros ->.
        apply existsb_key_elem in Hk'. congruence. }
      by rewrite Z.add_0_r.
    + rewrite occurrences_snoc, key_eqb_refl.
      assert (occurrences k keys = 0) as ->; [|done].
      unfold occurrences.
      assert (List.filter (key_eqb k) keys = []) as ->; [|done].
      destruct (List.filter (key_eqb k) keys) as [|k0 l] eqn:Hf; [done|].
      assert (In k0 (List.filter (key_eqb k) keys)) as Hin
          by (rewrite Hf; left; done).
      apply List.filter_In in Hin as [Hin Heq].
      apply key_eqb_eq in Heq as <-.
      apply list_elem_of_In, elem_of_discovered, existsb_key_elem in Hin.
      congruence.
Qed.


Lemma sum_counts_cons (c : ColorEntry) (l : list ColorEntry) :
  sum_counts (c :: l) = count c + sum_counts l.
Proof. done. Qed.

Lemma sum_counts_app (l1 l2 : list ColorEntry) :
  sum_counts (l1 ++ l2) = sum_counts l1 + sum_counts l2.
Proof.
  induction l1 as [|c l1 IH]; [done|].
  rewrite <- app_comm_cons, !sum_counts_cons, IH. lia.
Qed.

Lemma occurrences_absent k keys :
  existsb (key_eqb k) (discovered keys) = false -> occurrences k keys = 0.
Proof.
  intros Hex. unfold occurrences.
  destruct (List.filter (key_eqb k) keys) as [|k0 l] eqn:Hf; [done|].
  assert (In k0 (List.filter (key_eqb k) keys)) as Hin
      by (rewrite Hf; left; done).
  apply List.filter_In in Hin as [Hin Heq].
  apply key_eqb_eq in Heq as <-.
  apply list_elem_of_In, elem_of_discovered, existsb_key_elem in Hin.
  congruence.
Qed.

Lemma sum_counts_snoc keys k (l : list color_key) :
  NoDup l ->
  sum_counts ((fun k' => entry_of k' (occurrences k' (keys ++ [k]))) <$> l) =
  sum_counts ((fun k' => entry_of k' (occurrences k' keys)) <$> l)
  + (if existsb (key_eqb k) l then 1 else 0).
Proof.
  induction l as [|k1 l IHl]; intros Hnd; [done|].
  apply NoDup_cons in Hnd as [Hfresh Hnd].
  rewrite !fmap_cons, !sum_counts_cons, IHl by done.
  cbn [existsb count entry_of].
  rewrite occurrences_snoc, (key_eqb_sym k k1).
  destruct (key_eqb k1 k) eqn:E; cbn [orb].
  - apply key_eqb_eq in E as ->.
    assert (existsb (key_eqb k) l = false) as ->; [|lia].
    destruct (existsb (key_eqb k) l) eqn:Hex; [|done].
    by apply existsb_key_elem in Hex.
  - lia.
Qed.

(** The counts of the palette add up to the number of keys. *)
Lemma sum_counts_discovered keys :
  sum_counts ((fun k => entry_of k (occurrences k keys)) <$> discovered keys)
  = Z.of_nat (length keys).
Proof.
  induction keys as [|k keys IH] using rev_ind; [done|].
  rewrite discovered_snoc, length_app.
  destruct (existsb (key_eqb k) (discovered keys)) eqn:Hex.
  - rewrite sum_counts_snoc by apply NoDup_discovered.
    rewrite Hex, IH. simpl. lia.
  - rewrite fmap_app, sum_counts_app.
    rewrite sum_counts_snoc by apply NoDup_discovered.
    rewrite Hex, IH. rewrite fmap_cons, sum_counts_cons.
    cbn [count entry_of fmap list_fmap sum_counts foldr].
    rewrite occurrences_snoc, key_eqb_refl, occurrences_absent by done.
    simpl. lia.
Qed.

End Palette.

(** ** Numbers: signs of rounded results *)

Section Rounding.
Variables prec emax : Z.

Lemma shr_1_nonneg mrs : 0 <= shr_m mrs -> 0 <= shr_m (shr_1 mrs).
Proof.
  destruct mrs as [m r0 s0]. simpl.
  destruct m as [|[p|p|]|[p|p|]]; simpl; lia.
Qed.

Lemma iter_shr_1_nonneg n mrs :
  0 <= shr_m mrs -> 0 <= shr_m (SpecFloat.iter_pos shr_1 n mrs).
Proof.
  revert mrs. induction n as [n IH|n IH|]; intros mrs Hm; simpl.
  - apply IH, IH. by apply shr_1_nonneg.
  - by apply IH, IH.
  - by apply shr_1_nonneg.
Qed.

Lemma shr_fexp_nonneg m e l :
  0 <= m -> 0 <= shr_m (shr_fexp prec emax m e l).1.
Proof.
  intros Hm. unfold shr_fexp, shr.
  assert (0 <= shr_m (shr_record_of_loc m l)) as Hrec
      by (by destruct l as [|[]]).
  destruct (fexp prec emax (Zdigits2 m + e) - e); simpl; [done| |done].
  by apply iter_shr_1_nonneg.
Qed.

Lemma round_nearest_even_nonneg m l : 0 <= m -> 0 <= round_nearest_even m l.
Proof.
  intros Hm. unfold round_nearest_even.
  destruct l as [|[]]; [done| |done|lia].
  destruct (Z.even m); lia.
Qed.

(** Rounding a non-negative mantissa gives a number of the requested
    sign bit. *)
Lemma binary_round_aux_sign s m e l :
  0 <= m -> has_sign s (binary_round_aux prec emax s m e l).
Proof.
  intros Hm. unfold binary_round_aux.
  pose proof (shr_fexp_nonneg m e l Hm) as H1.
  destruct (shr_fexp prec emax m e l) as [mrs' e'].
  simpl in H1.
  pose proof (shr_fexp_nonneg
                (round_nearest_even (shr_m mrs') (loc_of_shr_record mrs'))
                e' loc_Exact (round_nearest_even_nonneg _ _ H1)) as H2.
  destruct (shr_fexp prec emax _ e' loc_Exact) as [mrs'' e''].
  simpl in H2.
  destruct (shr_m mrs'') as [|p|p]; simpl; [done| |lia].
  by destruct (e'' <=? emax - prec).
Qed.

Lemma binary_round_sign s m e : has_sign s (binary_round prec emax s m e).
Proof.
  unfold binary_round.
  destruct (shl_align m e _) as [mz ez].
  by apply binary_round_aux_sign.
Qed.

Lemma binary_normalize_not_nan m e sz :
  binary_normalize prec emax m e sz <> S754_nan.
Proof.
  unfold binary_normalize. destruct m as [|p|p]; [done| |].
  - pose proof (binary_round_sign false p e) as H. intros E. by rewrite E in H.
  - pose proof (binary_round_sign true p e) as H. intros E. by rewrite E in H.
Qed.

Lemma SFdiv_core_nonneg m1 e1 m2 e2 :
  0 <= (SFdiv_core_binary prec emax (Zpos m1) e1 (Zpos m2) e2).1.1.
Proof.
  unfold SFdiv_core_binary.
  set (s := e1 - e2 - _).
  assert (0 <= match s with
               | 0 => Z.pos m1
               | Z.pos _ => Z.shiftl (Z.pos m1) s
               | Z.neg _ => 0
               end) as Hm'.
  { destruct s; [done| |done]. apply Z.shiftl_nonneg. done. }
  destruct (Z.div_eucl _ (Z.pos m2)) as [q r0] eqn:E.
  simpl. apply (f_equal fst) in E. simpl in E. subst q.
  apply (Z.div_pos _ (Z.pos m2)); [done|lia].
Qed.

(** The quotient of two finite numbers has the exclusive or of their
    sign bits. *)
Lemma SFdiv_finite_sign s1 m1 e1 s2 m2 e2 :
  has_sign (xorb s1 s2)
    (SFdiv prec emax (S754_finite s1 m1 e1) (S754_finite s2 m2 e2)).
Proof.
  unfold SFdiv.
  pose proof (SFdiv_core_nonneg m1 e1 m2 e2) as Hq.
  destruct (SFdiv_core_binary prec emax (Z.pos m1) e1 (Z.pos m2) e2)
    as [[q e'] l].
  by apply binary_round_aux_sign.
Qed.

Lemma SFmul_finite_sign s1 m1 e1 s2 m2 e2 :
  has_sign (xorb s1 s2)
    (SFmul prec emax (S754_finite s1 m1 e1) (S754_finite s2 m2 e2)).
Proof. unfold SFmul. by apply binary_round_aux_sign. Qed.

Lemma SFcompare_antisym x y :
  SFcompare y x = option_map CompOpp (SFcompare x y).
Proof.
  destruct x as [[]|[]| |[] mx ex], y as [[]|[]| |[] my ey]; simpl;
    try done.
  - rewrite (Z.compare_antisym ex ey).
    destruct (ex ?= ey); simpl; try done.
    by rewrite (Pos.compare_cont_antisym mx my Eq).
  - rewrite (Z.compare_antisym ex ey).
    destruct (ex ?= ey); simpl; try done.
    by rewrite (Pos.compare_cont_antisym mx my Eq).
Qed.

Lemma SFcompare_None x y :
  SFcompare x y = None <-> x = S754_nan \/ y = S754_nan.
Proof.
  destruct x as [[]|[]| |[] mx ex], y as [[]|[]| |[] my ey]; simpl;
    split; try done; try (intros [|]; done); auto.
Qed.

End Rounding.

Lemma has_sign_not_nan s x : has_sign s x -> isNaN x = false.
Proof. by destruct x. Qed.

(** [x < y] is the negation of [x >= y] when neither is NaN. *)
Lemma lt_negb_ge (x y : number) :
  isNaN x = false -> isNaN y = false -> lt x y = negb (ge x y).
Proof.
  intros Hx Hy. unfold lt, ge, SFltb, SFleb.
  rewrite (SFcompare_antisym x y).
  destruct (SFcompare x y) as [[]|] eqn:E; simpl; try done.
  apply SFcompare_None in E as [->| ->]; done.
Qed.

Lemma of_Z_not_nan z : isNaN (of_Z z) = false.
Proof.
  pose proof (binary_normalize_not_nan prec emax z 0 false) as H.
  unfold of_Z. by destruct (binary_normalize _ _ _ _ _).
Qed.

Lemma Math_round_not_nan x : isNaN x = false -> isNaN (Math_round x) = false.
Proof.
  destruct x as [s|s| |s m e]; try done. intros _. simpl.
  destruct e as [|p|p]; try done.
  pose proof (binary_normalize_not_nan prec emax
                ((2 * (if s then Z.neg m else Z.pos m) + 2 ^ Z.pos p)
                 / 2 ^ (Z.pos p + 1)) 0 s) as H.
  by destruct (binary_normalize _ _ _ _ _).
Qed.

Lemma Math_max_not_nan x y :
  isNaN x = false -> isNaN y = false -> isNaN (Math_max x y) = false.
Proof.
  intros Hx Hy. unfold Math_max.
  destruct (SFcompare x y) as [[]|] eqn:E; try done.
  - by destruct x as [[]|[]| |[] m e].
  - apply SFcompare_None in E as [->| ->]; done.
Qed.

Lemma fmul_finite_not_nan x s m e :
  isNaN x = false -> isNaN (fmul x (S754_finite s m e)) = false.
Proof.
  destruct x as [sx|sx| |sx mx ex]; try done. intros _.
  apply (has_sign_not_nan (xorb sx s)).
  apply SFmul_finite_sign.
Qed.

Lemma minPixelThreshold_not_nan totalPixels :
  isNaN (minPixelThreshold totalPixels) = false.
Proof.
  unfold minPixelThreshold.
  apply Math_max_not_nan; [apply of_Z_not_nan|].
  apply Math_round_not_nan.
  change (of_decimal false 1 (-4))
    with (S754_finite false 7378697629483821 (-66)).
  apply fmul_finite_not_nan, of_Z_not_nan.
Qed.

(** ** Numbers: integers and their products *)

Lemma digits2_pos_bounds (p : positive) :
  2 ^ (Z.pos (digits2_pos p) - 1) <= Z.pos p < 2 ^ Z.pos (digits2_pos p).
Proof.
  induction p as [p IH|p IH|]; cbn [digits2_pos]; [| |done].
  - rewrite Pos2Z.inj_succ.
    replace (Z.succ (Z.pos (digits2_pos p)) - 1) with (Z.pos (digits2_pos p))
      by lia.
    rewrite Z.pow_succ_r by lia.
    replace (2 ^ Z.pos (digits2_pos p))
      with (2 * 2 ^ (Z.pos (digits2_pos p) - 1)) in *
      by (rewrite <- Z.pow_succ_r by lia; f_equal; lia).
    lia.
  - rewrite Pos2Z.inj_succ.
    replace (Z.succ (Z.pos (digits2_pos p)) - 1) with (Z.pos (digits2_pos p))
      by lia.
    rewrite Z.pow_succ_r by lia.
    replace (2 ^ Z.pos (digits2_pos p))
      with (2 * 2 ^ (Z.pos (digits2_pos p) - 1)) in *
      by (rewrite <- Z.pow_succ_r by lia; f_equal; lia).
    lia.
Qed.

Lemma Zdigits2_unique (m d : Z) :
  2 ^ (d - 1) <= m < 2 ^ d -> 0 < d -> Zdigits2 m = d.
Proof.
  intros [Hlo Hhi] Hd.
  assert (0 < m) as Hm by (pose proof (Z.pow_pos_nonneg 2 (d - 1)); lia).
  destruct m as [|p|p]; try lia. cbn [Zdigits2].
  pose proof (digits2_pos_bounds p) as [Hlo' Hhi'].
  set (d' := Z.pos (digits2_pos p)) in *.
  destruct (Z.lt_trichotomy d' d) as [Hlt|[Heq|Hgt]]; [|done|].
  - pose proof (Z.pow_le_mono_r 2 d' (d - 1) ltac:(lia) ltac:(lia)). lia.
  - pose proof (Z.pow_le_mono_r 2 d (d' - 1) ltac:(lia) ltac:(lia)). lia.
Qed.

Lemma shr_1_spec (m : Z) (r s : bool) :
  0 <= m ->
  shr_1 {| shr_m := m; shr_r := r; shr_s := s |}
  = {| shr_m := Z.div2 m; shr_r := Z.odd m; shr_s := r || s |}.
Proof. intros Hm. destruct m as [|[p|p|]|p]; done || lia. Qed.

(** [n + 1] shifts of an exact mantissa: the quotient, the bit below
    it and whether anything is left below that bit. *)
Lemma iter_shr_1_spec (n : nat) (m : Z) :
  0 <= m ->
  exists q (b : bool) sigma,
    Nat.iter (S n) shr_1 {| shr_m := m; shr_r := false; shr_s := false |}
    = {| shr_m := q; shr_r := b; shr_s := negb (sigma =? 0) |}
    /\ 0 <= q /\ 0 <= sigma < 2 ^ Z.of_nat n
    /\ m = q * 2 ^ (Z.of_nat n + 1)
           + (if b then 2 ^ Z.of_nat n else 0) + sigma.
Proof.
  intros Hm. induction n as [|n (q & b & sigma & Hiter & Hq & Hsigma & Hval)].
  - exists (Z.div2 m), (Z.odd m), 0. cbn [Nat.iter].
    rewrite shr_1_spec by done. split; [done|].
    pose proof (Z.div2_odd m) as Hodd.
    split; [apply Z.div2_nonneg; lia|]. split; [done|].
    change (2 ^ (Z.of_nat 0 + 1)) with 2. change (2 ^ Z.of_nat 0) with 1.
    destruct (Z.odd m); simpl in Hodd; lia.
  - exists (Z.div2 q), (Z.odd q), ((if b then 2 ^ Z.of_nat n else 0) + sigma).
    change (Nat.iter (S (S n)) shr_1 ?x) with (shr_1 (Nat.iter (S n) shr_1 x)).
    rewrite Hiter, shr_1_spec by done.
    pose proof (Z.div2_odd q) as Hodd.
    pose proof (Z.pow_pos_nonneg 2 (Z.of_nat n) ltac:(lia) ltac:(lia)) as Hpos.
    assert (2 ^ Z.of_nat (S n) = 2 * 2 ^ Z.of_nat n) as Hp1
        by (rewrite Nat2Z.inj_succ, Z.pow_succ_r; lia).
    assert (2 ^ (Z.of_nat n + 1) = 2 * 2 ^ Z.of_nat n) as Hp2
        by (rewrite Z.pow_add_r; lia).
    assert (2 ^ (Z.of_nat (S n) + 1) = 4 * 2 ^ Z.of_nat n) as Hp3
        by (rewrite Z.pow_add_r, Hp1; lia).
    split; [|split; [apply Z.div2_nonneg; lia|split]].
    + f_equal. destruct b; simpl.
      * symmetry. apply negb_true_iff, Z.eqb_neq. lia.
      * done.
    + rewrite Hp1. destruct b; lia.
    + rewrite Hp3, Hp1. rewrite Hp2 in Hval.
      destruct (Z.odd q); simpl in Hodd; destruct b; nia.
Qed.

Lemma iter_pos_nat {A : Type} (f : A -> A) (p : positive) (x : A) :
  SpecFloat.iter_pos f p x = Nat.iter (Pos.to_nat p) f x.
Proof.
  revert x. induction p as [p IH|p IH|]; intros x; cbn [SpecFloat.iter_pos].
  - rewrite !IH, Pos2Nat.inj_xI.
    replace (S (2 * Pos.to_nat p)) with (Pos.to_nat p + (Pos.to_nat p + 1))%nat
      by lia.
    by rewrite !Nat.iter_add.
  - rewrite !IH, Pos2Nat.inj_xO.
    replace (2 * Pos.to_nat p)%nat with (Pos.to_nat p + Pos.to_nat p)%nat
      by lia.
    by rewrite Nat.iter_add.
  - done.
Qed.

Lemma fexp_normal (x : Z) : -1021 <= x -> fexp prec emax x = x - 53.
Proof. intros Hx. unfold fexp, emin, prec, emax. lia. Qed.

(** The first step of rounding a mantissa of [d >= 53] digits in the
    normal range: the mantissa is shifted by [d - 53] and what is
    rounded from the shifted record is nearest to it. *)
Lemma shr_fexp_normal (m e d : Z) :
  2 ^ (d - 1) <= m < 2 ^ d -> 53 <= d -> -1074 <= e + d - 53 ->
  exists mrs,
    shr_fexp prec emax m e loc_Exact = (mrs, e + d - 53) /\
    (d = 53 -> mrs = {| shr_m := m; shr_r := false; shr_s := false |}) /\
    let m2 := round_nearest_even (shr_m mrs) (loc_of_shr_record mrs) in
    m / 2 ^ (d - 53) <= m2 <= m / 2 ^ (d - 53) + 1 /\
    2 * m2 * 2 ^ (d - 53) <= 2 * m + 2 ^ (d - 53).
Proof.
  intros Hm Hd He. unfold shr_fexp.
  rewrite (Zdigits2_unique m d Hm) by lia.
  rewrite fexp_normal by lia.
  replace (d + e - 53 - e) with (d - 53) by lia.
  assert (0 <= m) as Hm0 by (pose proof (Z.pow_pos_nonneg 2 (d - 1)); lia).
  destruct (d - 53) as [|p|p] eqn:Hk; [| |lia].
  - exists {| shr_m := m; shr_r := false; shr_s := false |}.
    cbn [shr shr_record_of_loc]. split; [f_equal; lia|]. split; [done|].
    cbn. rewrite Z.div_1_r. lia.
  - cbn [shr shr_record_of_loc]. rewrite iter_pos_nat.
    destruct (Pos2Nat.is_succ p) as [n Hn]. rewrite Hn.
    destruct (iter_shr_1_spec n m Hm0) as (q & b & sigma & -> & Hq & Hs & Hval).
    eexists. split; [f_equal; lia|]. split; [lia|].
    assert (Z.pos p = Z.of_nat n + 1) as -> by lia.
    pose proof (Z.pow_pos_nonneg 2 (Z.of_nat n) ltac:(lia) ltac:(lia)) as Hpos.
    assert (2 ^ (Z.of_nat n + 1) = 2 * 2 ^ Z.of_nat n) as Hp
        by (rewrite Z.pow_add_r; lia).
    rewrite Hp in *.
    assert (m / (2 * 2 ^ Z.of_nat n) = q) as ->.
    { symmetry.
      apply (Z.div_unique_pos m _ q ((if b then 2 ^ Z.of_nat n else 0) + sigma));
        destruct b; lia. }
    cbn [shr_m loc_of_shr_record shr_r shr_s].
    destruct b; [destruct (sigma =? 0) eqn:E|]; cbn [negb round_nearest_even].
    + apply Z.eqb_eq in E. destruct (Z.even q); nia.
    + nia.
    + destruct (negb (sigma =? 0)); cbn [round_nearest_even]; nia.
Qed.

(** Rounding a positive mantissa of [d >= 53] digits in the normal
    range: the result is the integer [m2] nearest to [m / 2^(d - 53)]
    (either neighbour in a tie) at exponent [e + d - 53], renormalised
    when [m2] is [2^53]. *)
Lemma binary_round_aux_normal (s : bool) (m e d : Z) :
  2 ^ (d - 1) <= m < 2 ^ d -> 53 <= d ->
  -1074 <= e + d - 53 -> e + d <= 1023 ->
  exists m2,
    m / 2 ^ (d - 53) <= m2 /\
    2 * m2 * 2 ^ (d - 53) <= 2 * m + 2 ^ (d - 53) /\
    2 ^ 52 <= m2 <= 2 ^ 53 /\
    binary_round_aux prec emax s m e loc_Exact =
    if m2 <? 2 ^ 53 then S754_finite s (Z.to_pos m2) (e + d - 53)
    else S754_finite s (Z.to_pos (2 ^ 52)) (e + d - 52).
Proof.
  intros Hm Hd Hlo Hhi.
  destruct (shr_fexp_normal m e d Hm Hd Hlo) as (mrs & Hshr & _ & Hround).
  set (m2 := round_nearest_even (shr_m mrs) (loc_of_shr_record mrs)) in *.
  cbv zeta in Hround. destruct Hround as [[Hq Hq'] Hnear].
  pose proof (Z.pow_pos_nonneg 2 (d - 53) ltac:(lia) ltac:(lia)) as Hpos.
  assert (2 ^ (d - 1) = 2 ^ 52 * 2 ^ (d - 53)) as Hp1
      by (rewrite <- Z.pow_add_r by lia; f_equal; lia).
  assert (2 ^ d = 2 ^ 53 * 2 ^ (d - 53)) as Hp2
      by (rewrite <- Z.pow_add_r by lia; f_equal; lia).
  assert (2 ^ 52 <= m / 2 ^ (d - 53)) as Hq1
      by (apply Z.div_le_lower_bound; lia).
  assert (m / 2 ^ (d - 53) < 2 ^ 53) as Hq2
      by (apply Z.div_lt_upper_bound; lia).
  exists m2. split; [done|]. split; [done|]. split; [lia|].
  unfold binary_round_aux. rewrite Hshr. fold m2.
  destruct (m2 <? 2 ^ 53) eqn:Hcarry.
  - apply Z.ltb_lt in Hcarry.
    destruct (shr_fexp_normal m2 (e + d - 53) 53 ltac:(lia) ltac:(lia)
                ltac:(lia)) as (mrs2 & -> & Hmrs2 & _).
    rewrite Hmrs2 by done. cbn [shr_m].
    destruct m2 as [|p|p]; try lia.
    replace (e + d - 53 + 53 - 53 <=? emax - prec) with true
      by (symmetry; apply Z.leb_le; unfold emax, prec; lia).
    f_equal. lia.
  - apply Z.ltb_ge in Hcarry. assert (m2 = 2 ^ 53) as -> by lia.
    unfold shr_fexp. rewrite (Zdigits2_unique (2 ^ 53) 54) by lia.
    rewrite fexp_normal by lia.
    replace (54 + (e + d - 53) - 53 - (e + d - 53)) with 1 by lia.
    cbn [shr shr_record_of_loc SpecFloat.iter_pos].
    change (shr_m (shr_1 {| shr_m := 2 ^ 53; shr_r := false; shr_s := false |}))
      with (2 ^ 52).
    change (2 ^ 52) with (Z.pos (Pos.pow 2 52)).
    replace (e + d - 53 + 1 <=? emax - prec) with true
      by (symmetry; apply Z.leb_le; unfold emax, prec; lia).
    f_equal. lia.
Qed.

Lemma iter_xO (p k : positive) : Z.pos (Pos.iter xO p k) = Z.pos p * 2 ^ Z.pos k.
Proof.
  induction k as [|k IH] using Pos.peano_ind.
  - cbn [Pos.iter]. rewrite Pos2Z.inj_xO. change (2 ^ 1) with 2. lia.
  - rewrite Pos.iter_succ, Pos2Z.inj_xO, IH, Pos2Z.inj_succ, Z.pow_succ_r; lia.
Qed.

(** An integer below 2^53 is a number with a mantissa of 53 digits. *)
Lemma of_Z_normal (z : Z) :
  0 < z < 2 ^ 53 ->
  exists s,
    0 <= s <= 52 /\ 2 ^ 52 <= z * 2 ^ s < 2 ^ 53 /\
    of_Z z = S754_finite false (Z.to_pos (z * 2 ^ s)) (- s).
Proof.
  intros Hz. destruct z as [|p|p]; try lia.
  unfold of_Z, binary_normalize, binary_round.
  pose proof (digits2_pos_bounds p) as Hd.
  set (d := Z.pos (digits2_pos p)) in *.
  assert (1 <= d <= 53) as Hd53.
  { split; [lia|].
    destruct (decide (d <= 53)) as [|Hgt]; [done|].
    pose proof (Z.pow_le_mono_r 2 53 (d - 1) ltac:(lia) ltac:(lia)). lia. }
  rewrite Z.add_0_r, fexp_normal by lia.
  exists (53 - d). split; [lia|].
  assert (2 ^ 52 <= Z.pos p * 2 ^ (53 - d) < 2 ^ 53) as Hnorm.
  { assert (2 ^ 52 = 2 ^ (d - 1) * 2 ^ (53 - d)) as ->
        by (rewrite <- Z.pow_add_r by lia; f_equal; lia).
    assert (2 ^ 53 = 2 ^ d * 2 ^ (53 - d)) as ->
        by (rewrite <- Z.pow_add_r by lia; f_equal; lia).
    pose proof (Z.pow_pos_nonneg 2 (53 - d) ltac:(lia) ltac:(lia)). nia. }
  split; [done|].
  assert (exists mz, shl_align p 0 (d - 53) = (mz, d - 53)
                     /\ Z.pos mz = Z.pos p * 2 ^ (53 - d)) as (mz & -> & Hmz).
  { unfold shl_align. rewrite Z.sub_0_r.
    destruct (d - 53) as [|k|k] eqn:Hk; [|lia|].
    - exists p. split; [done|]. replace (53 - d) with 0 by lia. lia.
    - exists (Pos.iter xO p k). split; [done|].
      rewrite iter_xO. f_equal. f_equal. lia. }
  destruct (binary_round_aux_normal false (Z.pos mz) (d - 53) 53
              ltac:(lia) ltac:(lia) ltac:(lia) ltac:(lia))
    as (m2 & Hq & Hnear & Hrange & ->).
  change (2 ^ (53 - 53)) with 1 in *. rewrite Z.div_1_r in Hq.
  assert (m2 = Z.pos mz) as -> by lia.
  replace (Z.pos mz <? 2 ^ 53) with true by (symmetry; apply Z.ltb_lt; lia).
  rewrite <- Hmz. f_equal. lia.
Qed.

(** Comparing two positive integers below 2^53 as numbers. *)
Lemma SFcompare_of_Z (a b : Z) :
  0 <= a < 2 ^ 53 -> 0 <= b < 2 ^ 53 ->
  SFcompare (of_Z a) (of_Z b) = Some (a ?= b).
Proof.
  intros Ha Hb.
  destruct (decide (a = 0)) as [->|Ha0].
  { destruct (decide (b = 0)) as [->|Hb0]; [done|].
    destruct (of_Z_normal b ltac:(lia)) as (sb & _ & _ & ->).
    change (of_Z 0) with (S754_zero false). cbn [SFcompare].
    f_equal. symmetry. apply Z.compare_lt_iff. lia. }
  destruct (of_Z_normal a ltac:(lia)) as (sa & Hsa & Hna & ->).
  destruct (decide (b = 0)) as [->|Hb0].
  { change (of_Z 0) with (S754_zero false). cbn [SFcompare].
    f_equal. symmetry. apply Z.compare_gt_iff. lia. }
  destruct (of_Z_normal b ltac:(lia)) as (sb & Hsb & Hnb & ->).
  cbn [SFcompare]. f_equal.
  pose proof (Z.pow_pos_nonneg 2 sa ltac:(lia) ltac:(lia)) as Hpa.
  pose proof (Z.pow_pos_nonneg 2 sb ltac:(lia) ltac:(lia)) as Hpb.
  destruct (Z.compare_spec (- sa) (- sb)) as [Heq|Hlt|Hgt].
  - assert (sa = sb) as -> by lia.
    rewrite Pos.compare_cont_spec.
    assert (forall c, Pos.switch_Eq Eq c = c) as -> by (by intros []).
    rewrite <- Z2Pos.inj_compare by lia.
    destruct (Z.compare_spec a b) as [->|Hab|Hab].
    + apply Z.compare_refl.
    + apply Z.compare_lt_iff. nia.
    + apply Z.compare_gt_iff. nia.
  - symmetry. apply Z.compare_lt_iff.
    assert (2 ^ sa = 2 ^ sb * 2 ^ (sa - sb)) as Hs
        by (rewrite <- Z.pow_add_r by lia; f_equal; lia).
    assert (2 <= 2 ^ (sa - sb))
      by (apply (Z.pow_le_mono_r 2 1 (sa - sb)); lia).
    nia.
  - symmetry. apply Z.compare_gt_iff.
    assert (2 ^ sb = 2 ^ sa * 2 ^ (sb - sa)) as Hs
        by (rewrite <- Z.pow_add_r by lia; f_equal; lia).
    assert (2 <= 2 ^ (sb - sa))
      by (apply (Z.pow_le_mono_r 2 1 (sb - sa)); lia).
    nia.
Qed.

(** [x / y = q] from the two bounds. *)
Lemma div_between (x y q : Z) : 0 < y -> y * q <= x < y * (q + 1) -> x / y = q.
Proof.
  intros Hy [Hlo Hhi]. apply Z.le_antisymm.
  - apply Z.lt_succ_r. by apply Z.div_lt_upper_bound.
  - by apply Z.div_le_lower_bound.
Qed.

(** [Math.round(totalPixels * 0.0001)] is the integer nearest to
    [totalPixels / 10000], a half rounded upward. *)
Lemma round_ten_thousandth (n : Z) :
  0 < n <= 10 ^ 15 ->
  Math_round (fmul (of_Z n) (of_decimal false 1 (-4)))
  = of_Z ((n + 5000) / 10000).
Proof.
  intros Hn.
  change (of_decimal false 1 (-4))
    with (S754_finite false 7378697629483821 (-66)).
  destruct (of_Z_normal n ltac:(lia)) as (s & Hs & Hmx & ->).
  set (S := 2 ^ s) in *. set (M := 7378697629483821).
  assert (1 <= S) as HS
      by (pose proof (Z.pow_pos_nonneg 2 s ltac:(lia) ltac:(lia)); lia).
  unfold fmul, SFmul. cbn [xorb].
  rewrite Pos2Z.inj_mul, Z2Pos.id by lia. fold M.
  set (P := n * S * M).
  assert (2 ^ 104 <= P < 2 ^ 106) as HP by (unfold P, M; nia).
  assert (exists d, 2 ^ (d - 1) <= P < 2 ^ d /\ (d = 105 \/ d = 106))
    as (d & HPd & Hd).
  { destruct P as [|p|p] eqn:HPp; try lia.
    exists (Z.pos (digits2_pos p)). split; [apply digits2_pos_bounds|].
    pose proof (digits2_pos_bounds p) as [Hlo Hhi].
    set (d := Z.pos (digits2_pos p)) in *.
    destruct (decide (d <= 104)) as [Hle|Hgt].
    { pose proof (Z.pow_le_mono_r 2 d 104 ltac:(lia) ltac:(lia)). lia. }
    destruct (decide (107 <= d)) as [Hge|Hlt]; [|lia].
    pose proof (Z.pow_le_mono_r 2 106 (d - 1) ltac:(lia) ltac:(lia)). lia. }
  destruct (binary_round_aux_normal false P (- s + -66) d HPd
              ltac:(lia) ltac:(lia) ltac:(lia))
    as (m2 & Hq1 & Hnear & Hm2 & ->).
  set (D := 2 ^ (d - 53)) in *.
  set (q := (n + 5000) / 10000).
  assert (10000 * q <= n + 5000 < 10000 * (q + 1)) as Hq.
  { unfold q. pose proof (Z.div_mod (n + 5000) 10000 ltac:(lia)).
    pose proof (Z.mod_pos_bound (n + 5000) 10000 ltac:(lia)). lia. }
  set (A := 2 ^ (s + 65 - (d - 53))).
  assert (0 < A) as HA by (apply Z.pow_pos_nonneg; lia).
  assert (0 < D <= 2 ^ 53) as HD.
  { split; [apply Z.pow_pos_nonneg; lia|].
    apply Z.pow_le_mono_r; lia. }
  assert (A * D = S * 2 ^ 65) as HAD.
  { unfold A, D, S. rewrite <- !Z.pow_add_r by lia. f_equal. lia. }
  assert (P < (m2 + 1) * D) as HPlt.
  { pose proof (Z.div_mod P D ltac:(lia)).
    pose proof (Z.mod_pos_bound P D ltac:(lia)). fold D in Hq1. nia. }
  assert ((2 * q - 1) * A <= m2) as Hlow.
  { assert ((2 * q - 1) * 2 ^ 65 <= n * M) as H2 by (unfold M; lia).
    assert ((2 * q - 1) * (A * D) <= P) as H3
        by (rewrite HAD; unfold P; nia).
    assert ((2 * q - 1) * A * D < (m2 + 1) * D) as H4 by lia.
    apply Z.mul_lt_mono_pos_r in H4; lia. }
  assert (m2 < (2 * q + 1) * A) as Hupp.
  { assert (2 ^ 52 < (2 * q + 1) * 2 ^ 65 - n * M) as HG by (unfold M; lia).
    assert (2 * P + D < 2 * ((2 * q + 1) * (A * D))) as H3
        by (rewrite HAD; unfold P; nia).
    assert (m2 * D < (2 * q + 1) * A * D) as H4 by lia.
    apply Z.mul_lt_mono_pos_r in H4; lia. }
  assert (2 ^ (s + 66 - (d - 53)) = 2 * A) as HX.
  { unfold A. rewrite <- Z.pow_succ_r by lia. f_equal. lia. }
  destruct (m2 <? 2 ^ 53) eqn:Hcarry.
  - unfold Math_round.
    destruct (- s + -66 + d - 53) as [|k|k] eqn:He; try lia.
    assert (Z.pos k = s + 66 - (d - 53)) as Hk by lia.
    rewrite Z2Pos.id by lia.
    rewrite Z.pow_add_r, Hk, HX by lia. change (2 ^ 1) with 2.
    unfold of_Z. f_equal.
    apply div_between; [lia|]. fold q. lia.
  - apply Z.ltb_ge in Hcarry. assert (m2 = 2 ^ 53) as Hm2' by lia.
    unfold Math_round.
    destruct (- s + -66 + d - 52) as [|k|k] eqn:He; try lia.
    assert (Z.pos k = s + 65 - (d - 53)) as Hk by lia.
    rewrite Z2Pos.id by lia.
    rewrite Z.pow_add_r, Hk by lia. fold A. change (2 ^ 1) with 2.
    unfold of_Z. f_equal.
    apply div_between; [lia|]. fold q. lia.
Qed.

(** The threshold, computed in binary64, is the threshold of the
    specification, for every canvas of up to 10^15 pixels. *)
Lemma minPixelThreshold_value (totalPixels : Z) :
  0 <= totalPixels <= 10 ^ 15 ->
  minPixelThreshold totalPixels = of_Z (significance_threshold totalPixels).
Proof.
  intros Hn. unfold minPixelThreshold, significance_threshold.
  destruct (decide (totalPixels = 0)) as [->|Hn0]; [done|].
  rewrite round_ten_thousandth by lia.
  set (q := (totalPixels + 5000) / 10000).
  assert (0 <= q < 2 ^ 53) as Hq.
  { unfold q. split; [apply Z.div_pos; lia|].
    apply Z.div_lt_upper_bound; lia. }
  unfold Math_max. rewrite SFcompare_of_Z by lia.
  destruct (Z.compare_spec 100 q) as [Heq|Hlt|Hgt].
  - rewrite Z.max_l by lia. done.
  - by rewrite Z.max_r by lia.
  - by rewrite Z.max_l by lia.
Qed.

Lemma ge_of_Z (a b : Z) :
  0 <= a < 2 ^ 53 -> 0 <= b < 2 ^ 53 -> ge (of_Z a) (of_Z b) = (b <=? a).
Proof.
  intros Ha Hb. unfold ge, SFleb. rewrite SFcompare_of_Z by done.
  unfold Z.leb. by destruct (b ?= a).
Qed.

Lemma length_scan_order w h :
  0 <= w -> 0 <= h -> Z.of_nat (length (scan_order w h)) = w * h.
Proof.
  intros Hw Hh. unfold scan_order.
  assert (forall ys : list Z,
            length (ys ≫= fun y => (fun x => (y, x)) <$> seqZ 0 w)
            = (length ys * Z.to_nat w)%nat) as Hlen.
  { induction ys as [|y ys IH]; [done|].
    rewrite bind_cons, length_app, IH, length_fmap, length_seqZ.
    cbn [length]. nia. }
  rewrite Hlen, length_seqZ, Nat2Z.inj_mul, !Z2Nat.id by done. lia.
Qed.

Lemma length_omap_le {A B : Type} (f : A -> option B) (l : list A) :
  (length (omap f l) <= length l)%nat.
Proof.
  induction l as [|a l IH]; [done|].
  change (omap f (a :: l))
    with (match f a with Some b => b :: omap f l | None => omap f l end).
  destruct (f a); cbn [length]; lia.
Qed.

Lemma key_of_entry_of k n : key_of (entry_of k n) = k.
Proof. by destruct k as [[r0 g0] b0]. Qed.

Lemma occurrences_elem k (keys : list color_key) :
  k ∈ keys -> 1 <= occurrences k keys.
Proof.
  intros Hin. unfold occurrences.
  assert (In k (List.filter (key_eqb k) keys)) as Hf.
  { apply List.filter_In. split; [by apply list_elem_of_In|apply key_eqb_refl]. }
  destruct (List.filter (key_eqb k) keys); [done|]. simpl. lia.
Qed.

Lemma colors_analyzeColors (img : ImageData) :
  colors (analyzeColors img) =
  (fun k => entry_of k (occurrences k (opaque_keys img)))
    <$> discovered (opaque_keys img).
Proof.
  unfold analyzeColors. cbn [colors].
  rewrite analyzeColors_fold, upsert_fold.
  change (map snd ?l) with (snd <$> l).
  rewrite <- list_fmap_compose. done.
Qed.

Lemma count_analyzeColors (img : ImageData) (c : ColorEntry) :
  c ∈ colors (analyzeColors img) ->
  count c = occurrences (key_of c) (opaque_keys img) /\ 1 <= count c.
Proof.
  intros Hc. rewrite colors_analyzeColors in Hc.
  apply list_elem_of_fmap in Hc as (k & -> & Hk).
  rewrite key_of_entry_of. split; [done|].
  apply occurrences_elem. by apply elem_of_discovered.
Qed.

Lemma count_le_area (img : ImageData) (c : ColorEntry) :
  0 <= width img -> 0 <= height img ->
  c ∈ colors (analyzeColors img) -> 1 <= count c <= width img * height img.
Proof.
  intros Hw Hh Hc.
  destruct (count_analyzeColors img c Hc) as [Hcount Hpos].
  split; [done|]. rewrite Hcount. unfold occurrences.
  pose proof (List.filter_length_le (key_eqb (key_of c)) (opaque_keys img)).
  pose proof (length_omap_le (pixel_key img)
                (scan_order (width img) (height img))) as Hle.
  fold (opaque_keys img) in Hle.
  pose proof (length_scan_order (width img) (height img) Hw Hh). lia.
Qed.

(** The filter, in whole numbers: an entry passes exactly when its
    count is at least the threshold of the specification for the area
    of the canvas. *)
Lemma is_significant_area (img : ImageData) (c : ColorEntry) :
  0 <= width img -> 0 <= height img -> width img * height img <= 10 ^ 15 ->
  c ∈ colors (analyzeColors img) ->
  is_significant (minPixelThreshold (totalPixels (analyzeColors img))) c
  = (significance_threshold (width img * height img) <=? count c).
Proof.
  intros Hw Hh Harea Hc.
  pose proof (count_le_area img c Hw Hh Hc) as Hcount.
  change (totalPixels (analyzeColors img)) with (width img * height img).
  assert (0 <= width img * height img) as Hpos by nia.
  rewrite minPixelThreshold_value by lia.
  unfold is_significant. apply ge_of_Z; [lia|].
  unfold significance_threshold. split; [lia|].
  apply Z.max_lub_lt; [lia|]. apply Z.div_lt_upper_bound; lia.
Qed.

(** C10. [analyzeColors] returns [totalPixels = width * height], the
    number of all pixels of the raster; the palette has one entry per
    colour of the pixels whose alpha is not 0, and the count of an entry
    is the number of those pixels of its colour, so the counts add up to
    the number of pixels that are not transparent.  The significance
    filter that follows compares the counts with
    [max(100, round(width * height * 0.0001))], the threshold for the
    area of the whole canvas (stated for canvases of up to 10^15
    pixels); the number of pixels that are not transparent would give a
    threshold that is at most that. *)
Theorem analyzeColors_totalPixels (img : ImageData) :
  let res := analyzeColors img in
  let all_pixels := scan_order (width img) (height img) in
  totalPixels res = width img * height img /\
  (0 <= width img -> 0 <= height img ->
   totalPixels res = Z.of_nat (length all_pixels)) /\
  (forall x y, transparent img x y = true -> pixel_key img (y, x) = None) /\
  colors res =
    (fun k => entry_of k (occurrences k (opaque_keys img)))
      <$> discovered (opaque_keys img) /\
  (forall c, c ∈ colors res ->
     count c = occurrences (key_of c) (opaque_keys img) /\ 1 <= count c) /\
  sum_counts (colors res) = Z.of_nat (length (opaque_keys img)) /\
  (length (opaque_keys img) <= length all_pixels)%nat /\
  (0 <= width img -> 0 <= height img -> width img * height img <= 10 ^ 15 ->
   minPixelThreshold (totalPixels res)
   = of_Z (significance_threshold (width img * height img)) /\
   significantColors res
   = List.filter
       (fun c => significance_threshold (width img * height img) <=? count c)
       (colors res) /\
   significance_threshold (sum_counts (colors res))
   <= significance_threshold (width img * height img)).
Proof.
  intros res all_pixels.
  assert (sum_counts (colors res) = Z.of_nat (length (opaque_keys img)))
    as Hsum
      by (unfold res; rewrite colors_analyzeColors; apply sum_counts_discovered).
  split; [done|]. split; [|split; [|split; [|split; [|split; [|split]]]]].
  - intros Hw Hh. unfold all_pixels. by rewrite length_scan_order.
  - intros x y Ht. unfold transparent, alpha in Ht. unfold pixel_key. simpl.
    destruct (channel img x y 3) as [a|]; [|by repeat destruct (channel _ _ _ _)].
    simpl in Ht. rewrite Ht. by repeat destruct (channel _ _ _ _).
  - apply colors_analyzeColors.
  - intros c Hc. by apply count_analyzeColors.
  - done.
  - apply length_omap_le.
  - intros Hw Hh Harea.
    assert (0 <= width img * height img) as Hpos by nia.
    split; [|split].
    + change (totalPixels res) with (width img * height img).
      apply minPixelThreshold_value. lia.
    + unfold significantColors. apply List.filter_ext_in. intros c Hc.
      apply is_significant_area; [done..|]. by apply list_elem_of_In.
    + rewrite Hsum.
      pose proof (length_omap_le (pixel_key img)
                    (scan_order (width img) (height img))) as Hle.
      fold (opaque_keys img) in Hle.
      pose proof (length_scan_order (width img) (height img) Hw Hh) as Hlen.
      unfold significance_threshold.
      apply Z.max_le_compat_l, Z.div_le_mono; lia.
Qed.

(** ** The significance filter *)

Lemma count_below_100 n : 1 <= n < 100 -> ge (of_Z n) (of_Z 100) = false.
Proof.
  intros Hn.
  assert (forallb (fun n => negb (ge (of_Z n) (of_Z 100))) (seqZ 1 99) = true)
    as Hall by (vm_compute; reflexivity).
  rewrite forallb_forall in Hall.
  apply negb_true_iff, Hall, list_elem_of_In, elem_of_seqZ. lia.
Qed.

Lemma elem_of_significantColors (analysis : ColorAnalysis) (c : ColorEntry) :
  c ∈ significantColors analysis <->
  c ∈ colors analysis /\
  ge (of_Z (count c)) (minPixelThreshold (totalPixels analysis)) = true.
Proof.
  unfold significantColors, is_significant.
  rewrite !list_elem_of_In. apply List.filter_In.
Qed.

(** C5. The filter keeps exactly the palette entries whose count is at
    least [max(100, round(totalPixels * 0.0001))] and drops the entries
    whose count is below it: the threshold that the code computes in
    binary64 is that whole number for every [totalPixels] up to 10^15
    (1600 for a 4000 x 4000 raster), and an entry is kept exactly when
    its count is at least that number for the area of the raster.  On a
    1000 x 1000 raster the threshold is
    100, so every colour with fewer than 100 pixels is dropped.  With
    more than 10 colours left the analysis fails with the
    too-many-colours error, with none left it fails with the
    no-significant-colours error, and otherwise it returns the colours
    left, sorted. *)
Theorem significantColors_spec (flattenedData : ImageData) :
  let analysis := analyzeColors flattenedData in
  let threshold := minPixelThreshold (totalPixels analysis) in
  let significant := significantColors analysis in
  (forall c,
     c ∈ colors analysis ->
     (lt (of_Z (count c)) threshold = true -> c ∉ significant) /\
     (ge (of_Z (count c)) threshold = true -> c ∈ significant) /\
     (lt (of_Z (count c)) threshold = negb (ge (of_Z (count c)) threshold))) /\
  (forall c, c ∈ significant -> c ∈ colors analysis) /\
  (forall totalPixels,
     0 <= totalPixels <= 10 ^ 15 ->
     minPixelThreshold totalPixels
     = of_Z (significance_threshold totalPixels)) /\
  (0 <= width flattenedData -> 0 <= height flattenedData ->
   width flattenedData * height flattenedData <= 10 ^ 15 ->
   forall c,
     c ∈ colors analysis ->
     (c ∈ significant <->
      significance_threshold (width flattenedData * height flattenedData)
      <= count c)) /\
  (width flattenedData = 1000 -> height flattenedData = 1000 ->
   threshold = of_Z 100 /\
   forall c, c ∈ colors analysis -> count c < 100 -> c ∉ significant) /\
  (10 < Z.of_nat (length significant) ->
   analyzeDocument flattenedData = Err ExceedsMaximumColors
   /\ kind_of ExceedsMaximumColors = TooManyColors) /\
  (length significant = 0%nat ->
   analyzeDocument flattenedData = Err NoSignificantColorsFound
   /\ kind_of NoSignificantColorsFound = NoSignificantColors) /\
  (0 < Z.of_nat (length significant) <= 10 ->
   analyzeDocument flattenedData = Ok (sortColorsByLightness significant)).
Proof.
  intros analysis threshold significant.
  assert (forall c, lt (of_Z (count c)) threshold
                    = negb (ge (of_Z (count c)) threshold)) as Hlt.
  { intros c. apply lt_negb_ge; [apply of_Z_not_nan|].
    apply minPixelThreshold_not_nan. }
  split; [|split; [|split; [|split; [|split; [|split; [|split]]]]]].
  - intros c Hc. split; [|split; [|done]].
    + rewrite Hlt, negb_true_iff. intros Hge Hin.
      apply elem_of_significantColors in Hin as [_ Hin].
      fold threshold in Hin. congruence.
    + intros Hge. by apply elem_of_significantColors.
  - intros c Hin. by apply elem_of_significantColors in Hin as [? _].
  - apply minPixelThreshold_value.
  - intros Hw Hh Harea c Hc. unfold significant, analysis in *.
    rewrite elem_of_significantColors.
    change (ge (of_Z (count c))
              (minPixelThreshold (totalPixels (analyzeColors flattenedData))))
      with (is_significant
              (minPixelThreshold (totalPixels (analyzeColors flattenedData))) c).
    rewrite is_significant_area by done.
    rewrite Z.leb_le. by split; [intros [_ ?]|].
  - intros Hw Hh.
    assert (threshold = of_Z 100) as Hthr.
    { unfold threshold, analysis, analyzeColors. cbn [totalPixels].
      rewrite Hw, Hh. vm_compute. reflexivity. }
    split; [done|]. intros c Hc Hcount Hin.
    apply elem_of_significantColors in Hin as [_ Hin].
    fold threshold in Hin. rewrite Hthr in Hin.
    destruct (count_analyzeColors flattenedData c Hc) as [_ Hpos].
    rewrite count_below_100 in Hin by lia. done.
  - intros Hlen. split; [|done]. unfold analyzeDocument.
    fold analysis. fold significant.
    destruct (Z.of_nat (length significant) >? 10) eqn:E; [done|lia].
  - intros Hlen. split; [|done]. unfold analyzeDocument.
    fold analysis. fold significant. by rewrite Hlen.
  - intros Hlen. unfold analyzeDocument. fold analysis. fold significant.
    destruct (Z.of_nat (length significant) >? 10) eqn:E1; [lia|].
    destruct (Z.of_nat (length significant) =? 0) eqn:E2; [lia|done].
Qed.

(** ** Numbers: exact cases of the arithmetic *)

Lemma fexp_canonical m e :
  canonical_mantissa prec emax m e = true ->
  fexp prec emax (Zpos (digits2_pos m) + e) = e.
Proof. unfold canonical_mantissa. apply Z.eqb_eq. Qed.

(** [1 * x] is [x]. *)
Lemma fmul_one_finite s m e :
  bounded prec emax m e = true ->
  fmul (of_Z 1) (S754_finite s m e) = S754_finite s m e.
Proof.
  intros Hb. unfold bounded in Hb. apply andb_true_iff in Hb as [Hc He].
  apply fexp_canonical in Hc. apply Z.leb_le in He.
  change (of_Z 1) with (S754_finite false 4503599627370496 (-52)).
  unfold fmul, SFmul. cbn [xorb].
  change (Pos.mul 4503599627370496 m) with (Pos.iter xO m 52).
  unfold binary_round_aux.
  assert (Zdigits2 (Zpos (Pos.iter xO m 52)) = Zpos (digits2_pos m) + 52) as Hd.
  { cbn [Pos.iter Zdigits2 digits2_pos]. rewrite !Pos2Z.inj_succ. lia. }
  unfold shr_fexp at 1. rewrite Hd.
  replace (Z.pos (digits2_pos m) + 52 + (-52 + e))
    with (Z.pos (digits2_pos m) + e) by lia.
  rewrite Hc. replace (e - (-52 + e)) with 52 by lia.
  cbn [shr shr_record_of_loc].
  cbn [Pos.iter SpecFloat.iter_pos shr_1 orb].
  cbn [shr_m loc_of_shr_record round_nearest_even].
  unfold shr_fexp. cbn [Zdigits2].
  replace (-52 + e + 52) with e by lia.
  rewrite Hc, Z.sub_diag. cbn [shr shr_record_of_loc shr_m].
  replace (e <=? emax - prec) with true; [done|].
  symmetry. by apply Z.leb_le.
Qed.

Lemma fmul_one (x : number) :
  valid_binary prec emax x = true -> fmul (of_Z 1) x = x.
Proof.
  destruct x as [s|s| |s m e]; [done..|]. apply fmul_one_finite.
Qed.

(** [x / x] is 1 for a finite [x] other than zero. *)
Lemma fdiv_self s m e :
  fdiv (S754_finite s m e) (S754_finite s m e) = of_Z 1.
Proof.
  change (of_Z 1) with (S754_finite false 4503599627370496 (-52)).
  unfold fdiv, SFdiv, SFdiv_core_binary.
  replace (Zdigits2 (Z.pos m) + e - (Zdigits2 (Z.pos m) + e)) with 0 by lia.
  rewrite Z.sub_diag.
  change (Z.min (fexp prec emax 0) 0) with (-53).
  change (0 - -53) with 53.
  cbv beta iota.
  assert (Z.div_eucl (Z.shiftl (Z.pos m) 53) (Z.pos m)
          = (9007199254740992, 0)) as ->.
  { rewrite Z.shiftl_mul_pow2 by lia.
    pose proof (Z.div_eucl_eq (Z.pos m * 2 ^ 53) (Z.pos m) ltac:(lia)) as Heq.
    pose proof (Z.mod_pos_bound (Z.pos m * 2 ^ 53) (Z.pos m) ltac:(lia)) as Hr.
    unfold Z.modulo in Hr.
    destruct (Z.div_eucl (Z.pos m * 2 ^ 53) (Z.pos m)) as [q r0].
    assert (q = 2 ^ 53) as -> by nia.
    assert (r0 = 0) as -> by nia. done. }
  assert (new_location (Z.pos m) 0 = loc_Exact) as ->.
  { unfold new_location, new_location_even, new_location_odd.
    by destruct (Z.even (Z.pos m)). }
  destruct s; vm_compute; reflexivity.
Qed.

Lemma fsub_self s m e :
  fsub (S754_finite s m e) (S754_finite s m e) = pos_zero.
Proof. unfold fsub, SFsub. by rewrite Z.sub_diag. Qed.

Lemma strict_eq_refl (x : number) : isNaN x = false -> strict_eq x x = true.
Proof.
  unfold strict_eq, SFeqb.
  destruct x as [[]|[]| |[] m e]; simpl; try done; intros _;
    rewrite Z.compare_refl;
    assert (Pos.compare_cont Eq m m = Eq) as ->
      by (apply Pos.compare_cont_refl); done.
Qed.

(** ** Trap sizes per layer: [calculateLayerTrap] *)

(** C4 (as amended).  [calculateLayerTrap] returns [minTrap] when
    [totalLayers === 1] and otherwise
    [maxTrap - (layerIndex / (totalLayers - 1)) * (maxTrap - minTrap)],
    in binary64 arithmetic.  For finite sizes index 0 yields [maxTrap];
    index [totalLayers - 1] yields [maxTrap - (maxTrap - minTrap)], which
    is [minTrap] when [minTrap] is zero.  [layerTrap(0, 1, 0, 0.03125)]
    is 0, [layerTrap(0, 5, 0, 0.03125)] is 0.03125,
    [layerTrap(4, 5, 0, 0.03125)] is 0 and [layerTrap(2, 5, 0, 0.03125)]
    lies strictly between 0 and 0.03125. *)
Theorem calculateLayerTrap_spec
    (layerIndex totalLayers minTrap maxTrap : number) :
  (strict_eq totalLayers (of_Z 1) = true ->
   calculateLayerTrap layerIndex totalLayers minTrap maxTrap = minTrap) /\
  (strict_eq totalLayers (of_Z 1) = false ->
   calculateLayerTrap layerIndex totalLayers minTrap maxTrap =
   fsub maxTrap
     (fmul (fdiv layerIndex (fsub totalLayers (of_Z 1)))
        (fsub maxTrap minTrap))) /\
  (strict_eq totalLayers (of_Z 1) = false ->
   lt pos_zero (fsub totalLayers (of_Z 1)) = true ->
   is_finite maxTrap = true -> is_finite (fsub maxTrap minTrap) = true ->
   strict_eq (calculateLayerTrap (of_Z 0) totalLayers minTrap maxTrap) maxTrap
   = true) /\
  (strict_eq totalLayers (of_Z 1) = false ->
   lt pos_zero (fsub totalLayers (of_Z 1)) = true ->
   is_finite (fsub totalLayers (of_Z 1)) = true ->
   valid_binary prec emax (fsub maxTrap minTrap) = true ->
   calculateLayerTrap (fsub totalLayers (of_Z 1)) totalLayers minTrap maxTrap
   = fsub maxTrap (fsub maxTrap minTrap)) /\
  (strict_eq totalLayers (of_Z 1) = false ->
   lt pos_zero (fsub totalLayers (of_Z 1)) = true ->
   is_finite (fsub totalLayers (of_Z 1)) = true ->
   strict_eq minTrap pos_zero = true ->
   is_finite maxTrap = true -> valid_binary prec emax maxTrap = true ->
   strict_eq
     (calculateLayerTrap (fsub totalLayers (of_Z 1)) totalLayers minTrap maxTrap)
     minTrap = true) /\
  (calculateLayerTrap (of_Z 0) (of_Z 1) (of_Z 0) (of_decimal false 3125 (-5))
   = of_Z 0 /\
   calculateLayerTrap (of_Z 0) (of_Z 5) (of_Z 0) (of_decimal false 3125 (-5))
   = of_decimal false 3125 (-5) /\
   calculateLayerTrap (of_Z 4) (of_Z 5) (of_Z 0) (of_decimal false 3125 (-5))
   = of_Z 0 /\
   lt (of_Z 0)
      (calculateLayerTrap (of_Z 2) (of_Z 5) (of_Z 0) (of_decimal false 3125 (-5)))
   = true /\
   lt (calculateLayerTrap (of_Z 2) (of_Z 5) (of_Z 0) (of_decimal false 3125 (-5)))
      (of_decimal false 3125 (-5))
   = true).
Proof.
  assert (forall x, lt pos_zero x = true -> is_finite x = true ->
            exists m e, x = S754_finite false m e) as Hpos.
  { intros [[]|[]| |[] m e]; try done. intros _ _. by exists m, e. }
  split; [|split; [|split; [|split; [|split]]]].
  - intros H1. unfold calculateLayerTrap. by rewrite H1.
  - intros H1. unfold calculateLayerTrap. by rewrite H1.
  - intros H1 Hn Hmax Hdiff. unfold calculateLayerTrap. rewrite H1.
    change (of_Z 0) with pos_zero.
    assert (fdiv pos_zero (fsub totalLayers (of_Z 1)) = pos_zero) as ->.
    { by destruct (fsub totalLayers (of_Z 1)) as [[]|[]| |[] m e]. }
    assert (exists s, fmul pos_zero (fsub maxTrap minTrap) = S754_zero s)
      as [s ->].
    { destruct (fsub maxTrap minTrap) as [s|s| |s m e]; try done;
        eexists; done. }
    destruct maxTrap as [[]|[]| |[] m e], s; try done;
      apply strict_eq_refl; done.
  - intros H1 Hn Hfin Hvalid. unfold calculateLayerTrap. rewrite H1.
    destruct (Hpos _ Hn Hfin) as (m & e & ->).
    by rewrite fdiv_self, fmul_one.
  - intros H1 Hn Hfin Hmin Hmax Hvalid. unfold calculateLayerTrap. rewrite H1.
    destruct (Hpos _ Hn Hfin) as (m & e & ->).
    rewrite fdiv_self.
    destruct minTrap as [smin|[]| |[] mm em]; try done.
    destruct maxTrap as [smax|[]| |smax mx ex]; try done.
    + by destruct smax, smin.
    + assert (fsub (S754_finite smax mx ex) (S754_zero smin)
              = S754_finite smax mx ex) as -> by done.
      rewrite fmul_one by done. by rewrite fsub_self.
  - vm_compute. done.
Qed.

(** The index of the darkest layer does not always yield [minTrap]:
    with a trap range "0.01" to "0.05", which [validateRange] accepts,
    and two layers, the second layer gets 0.010000000000000002. *)
Lemma calculateLayerTrap_last_differs :
  exists r w,
    validateRange "0.01" "0.05" = Ok (r, w) /\
    strict_eq (calculateLayerTrap (of_Z 1) (of_Z 2) (min r) (max r)) (min r)
    = false.
Proof.
  exists {| min := of_decimal false 1 (-2); max := of_decimal false 5 (-2) |},
    false.
  split; vm_compute; reflexivity.
Qed.

(** ** Parsing trap sizes: [parse] *)

Lemma parse_nonempty (spec : string) :
  spec <> EmptyString ->
  parse spec =
  match notation_of (trim spec) with
  | Points => parsePoints (trim spec)
  | Fraction => parseFraction (trim spec)
  | Decimal => parseDecimal (trim spec)
  end.
Proof. by destruct spec. Qed.

(** A point value that is not below zero gives a length that is not
    below zero. *)
Lemma points_to_inches_nonneg (points : number) :
  isNaN points = false -> lt points pos_zero = false ->
  le pos_zero (fdiv points (of_Z 72)) = true.
Proof.
  change (of_Z 72) with (S754_finite false 5066549580791808 (-46)).
  destruct points as [s|[]| |[] m e]; try done.
  intros _ _.
  pose proof (SFdiv_finite_sign prec emax false m e false
                5066549580791808 (-46)) as Hs.
  unfold fdiv. simpl xorb in Hs.
  destruct (SFdiv prec emax _ _) as [s'|s'| |s' m' e']; simpl in Hs;
    try done; by subst s'.
Qed.

(** C6 (as amended).  [parse] fails with an invalid-format error for
    the empty string, when [parseFloat] finds no number at the start of
    the residual text (the point value, a part of the fraction, or the
    decimal text), and when a fraction does not have exactly two parts;
    it fails with the division-by-zero error for a fraction with two
    numeric parts whose denominator is zero, and with the negative-value
    error for a point value below zero.  The inputs "" and "abc" fail,
    "1/0" fails with division by zero and "-4pt" with negative value. *)
Theorem parse_failures (spec : string) :
  (spec = EmptyString ->
   parse spec = Err EmptySpecification
   /\ kind_of EmptySpecification = InvalidFormat) /\
  (spec <> EmptyString ->
   (forall t, t ∈ residual_texts (trim spec) ->
              isNaN (parseFloat t) = true ->
              exists e, parse spec = Err e /\ kind_of e = InvalidFormat) /\
   (notation_of (trim spec) = Fraction ->
    length (split_char "/" (trim spec)) <> 2%nat ->
    parse spec = Err InvalidFractionParts
    /\ kind_of InvalidFractionParts = InvalidFormat) /\
   (forall p0 p1,
      notation_of (trim spec) = Fraction ->
      split_char "/" (trim spec) = [p0; p1] ->
      strict_eq (parseFloat (trim p1)) pos_zero = true ->
      fails (parse spec) /\
      (isNaN (parseFloat (trim p0)) = false ->
       parse spec = Err DivisionByZeroInFraction
       /\ kind_of DivisionByZeroInFraction = DivisionByZero)) /\
   (forall t,
      notation_of (trim spec) = Points ->
      residual_texts (trim spec) = [t] ->
      lt (parseFloat t) pos_zero = true ->
      parse spec = Err PointsNegative
      /\ kind_of PointsNegative = NegativeValue)) /\
  (parse "" = Err EmptySpecification /\
   parse "abc" = Err InvalidDecimalFormat /\
   parse "1/0" = Err DivisionByZeroInFraction /\
   parse "-4pt" = Err PointsNegative).
Proof.
  split; [|split].
  - by intros ->.
  - intros Hne. rewrite (parse_nonempty spec Hne).
    unfold residual_texts.
    split; [|split; [|split]].
    + intros t Ht Hnan.
      destruct (notation_of (trim spec)).
      * apply list_elem_of_singleton in Ht as ->.
        exists InvalidPointFormat. split; [|done].
        unfold parsePoints. by rewrite Hnan.
      * unfold parseFraction.
        destruct (split_char "/" (trim spec)) as [|p0 [|p1 [|p2 ps]]];
          try (by exists InvalidFractionParts).
        exists InvalidFractionNumbers. split; [|done].
        apply list_elem_of_In in Ht. simpl in Ht.
        destruct Ht as [<-|[<-|[]]]; rewrite Hnan; [done|].
        by rewrite orb_true_r.
      * apply list_elem_of_singleton in Ht as ->.
        exists InvalidDecimalFormat. split; [|done].
        unfold parseDecimal. by rewrite Hnan.
    + intros -> Hlen. split; [|done]. unfold parseFraction.
      by destruct (split_char "/" (trim spec)) as [|p0 [|p1 [|p2 ps]]].
    + intros p0 p1 -> Hsplit Hzero. unfold parseFraction. rewrite Hsplit.
      assert (isNaN (parseFloat (trim p1)) = false) as Hn1
          by (by destruct (parseFloat (trim p1))).
      rewrite Hn1, Hzero, orb_false_r. split.
      * destruct (isNaN (parseFloat (trim p0))); eexists; done.
      * by intros ->.
    + intros t -> [= <-] Hneg. split; [|done].
      unfold parsePoints. rewrite Hneg.
      by destruct (parseFloat _) as [[]|[]| |[] m e].
  - vm_compute. done.
Qed.

(** Text that is not numeric as a whole is accepted when it starts with
    a number: the residual text of "12abc" is "12abc", and it parses as
    12. *)
Lemma parse_accepts_numeric_prefix :
  residual_texts (trim "12abc") = ["12abc"%string] /\
  numeric_text "12abc" = false /\
  parse "12abc" = Ok (of_Z 12).
Proof. vm_compute. done. Qed.

(** C9 (as amended).  In the points notation the length that [parse]
    returns is greater than or equal to 0.  In the fraction and decimal
    notations [parse] returns the quotient or the number as written,
    whatever its sign; [validateRange] then rejects a range of which a
    bound is below 0, so the bounds it returns are not below 0. *)
Theorem parse_points_nonnegative (spec : string) (v : number) :
  (parse spec = Ok v -> notation_of (trim spec) = Points ->
   le pos_zero v = true) /\
  (parse spec = Ok v -> notation_of (trim spec) = Decimal ->
   v = parseFloat (trim spec)) /\
  (parse spec = Ok v -> notation_of (trim spec) = Fraction ->
   exists p0 p1, split_char "/" (trim spec) = [p0; p1]
                 /\ v = fdiv (parseFloat (trim p0)) (parseFloat (trim p1))) /\
  (forall minSpec maxSpec r w,
     validateRange minSpec maxSpec = Ok (r, w) ->
     parse minSpec = Ok (min r) /\ parse maxSpec = Ok (max r) /\
     lt (min r) pos_zero = false /\ lt (max r) pos_zero = false).
Proof.
  split; [|split; [|split]].
  - intros Hok Hnot. destruct spec as [|c spec']; [done|].
    rewrite parse_nonempty, Hnot in Hok by done.
    unfold parsePoints in Hok.
    destruct (isNaN (parseFloat _)) eqn:Hnan; [done|].
    destruct (lt (parseFloat _) pos_zero) eqn:Hneg; [done|].
    injection Hok as <-. by apply points_to_inches_nonneg.
  - intros Hok Hnot. destruct spec as [|c spec']; [done|].
    rewrite parse_nonempty, Hnot in Hok by done.
    unfold parseDecimal in Hok.
    destruct (isNaN (parseFloat _)); [done|]. by injection Hok as <-.
  - intros Hok Hnot. destruct spec as [|c spec']; [done|].
    rewrite parse_nonempty, Hnot in Hok by done.
    unfold parseFraction in Hok.
    destruct (split_char "/" _) as [|p0 [|p1 [|p2 ps]]]; try done.
    destruct (isNaN _ || isNaN _); [done|].
    destruct (strict_eq _ pos_zero); [done|].
    injection Hok as <-. by exists p0, p1.
  - intros minSpec maxSpec rg w Hok. unfold validateRange in Hok.
    destruct (parse minSpec) as [vmin|]; [|done].
    destruct (parse maxSpec) as [vmax|]; [|done].
    destruct (lt vmin pos_zero || lt vmax pos_zero) eqn:Hneg; [done|].
    destruct (gt vmin vmax); [done|].
    injection Hok as <- <-. simpl.
    apply orb_false_iff in Hneg as [-> ->]. done.
Qed.

(** A fraction or a decimal below zero is parsed, not rejected:
    "-1/32" gives -0.03125 and "-0.5" gives -0.5. *)
Lemma parse_negative_fraction :
  exists v v',
    parse "-1/32" = Ok v /\ lt v pos_zero = true /\ le pos_zero v = false /\
    parse "-0.5" = Ok v' /\ lt v' pos_zero = true /\ le pos_zero v' = false.
Proof.
  exists (S754_finite true 4503599627370496 (-57)),
    (S754_finite true 4503599627370496 (-53)).
  vm_compute. done.
Qed.

(** * The unit tests of the repository, replayed on the model *)

Example test_parse_values :
  parse "1/32" = Ok (of_decimal false 3125 (-5)) /\
  parse "1/64" = Ok (of_decimal false 15625 (-6)) /\
  parse "0.03125" = Ok (of_decimal false 3125 (-5)) /\
  parse "0.5" = Ok (of_decimal false 5 (-1)) /\
  parse "1.0" = Ok (of_Z 1) /\
  parse "2pt" = Ok (fdiv (of_Z 2) (of_Z 72)) /\
  parse "72pt" = Ok (of_Z 1) /\
  parse "  1/32  " = Ok (of_decimal false 3125 (-5)) /\
  parse " 4pt " = Ok (fdiv (of_Z 4) (of_Z 72)) /\
  parse "invalid" = Err InvalidDecimalFormat.
Proof. vm_compute. done. Qed.

Example test_validateRange :
  validateRange "0" "1/32"
  = Ok ({| min := of_Z 0; max := of_decimal false 3125 (-5) |}, false) /\
  validateRange "1/32" "0" = Err MinimumAboveMaximum /\
  validateRange "-1" "1/32" = Err TrapSizesNegative.
Proof. vm_compute. done. Qed.

Example test_inchesToPixels :
  inchesToPixels (of_Z 1) (of_Z 300) = of_Z 300 /\
  inchesToPixels (of_decimal false 5 (-1)) (of_Z 300) = of_Z 150 /\
  inchesToPixels (fdiv (of_Z 1) (of_Z 32)) (of_Z 3000) = of_Z 94.
Proof. vm_compute. done. Qed.

(** The end-to-end example of the specification: red (lighter) next to
    black, a trap range of 0 to 4pt at 72 dpi, that is 0 to 4 pixels.
    The red layer gets radius 4 and grows four columns into the black
    area; the black layer gets radius 0 and stays as extracted. *)
Example test_two_color_document :
  let sorted := [entry_of (xff, x00, x00) 100; entry_of (x00, x00, x00) 100] in
  let rg := {| min := of_Z 0; max := fdiv (of_Z 4) (of_Z 72) |} in
  let trapped :=
    trapLayers document20 rg (of_Z 72) (separateColors red_and_black sorted) in
  validateRange "0" "4pt" = Ok (rg, false) /\
  analyzeDocument red_and_black = Ok sorted /\
  map (option_map (fun l => to_Z l.1)) trapped = [Some (Some 4); Some (Some 0)] /\
  opaque_left_of 10 (extractSingleColor red_and_black red) = true /\
  match trapped with
  | [Some (_, img0); Some (_, img1)] =>
      opaque_left_of 14 img0 = true /\ opaque_from 10 img1 = true
  | _ => False
  end.
Proof. vm_compute. done. Qed.

(** * The theorems at concrete inputs *)

Lemma well_formed_two_colors : well_formed two_colors.
Proof. unfold well_formed. simpl. lia. Defined.

Lemma well_formed_all_red : well_formed all_red.
Proof. unfold well_formed. simpl. lia. Defined.

Lemma well_formed_top_row_mask : well_formed top_row_mask.
Proof. unfold well_formed. simpl. lia. Defined.

Lemma inside_3x3 x y : 0 <= x < 3 -> 0 <= y < 3 -> inside 3 3 x y.
Proof. intros Hx Hy. split; assumption. Defined.

(** Under the top-row mask one pass makes (1, 0) red: it is one step
    from the red centre and the mask is opaque there. *)
Lemma applyDilationWithMask_reach_witness :
  well_formed two_colors /\ same_size (Some top_row_mask) two_colors /\
  0 <= 1 /\ inside 3 3 1 0 /\
  opaque (applyDilationWithMask two_colors 1 (Some top_row_mask)) 1 0 = true /\
  (exists p, opaque two_colors p.1 p.2 = true
             /\ within_steps 3 3 (Z.to_nat 1) p (1, 0)) /\
  (opaque two_colors 1 0 = false -> mask_permits (Some top_row_mask) 1 0).
Proof.
  assert (same_size (Some top_row_mask) two_colors) as Hsize
      by (split; [exact well_formed_top_row_mask|split; reflexivity]).
  assert (inside 3 3 1 0) as Hin by (apply inside_3x3; lia).
  assert (opaque (applyDilationWithMask two_colors 1 (Some top_row_mask)) 1 0
          = true) as Hop by (vm_compute; reflexivity).
  split; [exact well_formed_two_colors|]. split; [exact Hsize|].
  split; [lia|]. split; [exact Hin|]. split; [exact Hop|].
  apply (applyDilationWithMask_reach two_colors 1 (Some top_row_mask)
           well_formed_two_colors Hsize ltac:(lia) 1 0 Hin Hop).
Defined.

(** The pixel (2, 1) has the red centre to its left and the dark corner
    below it: below comes first, so it takes the dark colour. *)
Lemma dilate_pass_spec_witness :
  well_formed two_colors /\ same_size None two_colors /\
  opaque two_colors 2 1 = false /\ mask_permits None 2 1 /\
  first_opaque_neighbour two_colors 2 1 = Some (2, 2) /\
  pixel (dilate_pass None two_colors) 2 1 = pixel two_colors 2 2.
Proof.
  assert (first_opaque_neighbour two_colors 2 1 = Some (2, 2)) as Hfirst
      by (vm_compute; reflexivity).
  split; [exact well_formed_two_colors|]. split; [exact I|].
  split; [vm_compute; reflexivity|]. split; [exact I|]. split; [exact Hfirst|].
  destruct (dilate_pass_spec None two_colors well_formed_two_colors I)
    as (_ & Hpx & _).
  destruct (Hpx 2 1 (inside_3x3 2 1 ltac:(lia) ltac:(lia))) as (_ & Hgrow & _).
  exact (Hgrow ltac:(vm_compute; reflexivity) I (2, 2) Hfirst).
Defined.

Lemma extractSingleColor_spec_witness :
  inside (width two_colors) (height two_colors) 1 1 /\
  matches_color two_colors red 1 1 = true /\
  pixel (extractSingleColor two_colors red) 1 1
  = [Some xff; Some x00; Some x00; Some xff].
Proof.
  assert (inside (width two_colors) (height two_colors) 1 1) as Hin
      by (apply inside_3x3; lia).
  assert (matches_color two_colors red 1 1 = true) as Hm
      by (vm_compute; reflexivity).
  split; [exact Hin|]. split; [exact Hm|].
  destruct (extractSingleColor_spec two_colors red) as (_ & _ & Hpx).
  destruct (Hpx 1 1 Hin) as (Hmatch & _).
  exact (Hmatch Hm).
Defined.

(** For the red layer (index 0) the mask is opaque at the dark corner. *)
Lemma createDarkerColorMaskFromLayers_spec_witness :
  Forall (fun cl => width (pixelData cl) = doc_width document3
                    /\ height (pixelData cl) = doc_height document3
                    /\ well_formed (pixelData cl)) two_layers /\
  inside (doc_width document3) (doc_height document3) 2 2 /\
  (opaque (createDarkerColorMaskFromLayers document3 0 two_layers) 2 2 = true
   <-> exists j cl, (0 < j)%nat /\ two_layers !! j = Some cl
                    /\ opaque (pixelData cl) 2 2 = true).
Proof.
  assert (Forall (fun cl => width (pixelData cl) = doc_width document3
                            /\ height (pixelData cl) = doc_height document3
                            /\ well_formed (pixelData cl)) two_layers) as Hall.
  { repeat constructor; simpl; lia. }
  assert (inside (doc_width document3) (doc_height document3) 2 2) as Hin
      by (apply inside_3x3; lia).
  split; [exact Hall|]. split; [exact Hin|].
  destruct (createDarkerColorMaskFromLayers_spec document3 two_layers 0%nat Hall)
    as (Hmask & _).
  exact (proj1 (Hmask 2 2 Hin)).
Defined.

Lemma erode_pass_spec_witness :
  well_formed all_red /\
  inside (width all_red) (height all_red) 0 0 /\
  inside (width all_red) (height all_red) (0 + 2) (0 + 2) /\
  inside (width all_red) (height all_red) 1 1 /\
  (opaque (applyErosion all_red 1) 1 1 = true <-> 1 = 0 + 1 /\ 1 = 0 + 1).
Proof.
  assert (forall x y, 0 <= x < 3 -> 0 <= y < 3 -> opaque all_red x y = true)
    as Hred.
  { intros x y Hx Hy.
    assert (x = 0 \/ x = 1 \/ x = 2) as [-> | [-> | ->]] by lia;
      (assert (y = 0 \/ y = 1 \/ y = 2) as [-> | [-> | ->]] by lia);
      vm_compute; reflexivity. }
  split; [exact well_formed_all_red|].
  split; [apply inside_3x3; lia|]. split; [apply inside_3x3; lia|].
  split; [apply inside_3x3; lia|].
  destruct (erode_pass_spec all_red well_formed_all_red) as (_ & _ & _ & Hblock).
  apply (Hblock 0 0); try (apply inside_3x3; lia).
  intros x y [Hx Hy]. simpl in Hx, Hy. split.
  - intros _. lia.
  - intros _. apply Hred; lia.
Defined.

Lemma calculateLayerTrap_spec_witness :
  strict_eq (of_Z 5) (of_Z 1) = false /\
  lt pos_zero (fsub (of_Z 5) (of_Z 1)) = true /\
  is_finite (of_decimal false 3125 (-5)) = true /\
  is_finite (fsub (of_decimal false 3125 (-5)) (of_Z 0)) = true /\
  strict_eq
    (calculateLayerTrap (of_Z 0) (of_Z 5) (of_Z 0) (of_decimal false 3125 (-5)))
    (of_decimal false 3125 (-5)) = true.
Proof.
  split; [vm_compute; reflexivity|]. split; [vm_compute; reflexivity|].
  split; [vm_compute; reflexivity|]. split; [vm_compute; reflexivity|].
  destruct (calculateLayerTrap_spec (of_Z 0) (of_Z 5) (of_Z 0)
              (of_decimal false 3125 (-5))) as (_ & _ & Hfirst & _).
  apply Hfirst; vm_compute; reflexivity.
Defined.

(** No colour of the 3 x 3 example has 100 pixels: the analysis fails. *)
Lemma significantColors_spec_witness :
  let kept := entry_of (xff, x00, x00) 100 in
  (0 <= 4000 * 4000 <= 10 ^ 15 /\
   minPixelThreshold (4000 * 4000) = of_Z 1600) /\
  (0 <= width red_and_black /\ 0 <= height red_and_black /\
   width red_and_black * height red_and_black <= 10 ^ 15 /\
   kept ∈ colors (analyzeColors red_and_black) /\
   significance_threshold (width red_and_black * height red_and_black)
   <= count kept /\
   kept ∈ significantColors (analyzeColors red_and_black)) /\
  length (significantColors (analyzeColors two_colors)) = 0%nat /\
  analyzeDocument two_colors = Err NoSignificantColorsFound /\
  kind_of NoSignificantColorsFound = NoSignificantColors.
Proof.
  intros kept.
  assert (0 <= 4000 * 4000 <= 10 ^ 15) as Hsize by lia.
  assert (kept ∈ colors (analyzeColors red_and_black)) as Hkept
      by (apply list_elem_of_In; vm_compute; left; reflexivity).
  assert (significance_threshold (width red_and_black * height red_and_black)
          <= count kept) as Henough by (vm_compute; discriminate).
  assert (length (significantColors (analyzeColors two_colors)) = 0%nat)
    as Hnone by (vm_compute; reflexivity).
  split; [split; [exact Hsize|]|split].
  - destruct (significantColors_spec two_colors) as (_ & _ & Hthr & _).
    exact (Hthr (4000 * 4000) Hsize).
  - split; [simpl; lia|]. split; [simpl; lia|]. split; [simpl; lia|].
    split; [exact Hkept|]. split; [exact Henough|].
    destruct (significantColors_spec red_and_black) as (_ & _ & _ & Hkeep & _).
    exact (proj2 (Hkeep ltac:(simpl; lia) ltac:(simpl; lia) ltac:(simpl; lia)
                    kept Hkept) Henough).
  - split; [exact Hnone|].
    destruct (significantColors_spec two_colors)
      as (_ & _ & _ & _ & _ & _ & Hzero & _).
    exact (Hzero Hnone).
Defined.

Lemma parse_failures_witness :
  "abcpt"%string <> EmptyString /\
  "abc"%string ∈ residual_texts (trim "abcpt") /\
  isNaN (parseFloat "abc") = true /\
  exists e, parse "abcpt" = Err e /\ kind_of e = InvalidFormat.
Proof.
  assert ("abcpt"%string <> EmptyString) as Hne by discriminate.
  assert ("abc"%string ∈ residual_texts (trim "abcpt")) as Hin
      by (vm_compute; left).
  assert (isNaN (parseFloat "abc") = true) as Hnan by (vm_compute; reflexivity).
  split; [exact Hne|]. split; [exact Hin|]. split; [exact Hnan|].
  destruct (parse_failures "abcpt") as (_ & Hfail & _).
  destruct (Hfail Hne) as (Hformat & _).
  exact (Hformat "abc"%string Hin Hnan).
Defined.

Lemma parse_points_nonnegative_witness :
  parse "4pt" = Ok (fdiv (of_Z 4) (of_Z 72)) /\
  notation_of (trim "4pt") = Points /\
  le pos_zero (fdiv (of_Z 4) (of_Z 72)) = true.
Proof.
  assert (parse "4pt" = Ok (fdiv (of_Z 4) (of_Z 72))) as Hok
      by (vm_compute; reflexivity).
  assert (notation_of (trim "4pt") = Points) as Hpt
      by (vm_compute; reflexivity).
  split; [exact Hok|]. split; [exact Hpt|].
  destruct (parse_points_nonnegative "4pt" (fdiv (of_Z 4) (of_Z 72)))
    as (Hpoints & _).
  exact (Hpoints Hok Hpt).
Defined.

(** The 3 x 3 example has 9 pixels, 2 of which are not transparent. *)
Lemma analyzeColors_totalPixels_witness :
  0 <= width two_colors /\ 0 <= height two_colors /\
  width two_colors * height two_colors <= 10 ^ 15 /\
  totalPixels (analyzeColors two_colors)
  = Z.of_nat (length (scan_order (width two_colors) (height two_colors))) /\
  sum_counts (colors (analyzeColors two_colors)) = 2 /\
  minPixelThreshold (totalPixels (analyzeColors two_colors))
  = of_Z (significance_threshold (3 * 3)) /\
  significantColors (analyzeColors two_colors)
  = List.filter (fun c => significance_threshold (3 * 3) <=? count c)
      (colors (analyzeColors two_colors)).
Proof.
  assert (0 <= width two_colors) as Hw by (simpl; lia).
  assert (0 <= height two_colors) as Hh by (simpl; lia).
  assert (width two_colors * height two_colors <= 10 ^ 15) as Harea
      by (simpl; lia).
  split; [exact Hw|]. split; [exact Hh|]. split; [exact Harea|].
  destruct (analyzeColors_totalPixels two_colors)
    as (_ & Hall & _ & _ & _ & Hsum & _ & Hfilter).
  split; [exact (Hall Hw Hh)|].
  split; [rewrite Hsum; vm_compute; reflexivity|].
  destruct (Hfilter Hw Hh Harea) as (Hthr & Hsig & _).
  split; [exact Hthr|exact Hsig].
Defined.

(** * Further properties *)

Import JSExt TrapSizeParserExt TrappingEngineExt TrapperControllerExt SpecExt.

(** ** Dilation: what it reaches, what it keeps *)

Lemma spreads_to_more mask src n p :
  spreads_to mask src n p -> spreads_to mask src (S n) p.
Proof.
  induction 1 as [n p Hin Hop|n q p _ IH Hadj Hin Hperm].
  - by apply spread_source.
  - by apply spread_step with q.
Qed.

Lemma spreads_to_inside mask src n p :
  spreads_to mask src n p -> inside (width src) (height src) p.1 p.2.
Proof. by destruct 1. Qed.

(** The cells the spreading passes through lie within [n] steps. *)
Lemma spreads_to_within mask src n p :
  spreads_to mask src n p ->
  exists q, opaque src q.1 q.2 = true
            /\ within_steps (width src) (height src) n q p.
Proof.
  induction 1 as [n p Hin Hop|n q p _ (q0 & Hq0 & Hsteps) Hadj Hin Hperm].
  - exists p. split; [done|]. by apply steps_here.
  - exists q0. split; [done|]. by apply steps_more with q.
Qed.

Lemma adjacent4_neighbours4 q x y :
  adjacent4 q (x, y) -> In q (neighbours4 x y).
Proof.
  destruct q as [qx qy]. unfold adjacent4, neighbours4. simpl. intros Hadj.
  assert ((qx = x /\ qy = y - 1) \/ (qx = x + 1 /\ qy = y)
          \/ (qx = x /\ qy = y + 1) \/ (qx = x - 1 /\ qy = y))
    as [[-> ->] | [[-> ->] | [[-> ->] | [-> ->]]]] by lia; auto.
Qed.

(** An opaque pixel is carried over by a pass. *)
Lemma dilate_pass_keeps mask current x y :
  well_formed current -> inside (width current) (height current) x y ->
  opaque current x y = true ->
  pixel (dilate_pass mask current) x y = pixel current x y.
Proof.
  intros Hwf Hin Hop. rewrite dilate_pass_pixel by done. by rewrite Hop.
Qed.

(** A transparent pixel that the mask permits and that has an opaque
    neighbour is opaque after the pass. *)
Lemma dilate_pass_fills mask current x y q :
  well_formed current -> same_size mask current ->
  inside (width current) (height current) x y ->
  mask_permits mask x y ->
  adjacent4 q (x, y) -> inside (width current) (height current) q.1 q.2 ->
  opaque current q.1 q.2 = true ->
  opaque (dilate_pass mask current) x y = true.
Proof.
  intros Hwf Hsize Hin Hperm Hadj Hq Hopq.
  pose proof (dilate_pass_pixel mask current Hwf x y Hin) as Hpx.
  destruct (opaque current x y) eqn:Hop.
  { apply pixel_eq_opaque in Hpx. congruence. }
  apply (mask_forbids_permits mask current x y Hsize Hin) in Hperm.
  rewrite Hperm in Hpx.
  destruct (first_opaque_neighbour current x y) as [p|] eqn:Hfirst.
  - apply pixel_eq_opaque in Hpx. rewrite Hpx.
    unfold first_opaque_neighbour in Hfirst.
    apply find_some in Hfirst as [_ Hp]. by apply andb_true_iff in Hp as [_ ?].
  - exfalso. unfold first_opaque_neighbour in Hfirst.
    pose proof (find_none _ _ Hfirst q (adjacent4_neighbours4 q x y Hadj)) as Hn.
    simpl in Hn. apply in_bounds_inside in Hq. by rewrite Hq, Hopq in Hn.
Qed.

Lemma same_size_passes mask src n :
  well_formed src -> same_size mask src ->
  same_size mask (Nat.iter n (dilate_pass mask) src).
Proof.
  intros Hwf Hsize.
  destruct (dilate_passes_invariant mask src n Hwf) as (_ & Hw & Hh).
  unfold same_size in *. destruct mask; [|done]. by rewrite Hw, Hh.
Qed.

Lemma dilate_passes_spread mask src n x y :
  well_formed src -> same_size mask src ->
  inside (width src) (height src) x y ->
  opaque (Nat.iter n (dilate_pass mask) src) x y = true <->
  spreads_to mask src n (x, y).
Proof.
  intros Hwf Hsize. revert x y. induction n as [|n IH]; intros x y Hin.
  - simpl. split.
    + intros Hop. by apply spread_source.
    + by inversion 1.
  - destruct (dilate_passes_invariant mask src n Hwf) as (Hwfn & Hwn & Hhn).
    pose proof (same_size_passes mask src n Hwf Hsize) as Hsn.
    assert (inside (width (Nat.iter n (dilate_pass mask) src))
              (height (Nat.iter n (dilate_pass mask) src)) x y) as Hinn
        by (by rewrite Hwn, Hhn).
    simpl. split.
    + intros Hop.
      destruct (dilate_pass_grows mask _ x y Hwfn Hsn Hinn Hop)
        as [Hold|(Hperm & p & Hadj & Hp & Hopp)].
      * by apply spreads_to_more, IH.
      * rewrite Hwn, Hhn in Hp. destruct p as [px py].
        apply spread_step with (px, py); [by apply IH|done..].
    + intros Hs. inversion Hs as [n' p Hp Hop|n' q p Hq Hadj Hp Hperm]; subst.
      * simpl in Hop. 
        assert (opaque (Nat.iter n (dilate_pass mask) src) x y = true) as Hn
            by (apply IH; [done|by apply spread_source]).
        by rewrite (pixel_eq_opaque _ _ _ _ _ _
                      (dilate_pass_keeps mask _ x y Hwfn Hinn Hn)).
      * destruct q as [qx qy].
        pose proof (spreads_to_inside _ _ _ _ Hq) as Hqin. simpl in Hqin.
        apply (dilate_pass_fills mask _ x y (qx, qy)); try done.
        -- by rewrite Hwn, Hhn.
        -- by apply IH.
Qed.

Lemma applyDilationWithMask_iter src r mask :
  0 <= r ->
  applyDilationWithMask src r mask = Nat.iter (Z.to_nat r) (dilate_pass mask) src.
Proof.
  intros Hr. destruct (decide (r = 0)) as [->|Hne]; [done|].
  apply applyDilationWithMask_passes. lia.
Qed.

(** X1. The dilation turns opaque exactly the pixels that the colour
    can spread to: a pixel of the result is opaque if and only if it is
    opaque in the input or is reached from an opaque input pixel in at
    most [radius] 4-connected steps through cells that the mask permits
    (every cell, when there is no mask). *)
Theorem applyDilationWithMask_exact (sourceData : ImageData) (radiusPixels : Z)
    (mask : option ImageData) (x y : Z) :
  well_formed sourceData -> same_size mask sourceData -> 0 <= radiusPixels ->
  inside (width sourceData) (height sourceData) x y ->
  (opaque (applyDilationWithMask sourceData radiusPixels mask) x y = true <->
   spreads_to mask sourceData (Z.to_nat radiusPixels) (x, y)).
Proof.
  intros Hwf Hsize Hr Hin. rewrite applyDilationWithMask_iter by done.
  by apply dilate_passes_spread.
Qed.

Lemma applyDilationWithMask_iter_any src r mask :
  applyDilationWithMask src r mask = Nat.iter (Z.to_nat r) (dilate_pass mask) src.
Proof.
  destruct (decide (0 <= r)) as [Hr|Hr]; [by apply applyDilationWithMask_iter|].
  unfold applyDilationWithMask. destruct (r <=? 0) eqn:E; [|lia].
  by replace (Z.to_nat r) with 0%nat by lia.
Qed.

Lemma dilate_passes_keep mask current k x y :
  well_formed current -> inside (width current) (height current) x y ->
  opaque current x y = true ->
  pixel (Nat.iter k (dilate_pass mask) current) x y = pixel current x y.
Proof.
  intros Hwf Hin Hop. induction k as [|k IH]; [done|].
  destruct (dilate_passes_invariant mask current k Hwf) as (Hwfk & Hwk & Hhk).
  simpl. rewrite dilate_pass_keeps; [done|done|by rewrite Hwk, Hhk|].
  by rewrite (pixel_eq_opaque _ _ _ _ _ _ IH).
Qed.

(** X2. The dilation never changes a pixel once it is opaque: a pixel
    that is opaque after radius [r] has the same four channels after
    every larger radius; with [r <= 0] this says that the opaque pixels
    of the input are kept as they are. *)
Theorem applyDilationWithMask_keeps (sourceData : ImageData) (r r' : Z)
    (mask : option ImageData) (x y : Z) :
  well_formed sourceData -> r <= r' ->
  inside (width sourceData) (height sourceData) x y ->
  opaque (applyDilationWithMask sourceData r mask) x y = true ->
  pixel (applyDilationWithMask sourceData r' mask) x y =
  pixel (applyDilationWithMask sourceData r mask) x y.
Proof.
  intros Hwf Hr Hin. rewrite !applyDilationWithMask_iter_any.
  replace (Z.to_nat r') with ((Z.to_nat r' - Z.to_nat r) + Z.to_nat r)%nat
    by lia.
  rewrite Nat.iter_add.
  destruct (dilate_passes_invariant mask sourceData (Z.to_nat r) Hwf)
    as (Hwfn & Hwn & Hhn).
  intros Hop. apply dilate_passes_keep; [done|by rewrite Hwn, Hhn|done].
Qed.

Lemma dilate_passes_provenance mask src n x y :
  well_formed src -> inside (width src) (height src) x y ->
  opaque (Nat.iter n (dilate_pass mask) src) x y = true ->
  exists qx qy,
    inside (width src) (height src) qx qy /\ opaque src qx qy = true /\
    pixel (Nat.iter n (dilate_pass mask) src) x y = pixel src qx qy.
Proof.
  intros Hwf. revert x y. induction n as [|n IH]; intros x y Hin Hop.
  - by exists x, y.
  - destruct (dilate_passes_invariant mask src n Hwf) as (Hwfn & Hwn & Hhn).
    simpl in *.
    pose proof (dilate_pass_pixel mask _ Hwfn x y) as Hpx.
    rewrite Hwn, Hhn in Hpx. specialize (Hpx Hin).
    destruct (opaque (Nat.iter n (dilate_pass mask) src) x y) eqn:Hold.
    { rewrite Hpx. by apply IH. }
    destruct (mask_forbids mask _).
    { apply pixel_eq_opaque in Hpx. congruence. }
    destruct (first_opaque_neighbour _ x y) as [p|] eqn:Hfirst.
    + unfold first_opaque_neighbour in Hfirst.
      apply find_some in Hfirst as [_ Hp].
      apply andb_true_iff in Hp as [Hb Hopp].
      apply in_bounds_inside in Hb. rewrite Hwn, Hhn in Hb.
      rewrite Hpx. by apply IH.
    + apply pixel_eq_opaque in Hpx. congruence.
Qed.

(** X3. The dilation only copies: every opaque pixel of the result has
    the four channels of some opaque pixel of the input. *)
Theorem applyDilationWithMask_copies (sourceData : ImageData)
    (radiusPixels : Z) (mask : option ImageData) (x y : Z) :
  well_formed sourceData ->
  inside (width sourceData) (height sourceData) x y ->
  opaque (applyDilationWithMask sourceData radiusPixels mask) x y = true ->
  exists qx qy,
    inside (width sourceData) (height sourceData) qx qy /\
    opaque sourceData qx qy = true /\
    pixel (applyDilationWithMask sourceData radiusPixels mask) x y
    = pixel sourceData qx qy.
Proof.
  intros Hwf Hin. rewrite applyDilationWithMask_iter_any.
  by apply dilate_passes_provenance.
Qed.

(** ** Extraction, once more *)

Lemma pixel_extract (sourceData : ImageData) (color : ColorEntry) x y :
  inside (width sourceData) (height sourceData) x y ->
  pixel (extractSingleColor sourceData color) x y =
  if matches_color sourceData color x y
  then [Some (r color); Some (g color); Some (b color); Some xff]
  else transparent_black.
Proof.
  intros Hin. unfold pixel, transparent_black.
  rewrite !extract_channel by (done || lia).
  by destruct (matches_color sourceData color x y).
Qed.

Lemma opaque_extract (sourceData : ImageData) (color : ColorEntry) x y :
  inside (width sourceData) (height sourceData) x y ->
  opaque (extractSingleColor sourceData color) x y
  = matches_color sourceData color x y.
Proof.
  intros Hin. unfold opaque, alpha.
  rewrite extract_channel by (done || lia).
  by destruct (matches_color sourceData color x y).
Qed.

(** X4. A layer keeps its colour when it is trapped: every opaque pixel
    of the dilation of an extracted layer is the colour of the layer
    with alpha 255, whatever the radius and the mask. *)
Theorem dilated_layer_color (sourceData : ImageData) (color : ColorEntry)
    (radiusPixels : Z) (mask : option ImageData) (x y : Z) :
  inside (width sourceData) (height sourceData) x y ->
  opaque (applyDilationWithMask (extractSingleColor sourceData color)
            radiusPixels mask) x y = true ->
  pixel (applyDilationWithMask (extractSingleColor sourceData color)
           radiusPixels mask) x y
  = [Some (r color); Some (g color); Some (b color); Some xff].
Proof.
  intros Hin Hop.
  assert (well_formed (extractSingleColor sourceData color)) as Hwf
      by (apply extractSingleColor_well_formed; unfold inside in Hin; lia).
  rewrite applyDilationWithMask_iter_any in *.
  destruct (dilate_passes_provenance mask _ _ x y Hwf Hin Hop)
    as (qx & qy & Hq & Hopq & ->).
  simpl in Hq. rewrite pixel_extract by done.
  rewrite opaque_extract in Hopq by done. by rewrite Hopq.
Qed.

(** ** Erosion: what is left after [radius] passes *)

Lemma erode_pass_opaque current x y :
  well_formed current -> inside (width current) (height current) x y ->
  (opaque (erode_pass current) x y = true <->
   opaque current x y = true /\ surrounded current x y = true).
Proof.
  intros Hwf Hin.
  pose proof (erode_pass_pixel current Hwf x y Hin) as Hpx.
  destruct (opaque current x y && surrounded current x y) eqn:Hk.
  - apply pixel_eq_opaque in Hpx. rewrite Hpx.
    apply andb_true_iff in Hk as [Ho Hs]. by rewrite Ho.
  - apply opaque_transparent_black in Hpx. rewrite Hpx.
    apply andb_false_iff in Hk. split; [done|]. intros [? ?].
    destruct Hk; congruence.
Qed.

Lemma erode_passes_invariant (img : ImageData) n :
  well_formed img ->
  let out := Nat.iter n erode_pass img in
  well_formed out /\ width out = width img /\ height out = height img.
Proof.
  intros Hwf. induction n as [|n (IHwf & IHw & IHh)]; [done|].
  simpl. split; [by apply erode_pass_well_formed|]. done.
Qed.

Lemma applyErosion_iter_any src r :
  applyErosion src r = Nat.iter (Z.to_nat r) erode_pass src.
Proof.
  destruct (decide (1 <= r)) as [Hr|Hr]; [by apply applyErosion_passes|].
  unfold applyErosion. destruct (r <=? 0) eqn:E; [|lia].
  by replace (Z.to_nat r) with 0%nat by lia.
Qed.

Lemma surrounded_neighbours (img : ImageData) x y :
  surrounded img x y = true <->
  forall p, In p (neighbours4 x y) ->
            inside (width img) (height img) p.1 p.2
            /\ opaque img p.1 p.2 = true.
Proof.
  unfold surrounded. rewrite forallb_forall. split.
  - intros H p Hp. specialize (H p Hp). apply andb_true_iff in H as [Hb Ho].
    by apply in_bounds_inside in Hb.
  - intros H p Hp. destruct (H p Hp) as [Hb Ho].
    apply in_bounds_inside in Hb. by rewrite Hb, Ho.
Qed.

(** The ball of radius [n + 1] is the ball of radius [n] together with
    the balls of radius [n] around the four neighbours. *)
Lemma ball_opaque_succ (img : ImageData) (n : Z) x y :
  0 <= n ->
  (ball_opaque img (n + 1) x y <->
   ball_opaque img n x y /\
   forall p, In p (neighbours4 x y) -> ball_opaque img n p.1 p.2).
Proof.
  intros Hn. unfold ball_opaque, neighbours4. split.
  - intros Hball. split.
    + intros qx qy Hq. apply Hball. lia.
    + intros p Hp qx qy Hq. apply Hball. simpl in Hp.
      destruct Hp as [<- | [<- | [<- | [<- | []]]]]; simpl in Hq; lia.
  - intros [Hcentre Hnb] qx qy Hq.
    destruct (decide (Z.abs (qx - x) + Z.abs (qy - y) <= n)) as [Hle|Hgt];
      [by apply Hcentre|].
    destruct (decide (qy < y)) as [Hup|Hnup].
    { apply (Hnb (x, y - 1)); simpl; [auto|lia]. }
    destruct (decide (qx > x)) as [Hright|Hnright].
    { apply (Hnb (x + 1, y)); simpl; [auto|lia]. }
    destruct (decide (qy > y)) as [Hdown|Hndown].
    { apply (Hnb (x, y + 1)); simpl; [auto|lia]. }
    apply (Hnb (x - 1, y)); simpl; [auto 6|lia].
Qed.

Lemma erode_passes_ball src n x y :
  well_formed src -> inside (width src) (height src) x y ->
  (opaque (Nat.iter n erode_pass src) x y = true <->
   ball_opaque src (Z.of_nat n) x y).
Proof.
  intros Hwf. revert x y. induction n as [|n IH]; intros x y Hin.
  - simpl. unfold ball_opaque. split.
    + intros Hop qx qy Hq.
      assert (qx = x /\ qy = y) as [-> ->] by lia. done.
    + intros Hball. apply Hball. lia.
  - destruct (erode_passes_invariant src n Hwf) as (Hwfn & Hwn & Hhn).
    simpl Nat.iter. rewrite erode_pass_opaque by (done || by rewrite Hwn, Hhn).
    rewrite surrounded_neighbours, Hwn, Hhn.
    replace (Z.of_nat (S n)) with (Z.of_nat n + 1) by lia.
    rewrite ball_opaque_succ by lia. rewrite (IH x y Hin). split.
    + intros [Hc Hnb]. split; [done|]. intros p Hp.
      destruct (Hnb p Hp) as [Hpin Hpop]. by apply IH.
    + intros [Hc Hnb]. split; [done|]. intros p Hp.
      assert (inside (width src) (height src) p.1 p.2) as Hpin.
      { apply (Hnb p Hp). lia. }
      split; [done|]. apply IH; [done|]. by apply Hnb.
Qed.

Lemma erode_passes_pixel src n x y :
  well_formed src -> inside (width src) (height src) x y ->
  opaque (Nat.iter n erode_pass src) x y = true ->
  pixel (Nat.iter n erode_pass src) x y = pixel src x y.
Proof.
  intros Hwf Hin. induction n as [|n IH]; [done|].
  destruct (erode_passes_invariant src n Hwf) as (Hwfn & Hwn & Hhn).
  simpl. intros Hop.
  assert (inside (width (Nat.iter n erode_pass src))
            (height (Nat.iter n erode_pass src)) x y) as Hinn
      by (by rewrite Hwn, Hhn).
  pose proof (proj1 (erode_pass_opaque _ x y Hwfn Hinn) Hop) as [Ho Hs].
  rewrite erode_pass_pixel, Ho, Hs by done. by apply IH.
Qed.

(** X5. After an erosion by [radius] a pixel is opaque exactly when
    every cell at distance at most [radius] from it (distance counted
    in 4-connected steps) lies in the raster and is opaque in the input;
    such a pixel keeps its four channels. *)
Theorem applyErosion_exact (sourceData : ImageData) (radiusPixels : Z)
    (x y : Z) :
  well_formed sourceData -> 0 <= radiusPixels ->
  inside (width sourceData) (height sourceData) x y ->
  (opaque (applyErosion sourceData radiusPixels) x y = true <->
   ball_opaque sourceData radiusPixels x y) /\
  (opaque (applyErosion sourceData radiusPixels) x y = true ->
   pixel (applyErosion sourceData radiusPixels) x y = pixel sourceData x y).
Proof.
  intros Hwf Hr Hin. rewrite applyErosion_iter_any. split.
  - rewrite erode_passes_ball by done. by rewrite Z2Nat.id.
  - by apply erode_passes_pixel.
Qed.

(** X6. An erosion by [radius] leaves nothing of a raster that is less
    than [2 * radius + 1] pixels wide or high. *)
Theorem applyErosion_narrow (sourceData : ImageData) (radiusPixels : Z)
    (x y : Z) :
  well_formed sourceData -> 0 <= radiusPixels ->
  width sourceData < 2 * radiusPixels + 1
  \/ height sourceData < 2 * radiusPixels + 1 ->
  inside (width sourceData) (height sourceData) x y ->
  opaque (applyErosion sourceData radiusPixels) x y = false.
Proof.
  intros Hwf Hr Hsmall Hin.
  destruct (opaque (applyErosion sourceData radiusPixels) x y) eqn:Hop; [|done].
  rewrite applyErosion_iter_any in Hop.
  apply erode_passes_ball in Hop; [|done..]. rewrite Z2Nat.id in Hop by done.
  destruct (Hop (x - radiusPixels) y) as [[? ?] _]; [lia|].
  destruct (Hop (x + radiusPixels) y) as [[? ?] _]; [lia|].
  destruct (Hop x (y - radiusPixels)) as [[? ?] _]; [lia|].
  destruct (Hop x (y + radiusPixels)) as [[? ?] _]; [lia|].
  lia.
Qed.

Lemma within_steps_start w h n p q :
  within_steps w h n p q -> inside w h p.1 p.2.
Proof. by induction 1. Qed.

(** X7. Shrinking and then spreading by the same radius never goes
    beyond the input: a pixel that is opaque after [applyErosion]
    followed by [applyDilation] is opaque in the input. *)
Theorem dilation_of_erosion_within (sourceData : ImageData)
    (radiusPixels : Z) (x y : Z) :
  well_formed sourceData -> 0 <= radiusPixels ->
  inside (width sourceData) (height sourceData) x y ->
  opaque (applyDilation (applyErosion sourceData radiusPixels) radiusPixels)
    x y = true ->
  opaque sourceData x y = true.
Proof.
  intros Hwf Hr Hin. unfold applyDilation.
  rewrite applyDilationWithMask_iter_any, applyErosion_iter_any.
  destruct (erode_passes_invariant sourceData (Z.to_nat radiusPixels) Hwf)
    as (Hwfe & Hwe & Hhe).
  intros Hop. apply dilate_passes_spread in Hop; [|done|done|by rewrite Hwe, Hhe].
  apply spreads_to_within in Hop as ([qx qy] & Hq & Hsteps).
  pose proof (within_steps_distance _ _ _ _ _ Hsteps) as Hdist.
  assert (inside (width sourceData) (height sourceData) qx qy) as Hqin.
  { rewrite <- Hwe, <- Hhe. apply (within_steps_start _ _ _ _ _ Hsteps). }
  simpl in Hq. apply erode_passes_ball in Hq; [|done..].
  apply Hq. simpl in Hdist. lia.
Qed.

(** ** The underbase *)

Lemma underbase_pixel_write (img : ImageData) (garment : GarmentColor) y x acc :
  underbase_pixel img garment y x acc =
  apply_write (width img) (underbase_write img garment) y x acc.
Proof.
  unfold underbase_pixel, apply_write, underbase_write, needs_underbase,
    opaque, alpha, channel, write4.
  rewrite Z.add_0_r.
  destruct (gt0 _); [|done]. cbn [andb]. by destruct (negb _).
Qed.

Lemma generateUnderbase_choke (img : ImageData) (options : UnderbaseOptions) :
  generateUnderbase img options =
  Nat.iter (Z.to_nat (default 0 (chokePixels options))) erode_pass
    (underbase_plain img (default white_garment (garmentColor options))).
Proof.
  rewrite <- applyErosion_iter_any.
  unfold generateUnderbase, underbase_plain. cbn [garmentColor chokePixels default].
  destruct (default 0 (chokePixels options) >? 0) eqn:E; [done|].
  unfold applyErosion. by destruct (_ <=? 0) eqn:E'; [|lia].
Qed.

Lemma underbase_plain_well_formed (img : ImageData) garment :
  0 <= width img -> 0 <= height img ->
  well_formed (underbase_plain img garment).
Proof.
  intros Hw Hh. unfold well_formed, underbase_plain, generateUnderbase.
  cbn [chokePixels garmentColor default Z.gtb Z.compare width height data].
  split; [done|]. split; [done|].
  destruct (scan_pixels (underbase_pixel img garment)
              (underbase_write img garment) (width img) (height img)
              (new_array (width img * height img * 4))
              (underbase_pixel_write img garment)) as [Hl _].
  unfold createImageData, id. cbn [data default].
  rewrite Hl, length_new_array. nia.
Qed.

Lemma underbase_plain_pixel (img : ImageData) garment x y :
  inside (width img) (height img) x y ->
  pixel (underbase_plain img garment) x y =
  if needs_underbase img garment x y then white_opaque else transparent_black.
Proof.
  intros Hin.
  assert (forall k, 0 <= k < 4 ->
            channel (underbase_plain img garment) x y k =
            if needs_underbase img garment x y then Some xff else Some x00)
    as Hch.
  { intros k Hk. unfold channel, underbase_plain, generateUnderbase.
    cbn [chokePixels garmentColor default Z.gtb Z.compare width height data].
    unfold createImageData, id. cbn [data default].
    pose proof (pixel_index_bounds _ _ x y k Hin Hk) as [Hlo Hhi].
    destruct (scan_pixels (underbase_pixel img garment)
                (underbase_write img garment) (width img) (height img)
                (new_array (width img * height img * 4))
                (underbase_pixel_write img garment)) as [_ Hget].
    rewrite Hget by (done || rewrite length_new_array; unfold inside in Hin; nia).
    unfold underbase_write. destruct (needs_underbase img garment x y).
    - unfold component.
      by destruct (k =? 0), (k =? 1), (k =? 2).
    - apply get_new_array. lia. }
  unfold pixel, white_opaque, transparent_black. rewrite !Hch by lia.
  by destruct (needs_underbase img garment x y).
Qed.

Lemma underbase_plain_opaque (img : ImageData) garment x y :
  inside (width img) (height img) x y ->
  opaque (underbase_plain img garment) x y = needs_underbase img garment x y.
Proof.
  intros Hin. pose proof (underbase_plain_pixel img garment x y Hin) as Hpx.
  unfold pixel in Hpx. unfold opaque, alpha.
  destruct (needs_underbase img garment x y); by injection Hpx as _ _ _ ->.
Qed.

Lemma erode_passes_cleared src n x y :
  well_formed src -> inside (width src) (height src) x y ->
  (opaque src x y = false -> pixel src x y = transparent_black) ->
  opaque (Nat.iter n erode_pass src) x y = false ->
  pixel (Nat.iter n erode_pass src) x y = transparent_black.
Proof.
  intros Hwf Hin Hsrc. destruct n as [|n]; [done|].
  destruct (erode_passes_invariant src n Hwf) as (Hwfn & Hwn & Hhn).
  simpl. intros Hop.
  assert (inside (width (Nat.iter n erode_pass src))
            (height (Nat.iter n erode_pass src)) x y) as Hinn
      by (by rewrite Hwn, Hhn).
  pose proof (erode_pass_pixel _ Hwfn x y Hinn) as Hpx.
  destruct (_ && _) eqn:Hk; [|done].
  apply andb_true_iff in Hk as [Ho _].
  apply pixel_eq_opaque in Hpx. congruence.
Qed.

(** X8. [generateUnderbase] returns a raster of the dimensions of the
    source whose pixels are opaque white or transparent black.  With a
    choke of [c] pixels (0 when [chokePixels] is absent or not
    positive) a pixel is opaque white exactly when every cell at
    distance at most [c] from it lies in the raster and holds a source
    pixel that is not transparent and differs from the garment colour
    (white when [garmentColor] is absent) by 10 or more in some
    channel. *)
Theorem generateUnderbase_spec (sourceData : ImageData)
    (options : UnderbaseOptions) (x y : Z) :
  inside (width sourceData) (height sourceData) x y ->
  let garment := default white_garment (garmentColor options) in
  let choke := Z.max 0 (default 0 (chokePixels options)) in
  let out := generateUnderbase sourceData options in
  width out = width sourceData /\ height out = height sourceData /\
  (opaque out x y = true <->
   forall qx qy,
     Z.abs (qx - x) + Z.abs (qy - y) <= choke ->
     inside (width sourceData) (height sourceData) qx qy
     /\ needs_underbase sourceData garment qx qy = true) /\
  pixel out x y = if opaque out x y then white_opaque else transparent_black.
Proof.
  intros Hin garment choke out.
  assert (0 <= width sourceData /\ 0 <= height sourceData) as [Hw Hh]
      by (unfold inside in Hin; lia).
  pose proof (underbase_plain_well_formed sourceData garment Hw Hh) as Hwf.
  assert (out = Nat.iter (Z.to_nat choke) erode_pass
                  (underbase_plain sourceData garment)) as Hout.
  { unfold out. rewrite generateUnderbase_choke. f_equal. unfold choke. lia. }
  destruct (erode_passes_invariant _ (Z.to_nat choke) Hwf) as (_ & Hwo & Hho).
  rewrite Hout. split; [by rewrite Hwo|]. split; [by rewrite Hho|].
  assert (inside (width (underbase_plain sourceData garment))
            (height (underbase_plain sourceData garment)) x y) as Hin' by done.
  split.
  - rewrite erode_passes_ball by done. rewrite Z2Nat.id by (unfold choke; lia).
    unfold ball_opaque.
    split; intros Hball qx qy Hq; destruct (Hball qx qy Hq) as [Hqin Hqo];
      (split; [done|]).
    + by rewrite underbase_plain_opaque in Hqo.
    + by rewrite underbase_plain_opaque.
  - destruct (opaque (Nat.iter _ _ _) x y) eqn:Hop.
    + rewrite erode_passes_pixel by done.
      assert (opaque (underbase_plain sourceData garment) x y = true) as Hp.
      { apply erode_passes_ball in Hop; [|done..]. apply Hop. lia. }
      rewrite underbase_plain_pixel by done.
      rewrite underbase_plain_opaque in Hp by done. by rewrite Hp.
    + apply erode_passes_cleared; [done..| |done].
      rewrite underbase_plain_pixel, underbase_plain_opaque by done.
      by intros ->.
Qed.

(** ** The trapping loop on separated layers *)

Lemma darker_mask_opaque (document : Document) (colorLayers : list ColorLayer)
    (currentIndex : nat) x y :
  Forall (fun cl => width (pixelData cl) = doc_width document) colorLayers ->
  inside (doc_width document) (doc_height document) x y ->
  (opaque (createDarkerColorMaskFromLayers document currentIndex colorLayers)
     x y = true <->
   exists j cl, (currentIndex < j)%nat /\ colorLayers !! j = Some cl
                /\ opaque (pixelData cl) x y = true).
Proof.
  intros Hdims Hin. unfold opaque at 1. unfold alpha.
  rewrite createDarkerColorMask_channel by (done || lia).
  rewrite Forall_lookup in Hdims.
  destruct (existsb _ _) eqn:Hex.
  - split; [intros _|done].
    apply existsb_drop_lookup in Hex as (j & cl & Hj & Hl & Hop).
    exists j, cl. split; [done|]. split; [done|].
    unfold opaque, alpha, channel. by rewrite (Hdims j cl Hl).
  - split; [done|]. intros (j & cl & Hj & Hl & Hop).
    assert (existsb
              (fun l => gt0 (get (data (pixelData l))
                               (pixel_index (doc_width document) x y + 3)))
              (drop (S currentIndex) colorLayers) = true) as Hex';
      [|congruence].
    apply existsb_drop_lookup. exists j, cl. split; [done|]. split; [done|].
    unfold opaque, alpha, channel in Hop. by rewrite (Hdims j cl Hl) in Hop.
Qed.

Lemma separateColors_widths (document : Document) (flattenedData : ImageData)
    (sortedColors : list ColorEntry) :
  doc_width document = width flattenedData ->
  Forall (fun cl => width (pixelData cl) = doc_width document)
    (separateColors flattenedData sortedColors).
Proof.
  intros Hw. apply Forall_lookup. intros j cl Hl.
  apply lookup_separateColors in Hl as (c & _ & _ & ->). done.
Qed.

(** X9. Trapping the layers separated from a flattened raster: the
    raster left for layer [i] shows the colour of that layer wherever it
    is opaque, it is opaque wherever the flattened raster has that
    colour, and every other opaque pixel of it lies on a pixel of the
    flattened raster whose colour comes later in the sorted order (a
    darker one).  So a trap never covers a pixel of a lighter or of a
    dropped colour, nor a transparent one. *)
Theorem trapLayer_confined (document : Document) (flattenedData : ImageData)
    (sortedColors : list ColorEntry) (trapSizes : range) (resolution : number)
    (i : nat) (t : number) (raster : ImageData) (x y : Z) :
  doc_width document = width flattenedData ->
  doc_height document = height flattenedData ->
  trapLayer document trapSizes resolution
    (separateColors flattenedData sortedColors) i = Some (t, raster) ->
  inside (width flattenedData) (height flattenedData) x y ->
  exists c,
    sortedColors !! i = Some c /\
    (matches_color flattenedData c x y = true -> opaque raster x y = true) /\
    (opaque raster x y = true ->
     pixel raster x y = [Some (r c); Some (g c); Some (b c); Some xff] /\
     (matches_color flattenedData c x y = true \/
      exists j c', (i < j)%nat /\ sortedColors !! j = Some c'
                   /\ matches_color flattenedData c' x y = true)).
Proof.
  intros Hdw Hdh Htrap Hin.
  assert (0 <= width flattenedData /\ 0 <= height flattenedData) as [Hw Hh]
      by (unfold inside in Hin; lia).
  set (colorLayers := separateColors flattenedData sortedColors) in *.
  assert (exists cl radius,
            colorLayers !! i = Some cl /\
            raster = Nat.iter radius
                       (dilate_pass (Some (createDarkerColorMaskFromLayers
                                             document i colorLayers)))
                       (pixelData cl)) as (cl & n & Hcl & ->).
  { unfold trapLayer in Htrap.
    destruct (gt (inchesToPixels _ _) pos_zero).
    - destruct (to_Z _) as [radius|]; [|done].
      unfold applyTrappingToLayer in Htrap.
      destruct (colorLayers !! i) as [cl|]; [|done].
      injection Htrap as _ <-. exists cl, (Z.to_nat radius).
      split; [done|]. apply applyDilationWithMask_iter_any.
    - destruct (colorLayers !! i) as [cl|]; [|done].
      injection Htrap as _ <-. by exists cl, 0%nat. }
  apply lookup_separateColors in Hcl as (c & Hc & _ & ->).
  exists c. split; [done|].
  set (mask := createDarkerColorMaskFromLayers document i colorLayers).
  set (src := extractSingleColor flattenedData c).
  assert (well_formed src) as Hwf
      by (by apply extractSingleColor_well_formed).
  assert (same_size (Some mask) src) as Hsize.
  { simpl. split; [|done].
    apply createDarkerColorMask_well_formed; lia. }
  assert (inside (width src) (height src) x y) as Hin' by done.
  split.
  - intros Hm. apply dilate_passes_spread; [done..|].
    apply spread_source; [done|]. simpl. unfold src.
    by rewrite opaque_extract.
  - intros Hop. split.
    + destruct (dilate_passes_provenance _ _ _ _ _ Hwf Hin' Hop)
        as (qx & qy & Hq & Hqo & ->).
      unfold src in *. rewrite pixel_extract by done.
      rewrite opaque_extract in Hqo by done. by rewrite Hqo.
    + apply dilate_passes_spread in Hop; [|done..].
      inversion Hop as [n' p Hpin Hpo|n' q p _ _ _ Hperm]; subst.
      * left. simpl in Hpo. unfold src in Hpo.
        by rewrite opaque_extract in Hpo.
      * right. simpl in Hperm.
        apply darker_mask_opaque in Hperm;
          [|by apply separateColors_widths|by rewrite Hdw, Hdh].
        destruct Hperm as (j & lj & Hj & Hlj & Hoj).
        apply lookup_separateColors in Hlj as (c' & Hc' & _ & Hpx).
        rewrite Hpx, opaque_extract in Hoj by done.
        by exists j, c'.
Qed.

(** ** Sorting the palette *)

Lemma gt_zero_negative (x : number) : has_sign true x -> gt x pos_zero = false.
Proof. by destruct x as [[]|[]| |[] m e]. Qed.

(** The comparator of the sort is antisymmetric: when [x - y > 0], it is
    not the case that [y - x > 0]. *)
Lemma fsub_gt_antisym (x y : number) :
  gt (fsub x y) pos_zero = true -> gt (fsub y x) pos_zero = false.
Proof.
  destruct x as [sx|sx| |sx mx ex], y as [sy|sy| |sy my ey];
    try (by destruct sx, sy); try (by destruct sx); try (by destruct sy);
    try done.
  unfold fsub, SFsub. rewrite (Z.min_comm ey ex).
  set (a := cond_Zopp sx _). set (b := cond_Zopp sy _).
  replace (b - a) with (- (a - b)) by lia.
  unfold binary_normalize.
  destruct (a - b) as [|p|p]; [done| |]; simpl Z.opp.
  - intros _. apply gt_zero_negative, binary_round_sign.
  - intros Hgt.
    rewrite gt_zero_negative in Hgt by apply binary_round_sign. done.
Qed.

Lemma sort_insert_perm (a : ColorEntry) (l : list ColorEntry) :
  sort_insert a l ≡ₚ a :: l.
Proof.
  induction l as [|c l IH]; [done|]. simpl.
  destruct (gt _ _); [|done]. rewrite IH. apply Permutation_swap.
Qed.

Lemma sortColorsByLightness_perm (colors : list ColorEntry) :
  sortColorsByLightness colors ≡ₚ colors.
Proof.
  unfold sortColorsByLightness. induction colors as [|a l IH]; [done|].
  simpl. by rewrite sort_insert_perm, IH.
Qed.

Lemma sort_insert_ordered (a : ColorEntry) (l : list ColorEntry) :
  lightest_first l -> lightest_first (sort_insert a l).
Proof.
  unfold lightest_first. induction l as [|c l IH]; intros Hl i c1 c2.
  - simpl. by destruct i.
  - simpl. destruct (gt (fsub (lightness c) (lightness a)) pos_zero) eqn:Hgt.
    + assert (forall i c1 c2, l !! i = Some c1 -> l !! S i = Some c2 ->
                gt (fsub (lightness c2) (lightness c1)) pos_zero = false)
        as Hl' by (intros j d1 d2; apply (Hl (S j))).
      specialize (IH Hl'). destruct i as [|i]; [|by apply IH].
      simpl. intros [= <-] H2.
      destruct l as [|c' l].
      * simpl in H2. injection H2 as <-. by apply fsub_gt_antisym.
      * simpl in H2.
        destruct (gt (fsub (lightness c') (lightness a)) pos_zero).
        -- injection H2 as <-. by apply (Hl 0%nat).
        -- injection H2 as <-. by apply fsub_gt_antisym.
    + destruct i as [|i]; [|by apply Hl].
      simpl. by intros [= <-] [= <-].
Qed.

Lemma sortColorsByLightness_ordered (colors : list ColorEntry) :
  lightest_first (sortColorsByLightness colors).
Proof.
  unfold sortColorsByLightness. induction colors as [|a l IH].
  - intros i c1 c2. by destruct i.
  - simpl. by apply sort_insert_ordered.
Qed.

Lemma sortColorsByLightness_fixed (colors : list ColorEntry) :
  lightest_first colors -> sortColorsByLightness colors = colors.
Proof.
  unfold sortColorsByLightness. induction colors as [|a l IH]; [done|].
  intros Hl. simpl. rewrite IH by (intros j d1 d2; apply (Hl (S j))).
  destruct l as [|c l]; [done|]. simpl.
  by rewrite (Hl 0%nat a c).
Qed.

(** X10. [sortColorsByLightness] returns the entries it is given, each
    as often as it occurs; in the result no entry is followed by one
    that the comparator puts before it (a lighter one); and a list
    that is already in that order comes back unchanged, so entries of
    equal lightness keep their order. *)
Theorem sortColorsByLightness_spec (colors : list ColorEntry) :
  sortColorsByLightness colors ≡ₚ colors /\
  lightest_first (sortColorsByLightness colors) /\
  (lightest_first colors -> sortColorsByLightness colors = colors) /\
  sortColorsByLightness (sortColorsByLightness colors)
    = sortColorsByLightness colors.
Proof.
  split; [apply sortColorsByLightness_perm|].
  split; [apply sortColorsByLightness_ordered|].
  split; [apply sortColorsByLightness_fixed|].
  apply sortColorsByLightness_fixed, sortColorsByLightness_ordered.
Qed.

(** ** The palette and the separated layers *)

Lemma pixel_key_Some (img : ImageData) x y (k : color_key) :
  pixel_key img (y, x) = Some k <->
  opaque img x y = true /\ channel img x y 0 = Some k.1.1
  /\ channel img x y 1 = Some k.1.2 /\ channel img x y 2 = Some k.2.
Proof.
  destruct k as [[r0 g0] b0]. unfold pixel_key, opaque, alpha. simpl.
  destruct (channel img x y 0) as [r1|], (channel img x y 1) as [g1|],
    (channel img x y 2) as [b1|], (channel img x y 3) as [a1|]; simpl;
    try (split; [done|by intros (? & ? & ? & ?)]).
  destruct (Byte.eqb a1 x00); simpl.
  - split; [done|by intros (? & ? & ? & ?)].
  - split; [by intros [= -> -> ->]|by intros (_ & [= ->] & [= ->] & [= ->])].
Qed.

Lemma matches_color_key (img : ImageData) (c : ColorEntry) x y :
  matches_color img c x y =
  match pixel_key img (y, x) with
  | Some k => key_eqb (key_of c) k
  | None => false
  end.
Proof.
  unfold matches_color, pixel_key, opaque, alpha, key_of, key_eqb. simpl.
  destruct (channel img x y 3) as [a1|]; simpl.
  2: { by destruct (channel img x y 0), (channel img x y 1),
         (channel img x y 2). }
  destruct (channel img x y 0) as [r1|]; simpl;
    [|by rewrite andb_false_r].
  destruct (channel img x y 1) as [g1|]; simpl;
    [|by rewrite !andb_false_r].
  destruct (channel img x y 2) as [b1|]; simpl;
    [|by rewrite !andb_false_r].
  destruct (Byte.eqb a1 x00); simpl; [done|].
  assert (forall u v, Byte.eqb u v = Byte.eqb v u) as Hsym.
  { intros u v. destruct (Byte.eqb u v) eqn:E.
    - apply byte_eqb_eq in E as ->. symmetry. by apply byte_eqb_eq.
    - destruct (Byte.eqb v u) eqn:E'; [|done].
      apply byte_eqb_eq in E' as ->.
      assert (Byte.eqb u u = true) by (by apply byte_eqb_eq). congruence. }
  by rewrite (Hsym r1), (Hsym g1), (Hsym b1).
Qed.

Lemma keys_analyzeColors (img : ImageData) :
  key_of <$> colors (analyzeColors img) = discovered (opaque_keys img).
Proof.
  rewrite colors_analyzeColors, <- list_fmap_compose.
  rewrite <- (list_fmap_id (discovered _)) at 2.
  apply list_fmap_ext. intros i k _. apply key_of_entry_of.
Qed.

Lemma elem_of_opaque_keys (img : ImageData) (k : color_key) :
  k ∈ opaque_keys img <->
  exists x y, inside (width img) (height img) x y
              /\ pixel_key img (y, x) = Some k.
Proof.
  unfold opaque_keys. rewrite list_elem_of_omap. split.
  - intros ([y x] & Hin & Hk). exists x, y.
    by apply elem_of_scan_order in Hin.
  - intros (x & y & Hin & Hk). exists (y, x).
    by apply elem_of_scan_order in Hin.
Qed.

(** X11. The palette of [analyzeColors] lists every colour once: no two
    entries have the same (r, g, b); a colour has an entry exactly when
    some pixel of the raster is not transparent and has that colour; the
    lightness of an entry is computed from its own channels; and
    [uniqueColors] is the number of entries. *)
Theorem analyzeColors_palette (imageData : ImageData) :
  let res := analyzeColors imageData in
  NoDup (key_of <$> colors res) /\
  (forall k : color_key,
     k ∈ key_of <$> colors res <->
     exists x y,
       inside (width imageData) (height imageData) x y /\
       opaque imageData x y = true /\
       channel imageData x y 0 = Some k.1.1 /\
       channel imageData x y 1 = Some k.1.2 /\
       channel imageData x y 2 = Some k.2) /\
  (forall c, c ∈ colors res ->
     lightness c = calculateLightness (r c) (g c) (b c)) /\
  uniqueColors res = Z.of_nat (length (colors res)).
Proof.
  intros res. unfold res. rewrite keys_analyzeColors.
  split; [apply NoDup_discovered|]. split; [|split; [|done]].
  - intros k. rewrite elem_of_discovered, elem_of_opaque_keys.
    split; intros (x & y & Hin & Hk); exists x, y; (split; [done|]);
      by apply pixel_key_Some.
  - intros c Hc. rewrite colors_analyzeColors in Hc.
    apply list_elem_of_fmap in Hc as (k & -> & _). done.
Qed.

Lemma length_filter_omap {A B : Type} (f : A -> option B) (g : B -> bool)
    (l : list A) :
  length (List.filter g (omap f l)) =
  length (List.filter
            (fun a => match f a with Some b => g b | None => false end) l).
Proof.
  induction l as [|a l IH]; [done|].
  change (omap f (a :: l))
    with (match f a with Some b => b :: omap f l | None => omap f l end).
  cbn [List.filter]. destruct (f a) as [b|]; [|done].
  cbn [List.filter]. destruct (g b); cbn [length]; by rewrite IH.
Qed.

Lemma opaque_count_extract (sourceData : ImageData) (color : ColorEntry) :
  opaque_count (extractSingleColor sourceData color) =
  occurrences (key_of color) (opaque_keys sourceData).
Proof.
  unfold opaque_count, occurrences, opaque_keys. f_equal.
  rewrite length_filter_omap. f_equal.
  change (width (extractSingleColor sourceData color)) with (width sourceData).
  change (height (extractSingleColor sourceData color)) with (height sourceData).
  apply List.filter_ext_in. intros [y x] Hin.
  apply list_elem_of_In, elem_of_scan_order in Hin. simpl.
  rewrite opaque_extract by done. apply matches_color_key.
Qed.

(** X12. The separation keeps the counts of the analysis: the raster
    extracted for an entry of the palette has exactly [count] opaque
    pixels, and at least one. *)
Theorem extractSingleColor_count (sourceData : ImageData) (color : ColorEntry) :
  color ∈ colors (analyzeColors sourceData) ->
  opaque_count (extractSingleColor sourceData color) = count color
  /\ 1 <= count color.
Proof.
  intros Hc. rewrite opaque_count_extract.
  by destruct (count_analyzeColors sourceData color Hc) as [-> ?].
Qed.

(** ** The layers of a document *)

Lemma SFleb_trans (x y z : number) :
  SFleb x y = true -> SFleb y z = true -> SFleb x z = true.
Proof.
  unfold SFleb.
  destruct x as [[]|[]| |[] mx ex], y as [[]|[]| |[] my ey],
    z as [[]|[]| |[] mz ez]; simpl; try done;
    rewrite ?Pos.compare_cont_spec; simpl;
    destruct (Z.compare_spec ex ey), (Z.compare_spec ey ez),
      (Z.compare_spec ex ez); try done; try lia; simpl;
    destruct (Pos.compare_spec mx my), (Pos.compare_spec my mz),
      (Pos.compare_spec mx mz); simpl; try done; lia.
Qed.

Lemma SFleb_refl (x : number) : isNaN x = false -> SFleb x x = true.
Proof.
  unfold SFleb. destruct x as [[]|[]| |[] m e]; simpl; try done; intros _;
    rewrite Z.compare_refl, Pos.compare_cont_spec, Pos.compare_refl; done.
Qed.

Lemma Math_max_ge_l (x y : number) :
  isNaN x = false -> isNaN y = false -> ge (Math_max x y) x = true.
Proof.
  intros Hx Hy. unfold ge, Math_max.
  destruct (SFcompare x y) as [[]|] eqn:E.
  - destruct x as [[]|[]| |[] m e]; try (by apply SFleb_refl).
    unfold SFleb. by rewrite E.
  - unfold SFleb. by rewrite E.
  - by apply SFleb_refl.
  - apply SFcompare_None in E as [->| ->]; done.
Qed.

(** A colour that passes the filter has at least 100 pixels. *)
Lemma significant_count (totalPixels : Z) (c : ColorEntry) :
  1 <= count c ->
  is_significant (minPixelThreshold totalPixels) c = true -> 100 <= count c.
Proof.
  intros Hpos Hsig. unfold is_significant, ge in Hsig.
  assert (ge (of_Z (count c)) (of_Z 100) = true) as Hge.
  { unfold ge. apply SFleb_trans with (minPixelThreshold totalPixels); [|done].
    unfold minPixelThreshold. apply Math_max_ge_l; [apply of_Z_not_nan|].
    apply Math_round_not_nan.
    change (of_decimal false 1 (-4))
      with (S754_finite false 7378697629483821 (-66)).
    apply fmul_finite_not_nan, of_Z_not_nan. }
  destruct (decide (100 <= count c)) as [|Hlt]; [done|].
  rewrite count_below_100 in Hge by lia. done.
Qed.

Lemma NoDup_fmap_filter {A B : Type} (f : A -> B) (p : A -> bool) (l : list A) :
  NoDup (f <$> l) -> NoDup (f <$> List.filter p l).
Proof.
  induction l as [|a l IH]; [done|].
  rewrite fmap_cons, NoDup_cons. intros [Hnotin Hnd]. cbn [List.filter].
  destruct (p a); [|by apply IH].
  rewrite fmap_cons, NoDup_cons. split; [|by apply IH].
  intros Hin. apply Hnotin.
  apply list_elem_of_fmap in Hin as (a' & -> & Ha').
  apply list_elem_of_fmap. exists a'. split; [done|].
  apply list_elem_of_In. apply list_elem_of_In, List.filter_In in Ha'.
  by destruct Ha'.
Qed.

Lemma analyzeDocument_Ok (flattenedData : ImageData) (cs : list ColorEntry) :
  analyzeDocument flattenedData = Ok cs ->
  cs = sortColorsByLightness (significantColors (analyzeColors flattenedData))
  /\ (1 <= length (significantColors (analyzeColors flattenedData)) <= 10)%nat.
Proof.
  unfold analyzeDocument.
  destruct (_ >? 10) eqn:E1; [done|].
  destruct (_ =? 0) eqn:E2; [done|].
  intros [= <-]. split; [done|]. lia.
Qed.

(** X13. When the analysis of a document succeeds, its colours are the
    significant colours of the palette in another order: between 1 and
    10 of them, no two with the same (r, g, b), each with at least 100
    pixels, and the raster separated for each has exactly its [count]
    opaque pixels.  No pixel is opaque in the rasters of two different
    layers. *)
Theorem analyzeDocument_layers (flattenedData : ImageData)
    (cs : list ColorEntry) :
  analyzeDocument flattenedData = Ok cs ->
  let colorLayers := separateColors flattenedData cs in
  (1 <= length cs <= 10)%nat /\
  length colorLayers = length cs /\
  cs ≡ₚ significantColors (analyzeColors flattenedData) /\
  NoDup (key_of <$> cs) /\
  (forall c, c ∈ cs ->
     100 <= count c
     /\ opaque_count (extractSingleColor flattenedData c) = count c) /\
  (forall i j li lj x y,
     inside (width flattenedData) (height flattenedData) x y ->
     colorLayers !! i = Some li -> colorLayers !! j = Some lj ->
     opaque (pixelData li) x y = true -> opaque (pixelData lj) x y = true ->
     i = j).
Proof.
  intros HOk colorLayers.
  apply analyzeDocument_Ok in HOk as [-> Hlen].
  set (significant := significantColors (analyzeColors flattenedData)) in *.
  pose proof (sortColorsByLightness_perm significant) as Hperm.
  assert (NoDup (key_of <$> sortColorsByLightness significant)) as Hnd.
  { rewrite Hperm. unfold significant, significantColors.
    apply NoDup_fmap_filter. rewrite keys_analyzeColors.
    apply NoDup_discovered. }
  split; [by rewrite Hperm|].
  split; [unfold colorLayers, separateColors; by rewrite length_map|].
  split; [done|]. split; [done|]. split.
  - intros c Hc. rewrite Hperm in Hc.
    apply elem_of_significantColors in Hc as [Hc Hsig].
    destruct (count_analyzeColors flattenedData c Hc) as [Hcount Hpos].
    split; [by apply (significant_count _ c Hpos Hsig)|].
    by rewrite opaque_count_extract.
  - intros i j li lj x y Hin Hi Hj Hoi Hoj.
    apply lookup_separateColors in Hi as (ci & Hci & _ & Hpi).
    apply lookup_separateColors in Hj as (cj & Hcj & _ & Hpj).
    rewrite Hpi, opaque_extract, matches_color_key in Hoi by done.
    rewrite Hpj, opaque_extract, matches_color_key in Hoj by done.
    destruct (pixel_key flattenedData (y, x)) as [k|]; [|done].
    apply key_eqb_eq in Hoi, Hoj.
    apply (NoDup_lookup _ i j k Hnd);
      rewrite list_lookup_fmap; [rewrite Hci|rewrite Hcj]; simpl; congruence.
Qed.

(** ** Trap sizes that are not numbers *)

Lemma fdiv_nan (n d : number) :
  isNaN n = false -> isNaN d = false -> strict_eq d pos_zero = false ->
  isNaN (fdiv n d) = is_infinity n && is_infinity d.
Proof.
  destruct n as [sn|sn| |sn mn en], d as [sd|sd| |sd md ed]; try done.
  intros _ _ _. simpl. apply (has_sign_not_nan (xorb sn sd)).
  apply SFdiv_finite_sign.
Qed.

Lemma parse_nan (spec : string) (v : number) :
  parse spec = Ok v ->
  (isNaN v = true <-> infinite_fraction (trim spec)).
Proof.
  intros Hok. destruct spec as [|c spec']; [done|].
  rewrite parse_nonempty in Hok by done.
  unfold infinite_fraction.
  destruct (notation_of (trim (String c spec'))) eqn:Hnot.
  - unfold parsePoints in Hok.
    destruct (isNaN (parseFloat _)) eqn:Hnan; [done|].
    destruct (lt (parseFloat _) pos_zero) eqn:Hneg; [done|].
    injection Hok as <-. rewrite fdiv_nan by done.
    rewrite andb_false_r. split; [done|by intros [? _]].
  - unfold parseFraction in Hok.
    destruct (split_char "/" _) as [|p0 [|p1 [|p2 ps]]]; try done.
    destruct (isNaN (parseFloat (trim p0))) eqn:Hn0; [done|].
    destruct (isNaN (parseFloat (trim p1))) eqn:Hn1; [done|].
    destruct (strict_eq _ pos_zero) eqn:Hz; [done|].
    injection Hok as <-. rewrite fdiv_nan by done.
    rewrite andb_true_iff. split.
    + intros [H0 H1]. split; [done|]. by exists p0, p1.
    + intros (_ & q0 & q1 & [= <- <-] & H0 & H1). done.
  - unfold parseDecimal in Hok.
    destruct (isNaN (parseFloat _)) eqn:Hnan; [done|].
    injection Hok as <-. rewrite Hnan. split; [done|by intros [? _]].
Qed.

(** X14. A specification that [parse] accepts yields NaN in one case
    only: a fraction whose numerator and denominator both read as an
    infinity (such as [Infinity/Infinity]); points and decimal
    specifications never yield NaN. *)
Theorem parse_not_a_number (spec : string) (v : number) :
  parse spec = Ok v ->
  (isNaN v = true <-> infinite_fraction (trim spec)) /\
  (notation_of (trim spec) <> Fraction -> isNaN v = false).
Proof.
  intros Hok. pose proof (parse_nan spec v Hok) as Hnan.
  split; [done|]. intros Hnot.
  destruct (isNaN v); [|done].
  destruct (proj1 Hnan eq_refl) as [? _]. done.
Qed.

(** X15. The range that [validateRange] returns is ordered,
    [0 <= min <= max], whenever neither bound is NaN, and the warning
    is given exactly when [max > 0.25]; a bound is NaN only for a
    fraction of two infinities, which the checks let through. *)
Theorem validateRange_ordered (minSpec maxSpec : string) (r : range)
    (w : bool) :
  validateRange minSpec maxSpec = Ok (r, w) ->
  (isNaN (min r) = false -> isNaN (max r) = false ->
   le pos_zero (min r) = true /\ le (min r) (max r) = true
   /\ le pos_zero (max r) = true) /\
  w = gt (max r) (of_decimal false 25 (-2)) /\
  (isNaN (min r) = true <-> infinite_fraction (trim minSpec)) /\
  (isNaN (max r) = true <-> infinite_fraction (trim maxSpec)).
Proof.
  unfold validateRange.
  destruct (parse minSpec) as [lo|] eqn:Hlo; [|done].
  destruct (parse maxSpec) as [hi|] eqn:Hhi; [|done].
  destruct (lt lo pos_zero || lt hi pos_zero) eqn:Hneg; [done|].
  destruct (gt lo hi) eqn:Hgt; [done|].
  intros [= <- <-]. cbn [min max].
  apply orb_false_iff in Hneg as [Hneg_lo Hneg_hi].
  split; [|split; [done|split; by apply parse_nan]].
  intros Hn_lo Hn_hi.
  assert (forall x y, isNaN x = false -> isNaN y = false ->
            lt y x = false -> le x y = true) as Hle.
  { intros x y Hx Hy Hlt. rewrite lt_negb_ge in Hlt by done.
    by apply negb_false_iff in Hlt. }
  split; [by apply Hle|]. split; by apply Hle.
Qed.

(** ** Strings *)

Lemma append_nil_r (s : string) : String.append s EmptyString = s.
Proof. induction s as [|c s IH]; [done|]. simpl. by rewrite IH. Qed.

Lemma append_assoc (s1 s2 s3 : string) :
  String.append (String.append s1 s2) s3
  = String.append s1 (String.append s2 s3).
Proof. induction s1 as [|c s1 IH]; [done|]. simpl. by rewrite IH. Qed.

Lemma length_append (s1 s2 : string) :
  String.length (String.append s1 s2)
  = (String.length s1 + String.length s2)%nat.
Proof. induction s1 as [|c s1 IH]; [done|]. simpl. by rewrite IH. Qed.

Lemma rev_string_append (acc s : string) :
  rev_string acc s = String.append (rev_string EmptyString s) acc.
Proof.
  revert acc. induction s as [|c s IH]; intros acc; [done|].
  simpl. rewrite (IH (String c acc)), (IH (String c EmptyString)).
  by rewrite append_assoc.
Qed.

Lemma rev_string_of_append (s1 s2 : string) :
  rev_string EmptyString (String.append s1 s2)
  = String.append (rev_string EmptyString s2) (rev_string EmptyString s1).
Proof.
  induction s1 as [|c s1 IH]; [by rewrite append_nil_r|].
  simpl. rewrite (rev_string_append (String c EmptyString)), IH.
  rewrite (rev_string_append (String c EmptyString) s1).
  by rewrite append_assoc.
Qed.

Lemma rev_string_involutive (s : string) :
  rev_string EmptyString (rev_string EmptyString s) = s.
Proof.
  induction s as [|c s IH]; [done|].
  simpl. rewrite (rev_string_append (String c EmptyString) s).
  by rewrite rev_string_of_append, IH.
Qed.

Lemma trimStart_head (s : string) : starts_clean (trimStart s).
Proof.
  induction s as [|c s IH]; [done|]. simpl.
  destruct (is_white_space c) eqn:E; [done|]. simpl. by rewrite E.
Qed.

Lemma trimStart_fixed (s : string) : starts_clean s -> trimStart s = s.
Proof. destruct s as [|c s]; [done|]. simpl. by intros ->. Qed.

Lemma trimStart_suffix (s : string) :
  exists pre, s = String.append pre (trimStart s).
Proof.
  induction s as [|c s (pre & IH)]; [by exists EmptyString|]. simpl.
  destruct (is_white_space c).
  - exists (String c pre). simpl. by rewrite <- IH.
  - by exists EmptyString.
Qed.

Lemma starts_clean_append (s1 s2 : string) :
  starts_clean (String.append s1 s2) -> s1 <> EmptyString -> starts_clean s1.
Proof. by destruct s1. Qed.

Lemma trim_clean (s : string) :
  starts_clean (trim s) /\ starts_clean (rev_string EmptyString (trim s)).
Proof.
  unfold trim, trimEnd. split; [apply trimStart_head|].
  set (t := trimStart (rev_string EmptyString s)).
  pose proof (trimStart_head (rev_string EmptyString s)) as Ht. fold t in Ht.
  destruct (trimStart_suffix (rev_string EmptyString t)) as (pre & Hpre).
  set (u := trimStart (rev_string EmptyString t)) in *.
  assert (t = String.append (rev_string EmptyString u)
                (rev_string EmptyString pre)) as Ht'.
  { rewrite <- rev_string_of_append, <- Hpre.
    by rewrite rev_string_involutive. }
  destruct (rev_string EmptyString u) as [|c r] eqn:Hu; [done|].
  rewrite Ht' in Ht. by apply starts_clean_append in Ht.
Qed.

Lemma trim_fixed (s : string) :
  starts_clean s -> starts_clean (rev_string EmptyString s) -> trim s = s.
Proof.
  intros Hs Hr. unfold trim, trimEnd.
  rewrite (trimStart_fixed _ Hr), rev_string_involutive.
  by apply trimStart_fixed.
Qed.

Lemma trim_idempotent (s : string) : trim (trim s) = trim s.
Proof. destruct (trim_clean s). by apply trim_fixed. Qed.

(** X16. [parse] ignores white space around the specification: a
    specification and its trimmed text give the same result, as long as
    something is left after trimming.  A specification of white space
    only is not reported as empty but as an invalid decimal. *)
Theorem parse_trim (spec : string) :
  (trim spec <> EmptyString -> parse (trim spec) = parse spec) /\
  (spec <> EmptyString -> trim spec = EmptyString ->
   parse spec = Err InvalidDecimalFormat) /\
  (starts_clean spec -> starts_clean (rev_string EmptyString spec) ->
   trim spec = spec).
Proof.
  split; [|split].
  - intros Hne.
    assert (spec <> EmptyString) as Hne' by (by intros ->).
    by rewrite !parse_nonempty, trim_idempotent.
  - intros Hne Hws. rewrite parse_nonempty, Hws by done. done.
  - apply trim_fixed.
Qed.

(** ** The name of the trapped document *)

Lemma append_inv_length (s1 s2 t1 t2 : string) :
  String.append s1 t1 = String.append s2 t2 ->
  String.length s1 = String.length s2 -> s1 = s2 /\ t1 = t2.
Proof.
  revert s2. induction s1 as [|c s1 IH]; intros [|d s2]; try done.
  simpl. intros [= -> Happ] [= Hlen]. by destruct (IH s2 Happ Hlen) as [-> ->].
Qed.

Lemma append_inv_r (s1 s2 t : string) :
  String.append s1 t = String.append s2 t -> s1 = s2.
Proof.
  intros Happ. apply (append_inv_length s1 s2 t t Happ).
  apply (f_equal String.length) in Happ. rewrite !length_append in Happ. lia.
Qed.

Lemma includes_char_append (s1 s2 : string) (c : ascii) :
  includes_char (String.append s1 s2) c
  = includes_char s1 c || includes_char s2 c.
Proof.
  induction s1 as [|d s1 IH]; [done|]. simpl. by rewrite IH, orb_assoc.
Qed.

Lemma lastIndexOf_absent (s : string) (c : ascii) :
  includes_char s c = false -> lastIndexOf s c = -1.
Proof.
  induction s as [|d s IH]; [done|]. simpl.
  intros [Hd Hs]%orb_false_iff. by rewrite (IH Hs), Hd.
Qed.

Lemma lastIndexOf_last (base ext : string) (c : ascii) :
  includes_char ext c = false ->
  lastIndexOf (String.append base (String c ext)) c
  = Z.of_nat (String.length base).
Proof.
  intros Hext. induction base as [|d base IH].
  - simpl. by rewrite (lastIndexOf_absent _ _ Hext), Ascii.eqb_refl.
  - cbn [String.append lastIndexOf String.length]. rewrite IH.
    destruct (0 <=? Z.of_nat (String.length base)) eqn:E; lia.
Qed.

(** A text that contains [c] splits at the last [c]. *)
Lemma split_at_last (s : string) (c : ascii) :
  includes_char s c = true ->
  exists base ext,
    s = String.append base (String c ext) /\ includes_char ext c = false.
Proof.
  induction s as [|d s IH]; [done|]. simpl.
  destruct (includes_char s c) eqn:Hs.
  - intros _. destruct (IH eq_refl) as (base & ext & -> & Hext).
    by exists (String d base), ext.
  - rewrite orb_false_r. intros ->%Ascii.eqb_eq.
    by exists EmptyString, s.
Qed.

Lemma substring0_append (base rest : string) :
  substring0 (Z.of_nat (String.length base)) (String.append base rest) = base.
Proof.
  unfold substring0. rewrite Nat2Z.id.
  induction base as [|d base IH]; [by destruct rest|].
  simpl. by rewrite IH.
Qed.

Lemma substring_from_append (base rest : string) :
  substring_from (Z.of_nat (String.length base)) (String.append base rest)
  = rest.
Proof.
  unfold substring_from. rewrite Nat2Z.id, length_append.
  replace (String.length base + String.length rest - String.length base)%nat
    with (String.length rest) by lia.
  induction base as [|d base IH]; [|done].
  simpl. induction rest as [|e rest IHr]; [done|].
  simpl. by rewrite IHr.
Qed.

Lemma createTrappedDocumentName_plain (originalName : string) :
  includes_char originalName "." = false ->
  createTrappedDocumentName originalName
  = String.append originalName "-trapped".
Proof.
  intros Hno. unfold createTrappedDocumentName.
  by rewrite (lastIndexOf_absent _ _ Hno).
Qed.

Lemma createTrappedDocumentName_split (base ext : string) :
  includes_char ext "." = false ->
  createTrappedDocumentName (String.append base (String "." ext)) =
  match base with
  | EmptyString => String.append (String "." ext) "-trapped"
  | _ => String.append base (String.append "-trapped" (String "." ext))
  end.
Proof.
  intros Hext. unfold createTrappedDocumentName.
  rewrite (lastIndexOf_last _ _ _ Hext).
  destruct base as [|d base]; [done|].
  destruct (Z.of_nat (String.length (String d base)) =? -1) eqn:E1;
    [apply Z.eqb_eq in E1; lia|].
  destruct (Z.of_nat (String.length (String d base)) =? 0) eqn:E2;
    [apply Z.eqb_eq in E2; cbn [String.length] in E2; lia|].
  cbn [orb]. by rewrite substring0_append, substring_from_append.
Qed.

(** The three shapes of a trapped name, with the position of its last
    dot. *)
Lemma createTrappedDocumentName_shape (originalName : string) :
  (includes_char originalName "." = false
   /\ lastIndexOf (createTrappedDocumentName originalName) "." = -1
   /\ createTrappedDocumentName originalName
      = String.append originalName "-trapped") \/
  (exists ext,
     originalName = String "." ext
     /\ lastIndexOf (createTrappedDocumentName originalName) "." = 0
     /\ createTrappedDocumentName originalName
        = String.append originalName "-trapped") \/
  (exists base ext,
     originalName = String.append base (String "." ext)
     /\ base <> EmptyString
     /\ lastIndexOf (createTrappedDocumentName originalName) "."
        = Z.of_nat (String.length base) + 8
     /\ createTrappedDocumentName originalName
        = String.append (String.append base "-trapped") (String "." ext)).
Proof.
  destruct (includes_char originalName ".") eqn:Hdot.
  - right. destruct (split_at_last _ _ Hdot) as (base & ext & -> & Hext).
    rewrite (createTrappedDocumentName_split _ _ Hext).
    destruct base as [|d base].
    + left. exists ext. split; [done|]. split; [|done].
      apply (lastIndexOf_last EmptyString (String.append ext "-trapped")).
      by rewrite includes_char_append, Hext.
    + right. exists (String d base), ext. split; [done|]. split; [done|].
      rewrite <- append_assoc. split; [|done].
      rewrite (lastIndexOf_last _ _ _ Hext), length_append. simpl. lia.
  - left. split; [done|].
    rewrite (createTrappedDocumentName_plain _ Hdot). split; [|done].
    apply lastIndexOf_absent. by rewrite includes_char_append, Hdot.
Qed.

(** X17. [createTrappedDocumentName] puts [-trapped] in front of the
    last dot of the name, or at the end of a name that has no dot or
    whose only dot is its first character; the result is 8 characters
    longer than the name. *)
Theorem createTrappedDocumentName_spec (originalName : string) :
  (includes_char originalName "." = false ->
   createTrappedDocumentName originalName
   = String.append originalName "-trapped") /\
  (forall base ext,
     originalName = String.append base (String "." ext) ->
     includes_char ext "." = false ->
     createTrappedDocumentName originalName =
     match base with
     | EmptyString => String.append originalName "-trapped"
     | _ => String.append base (String.append "-trapped" (String "." ext))
     end) /\
  String.length (createTrappedDocumentName originalName)
  = (String.length originalName + 8)%nat.
Proof.
  split; [apply createTrappedDocumentName_plain|]. split.
  - intros base ext -> Hext.
    rewrite (createTrappedDocumentName_split _ _ Hext). by destruct base.
  - destruct (createTrappedDocumentName_shape originalName)
      as [(_ & _ & ->) | [(ext & _ & _ & ->) | (base & ext & -> & _ & _ & ->)]];
      rewrite !length_append; simpl; lia.
Qed.

(** X18. Different names get different trapped names. *)
Theorem createTrappedDocumentName_injective (name1 name2 : string) :
  createTrappedDocumentName name1 = createTrappedDocumentName name2 ->
  name1 = name2.
Proof.
  intros Heq.
  destruct (createTrappedDocumentName_shape name1)
    as [(_ & Hi1 & Hn1) | [(e1 & He1 & Hi1 & Hn1)
                          | (b1 & e1 & He1 & Hb1 & Hi1 & Hn1)]];
    destruct (createTrappedDocumentName_shape name2)
      as [(_ & Hi2 & Hn2) | [(e2 & He2 & Hi2 & Hn2)
                            | (b2 & e2 & He2 & Hb2 & Hi2 & Hn2)]];
    rewrite Heq in Hi1; rewrite Hi1 in Hi2; try lia.
  - rewrite Hn1, Hn2 in Heq. by apply append_inv_r in Heq.
  - rewrite Hn1, Hn2 in Heq. by apply append_inv_r in Heq.
  - rewrite Hn1, Hn2 in Heq.
    apply append_inv_length in Heq as [Hb He];
      [|rewrite !length_append; lia].
    apply append_inv_r in Hb. congruence.
Qed.

(** ** Which documents are accepted *)

Lemma single_unlocked_layer (ls : list Layer) :
  (Z.of_nat (length (List.filter (fun layer => negb (locked layer)) ls)) =? 0)
    = false ->
  (Z.of_nat (length (List.filter (fun layer => negb (locked layer)) ls)) >? 1)
  || (Z.of_nat (length ls) >? 1) = false ->
  exists layer, ls = [layer] /\ locked layer = false.
Proof.
  destruct ls as [|l [|l' ls]]; [done| |].
  - simpl. destruct l as [[]]; [done|]. intros _ _. by eexists.
  - intros _ [_ Hlen]%orb_false_iff. simpl length in Hlen.
    rewrite Z.gtb_ltb in Hlen. apply Z.ltb_ge in Hlen. lia.
Qed.

(** X19. [checkDocumentValidity] accepts a document exactly when it is
    in RGB mode with 8 bits per channel and has exactly one layer,
    which is unlocked.  A document it accepts passes [validateDocument]
    in [applyTrapping] without an error, and the source layer that
    [applyTrapping] looks up is that one layer. *)
Theorem checkDocumentValidity_spec (document : option HostDocument)
    (info : DocInfo) :
  (checkDocumentValidity document = Valid info <->
   exists layer,
     document = Some {| layers := [layer]; docInfo := info |}
     /\ locked layer = false /\ mode info = "RGB"%string
     /\ bitsPerChannel info = 8) /\
  (checkDocumentValidity document = Valid info ->
   exists doc layer warned,
     document = Some doc /\
     validateDocument (docInfo doc) = inr warned /\
     sourceLayer doc = Some layer /\ layers doc = [layer]).
Proof.
  assert (checkDocumentValidity document = Valid info ->
          exists layer,
            document = Some {| layers := [layer]; docInfo := info |}
            /\ locked layer = false /\ mode info = "RGB"%string
            /\ bitsPerChannel info = 8) as Hvalid.
  { destruct document as [[ls di]|]; [|done].
    unfold checkDocumentValidity. cbn [docInfo layers].
    destruct (String.eqb (mode di) "RGB") eqn:Hmode; [|done].
    destruct (bitsPerChannel di =? 8) eqn:Hbits; [|done].
    cbn [negb].
    destruct (Z.of_nat (length (List.filter _ ls)) =? 0) eqn:Hnone; [done|].
    destruct ((Z.of_nat (length (List.filter _ ls)) >? 1) || _) eqn:Hmany;
      [done|].
    intros [= <-].
    destruct (single_unlocked_layer ls Hnone Hmany) as (layer & -> & Hl).
    exists layer. split; [done|]. split; [done|].
    apply String.eqb_eq in Hmode. apply Z.eqb_eq in Hbits. done. }
  split; [split; [done|]|].
  - intros (layer & -> & Hl & Hmode & Hbits).
    unfold checkDocumentValidity. cbn [docInfo layers List.filter].
    rewrite Hmode, Hbits, Hl. done.
  - intros Hv. destruct (Hvalid Hv) as (layer & -> & Hl & Hmode & Hbits).
    eexists _, layer, _. split; [done|]. cbn [docInfo layers].
    unfold validateDocument, sourceLayer. cbn [layers List.find].
    rewrite Hmode, Hbits, Hl. done.
Qed.

(** ** The recommended sizes *)

(** X20. For both printing modes the recommended sizes are a trap range
    that [validateRange] accepts without a warning; its lower bound is
    [minInches], its upper bound is [maxInches] for [offset] and within
    0.0001 of [maxInches] for [screen] (where 4pt is not exactly
    0.0556); [minInches] and [maxInches] are the defaults of
    [getTrappingStrategy] for that mode.  Every other mode makes
    [getRecommendedSizes] throw, while [getTrappingStrategy] treats it
    as [offset]. *)
Theorem getRecommendedSizes_spec (mode : string) :
  (forall sizes,
     getRecommendedSizes mode = inr sizes ->
     exists r,
       validateRange (recommended_min sizes) (recommended_max sizes)
         = Ok (r, false) /\
       min r = minInches sizes /\
       lt (Math_abs (fsub (max r) (maxInches sizes)))
         (of_decimal false 1 (-4)) = true /\
       strict_eq (max r) (maxInches sizes) = String.eqb mode "offset" /\
       defaultMinTrap (getTrappingStrategy mode) = minInches sizes /\
       defaultMaxTrap (getTrappingStrategy mode) = maxInches sizes) /\
  ((exists message, getRecommendedSizes mode = inl message) <->
   mode <> "offset"%string /\ mode <> "screen"%string) /\
  (mode <> "screen"%string ->
   getTrappingStrategy mode = getTrappingStrategy "offset").
Proof.
  split; [|split].
  - intros sizes. unfold getRecommendedSizes.
    destruct (String.eqb mode "offset") eqn:Hoff.
    + apply String.eqb_eq in Hoff as ->. intros [= <-].
      exists {| min := of_Z 0; max := fdiv (of_Z 1) (of_Z 32) |}.
      vm_compute. done.
    + destruct (String.eqb mode "screen") eqn:Hscr; [|done].
      apply String.eqb_eq in Hscr as ->. intros [= <-].
      exists {| min := of_Z 0; max := fdiv (of_Z 4) (of_Z 72) |}.
      vm_compute. done.
  - unfold getRecommendedSizes.
    destruct (String.eqb mode "offset") eqn:Hoff.
    { apply String.eqb_eq in Hoff as ->.
      split; [by intros [? ?]|by intros [? _]]. }
    destruct (String.eqb mode "screen") eqn:Hscr.
    { apply String.eqb_eq in Hscr as ->.
      split; [by intros [? ?]|by intros [_ ?]]. }
    apply String.eqb_neq in Hoff, Hscr. split; [done|]. intros _. by eexists.
  - intros Hscr. unfold getTrappingStrategy.
    apply String.eqb_neq in Hscr. by rewrite Hscr.
Qed.

(** ** Printing numbers and reading them back *)

Lemma digit_cases (d : ascii) :
  is_digit d = true ->
  In d ["0"; "1"; "2"; "3"; "4"; "5"; "6"; "7"; "8"; "9"]%char.
Proof.
  destruct d as [[] [] [] [] [] [] [] []]; intros H; vm_compute in H;
    try discriminate H; simpl; auto 12.
Qed.

Ltac digit_case H :=
  apply digit_cases in H;
  destruct H as [<- | [<- | [<- | [<- | [<- | [<- | [<- | [<- | [<- | [<- | []]]]]]]]]]].

Lemma digit_char_is_digit (d : N) : (d < 10)%N -> is_digit (digit_char d) = true.
Proof.
  intros Hd.
  assert (d = 0 \/ d = 1 \/ d = 2 \/ d = 3 \/ d = 4 \/ d = 5 \/ d = 6 \/ d = 7
          \/ d = 8 \/ d = 9)%N
    as [-> | [-> | [-> | [-> | [-> | [-> | [-> | [-> | [-> | ->]]]]]]]]]
    by lia; done.
Qed.

Lemma digit_value_char (d : N) : (d < 10)%N -> digit_value (digit_char d) = d.
Proof.
  intros Hd.
  assert (d = 0 \/ d = 1 \/ d = 2 \/ d = 3 \/ d = 4 \/ d = 5 \/ d = 6 \/ d = 7
          \/ d = 8 \/ d = 9)%N
    as [-> | [-> | [-> | [-> | [-> | [-> | [-> | [-> | [-> | ->]]]]]]]]]
    by lia; done.
Qed.

Lemma fold_digits (ds : list ascii) (a : N) :
  fold_left (fun acc c => (acc * 10 + digit_value c)%N) ds a
  = (a * 10 ^ N.of_nat (length ds) + digits_to_N ds)%N.
Proof.
  unfold digits_to_N. revert a. induction ds as [|d ds IH]; intros a.
  - simpl. lia.
  - cbn [fold_left length]. rewrite (IH (a * 10 + digit_value d)%N).
    rewrite (IH (0 * 10 + digit_value d)%N).
    rewrite Nat2N.inj_succ, N.pow_succ_r'. lia.
Qed.

Lemma digits_to_N_cons (d : ascii) (ds : list ascii) :
  digits_to_N (d :: ds)
  = (digit_value d * 10 ^ N.of_nat (length ds) + digits_to_N ds)%N.
Proof.
  unfold digits_to_N at 1. cbn [fold_left]. rewrite fold_digits. lia.
Qed.

Lemma digits_to_N_app (l1 l2 : list ascii) :
  digits_to_N (l1 ++ l2)
  = (digits_to_N l1 * 10 ^ N.of_nat (length l2) + digits_to_N l2)%N.
Proof.
  unfold digits_to_N at 1. rewrite fold_left_app.
  change (fold_left _ l1 0%N) with (digits_to_N l1). apply fold_digits.
Qed.

Lemma digits_fuel_spec (fuel : nat) (n : N) (acc : list ascii) :
  (n < 10 ^ N.of_nat fuel)%N -> all_digits acc ->
  all_digits (digits_fuel fuel n acc) /\
  digits_to_N (digits_fuel fuel n acc)
  = (n * 10 ^ N.of_nat (length acc) + digits_to_N acc)%N.
Proof.
  revert n acc. induction fuel as [|k IH]; intros n acc Hn Hacc.
  - simpl in *. split; [done|]. assert (n = 0%N) as -> by lia. lia.
  - cbn [digits_fuel].
    assert (n mod 10 < 10)%N as Hd by (apply N.mod_lt; lia).
    assert (all_digits (digit_char (n mod 10) :: acc)) as Hacc'
        by (constructor; [by apply digit_char_is_digit|done]).
    assert (digits_to_N (digit_char (n mod 10) :: acc)
            = (n mod 10 * 10 ^ N.of_nat (length acc) + digits_to_N acc)%N)
      as Hval by (by rewrite digits_to_N_cons, digit_value_char).
    pose proof (N.div_mod n 10 ltac:(lia)) as Hdiv.
    destruct (n / 10 =? 0)%N eqn:Hq.
    + split; [done|]. rewrite Hval. apply N.eqb_eq in Hq. f_equal. f_equal. lia.
    + assert (n / 10 < 10 ^ N.of_nat k)%N as Hlt.
      { apply N.Div0.div_lt_upper_bound.
        rewrite Nat2N.inj_succ, N.pow_succ_r' in Hn. lia. }
      destruct (IH (n / 10)%N _ Hlt Hacc') as [Hall Hnum].
      split; [done|]. rewrite Hnum, Hval. cbn [length].
      rewrite Nat2N.inj_succ, N.pow_succ_r'. lia.
Qed.

Lemma digits_fuel_length (fuel : nat) (n : N) (acc : list ascii) :
  (length acc <= length (digits_fuel fuel n acc))%nat.
Proof.
  revert n acc. induction fuel as [|k IH]; intros n acc; [done|].
  cbn [digits_fuel]. destruct (n / 10 =? 0)%N; [simpl; lia|].
  etrans; [|apply IH]. simpl. lia.
Qed.

Lemma digits_of_N_spec (n : N) :
  all_digits (digits_of_N n) /\ digits_to_N (digits_of_N n) = n
  /\ digits_of_N n <> [].
Proof.
  unfold digits_of_N.
  assert (n < 10 ^ N.of_nat (S (N.to_nat (N.log2 n))))%N as Hn.
  { rewrite Nat2N.inj_succ, N2Nat.id.
    destruct n as [|p]; [done|].
    pose proof (N.log2_spec (N.pos p) ltac:(lia)) as [_ Hup].
    eapply N.lt_le_trans; [exact Hup|].
    apply N.pow_le_mono_l. lia. }
  destruct (digits_fuel_spec _ n [] Hn ltac:(constructor)) as [Hall Hnum].
  split; [done|]. split.
  - rewrite Hnum. cbn [length]. change (digits_to_N []) with 0%N.
    change (N.of_nat 0) with 0%N. rewrite N.pow_0_r. lia.
  - cbn [digits_fuel]. intros Hnil.
    destruct (n / 10 =? 0)%N; [done|].
    pose proof (digits_fuel_length (N.to_nat (N.log2 n)) (n / 10)
                  [digit_char (n mod 10)]) as Hlen.
    rewrite Hnil in Hlen. simpl in Hlen. lia.
Qed.

Lemma digits_to_N_zeros (k : nat) : digits_to_N (replicate k "0"%char) = 0%N.
Proof.
  induction k as [|k IH]; [done|].
  cbn [replicate]. rewrite digits_to_N_cons, IH. done.
Qed.

Lemma fixed_digits_spec (n f : N) :
  (0 < f)%N ->
  exists ip fp,
    fixed_digits n f = ip ++ "."%char :: fp /\
    ip <> [] /\ all_digits ip /\ all_digits fp /\
    length fp = N.to_nat f /\ digits_to_N (ip ++ fp) = n.
Proof.
  intros Hf. unfold fixed_digits.
  destruct (f =? 0)%N eqn:E; [apply N.eqb_eq in E; lia|].
  destruct (digits_of_N_spec n) as (Hall & Hnum & _).
  set (m := replicate (N.to_nat f + 1 - length (digits_of_N n)) "0"%char
            ++ digits_of_N n).
  assert (N.to_nat f + 1 <= length m)%nat as Hlen.
  { unfold m. rewrite length_app, length_replicate. lia. }
  assert (all_digits m) as Hm.
  { unfold m. apply Forall_app. split; [|done].
    by apply Forall_replicate. }
  exists (take (length m - N.to_nat f) m), (drop (length m - N.to_nat f) m).
  split; [done|]. split.
  { intros Hnil. apply (f_equal length) in Hnil.
    rewrite length_take in Hnil. simpl in Hnil. lia. }
  split; [by apply Forall_take|]. split; [by apply Forall_drop|].
  split; [rewrite length_drop; lia|].
  rewrite take_drop. unfold m.
  rewrite digits_to_N_app, digits_to_N_zeros. lia.
Qed.

Lemma string_of_list_ascii_app (l1 l2 : list ascii) :
  string_of_list_ascii (l1 ++ l2)
  = String.append (string_of_list_ascii l1) (string_of_list_ascii l2).
Proof. induction l1 as [|c l1 IH]; [done|]. simpl. by rewrite IH. Qed.

Lemma take_digits_app (ds : list ascii) (rest : string) :
  all_digits ds -> no_digit_ahead rest ->
  take_digits (String.append (string_of_list_ascii ds) rest) = (ds, rest).
Proof.
  intros Hds Hrest. induction Hds as [|d ds Hd _ IH].
  - destruct rest as [|c rest]; [done|]. simpl in *. by rewrite Hrest.
  - simpl. by rewrite Hd, IH.
Qed.

Lemma scan_decimal_negative (s1 : string) :
  scan_decimal (String "-" s1) = scan_unsigned true s1.
Proof. done. Qed.

Lemma scan_decimal_digit (d : ascii) (r : string) :
  is_digit d = true ->
  scan_decimal (String d r) = scan_unsigned false (String d r).
Proof. intros Hd. by digit_case Hd. Qed.

(** Scanning a text made of digits, a point and digits. *)
Lemma scan_unsigned_fixed (neg : bool) (ip fp : list ascii) (rest : string) :
  ip <> [] -> all_digits ip -> all_digits fp ->
  no_digit_ahead rest -> scan_exponent rest = None ->
  scan_unsigned neg
    (String.append (string_of_list_ascii ip)
       (String "." (String.append (string_of_list_ascii fp) rest)))
  = Some (of_decimal neg (digits_to_N (ip ++ fp)) (0 - Z.of_nat (length fp)),
          rest).
Proof.
  intros Hne Hip Hfp Hrest Hexp. unfold scan_unsigned.
  assert (String.prefix "Infinity"
            (String.append (string_of_list_ascii ip)
               (String "." (String.append (string_of_list_ascii fp) rest)))
          = false) as ->.
  { destruct Hip as [|d ip Hd _]; [done|]. by digit_case Hd. }
  rewrite (take_digits_app ip) by done.
  rewrite (take_digits_app fp) by done.
  rewrite Hexp. destruct ip; [done|]. done.
Qed.

Lemma of_decimal_sign (s : bool) (m : N) (e : Z) : has_sign s (of_decimal s m e).
Proof.
  unfold of_decimal. destruct m as [|p]; [done|].
  destruct e as [|k|k]; try apply binary_round_sign.
  pose proof (SFdiv_core_nonneg prec emax p 0 (10 ^ k) 0) as Hq.
  destruct (SFdiv_core_binary prec emax (Z.pos p) 0 (Z.pos (10 ^ k)) 0)
    as [[q e'] l].
  by apply binary_round_aux_sign.
Qed.

Lemma toFixed_finite (s : bool) (m : positive) (e : Z) (f : N) (text : string) :
  (0 < f)%N ->
  toFixed (S754_finite s m e) f = Some text ->
  exists ip fp,
    fixed_text s ip fp text /\ length fp = N.to_nat f
    /\ digits_to_N (ip ++ fp) = nearest_scaled m e f.
Proof.
  intros Hf. unfold toFixed.
  destruct (ge _ _); [done|]. intros [= <-].
  destruct (fixed_digits_spec (nearest_scaled m e f) f Hf)
    as (ip & fp & -> & Hne & Hip & Hfp & Hlen & Hnum).
  exists ip, fp. split; [|done]. split; [by destruct s|].
  split; [done|]. split; [|done].
  intros ->. simpl in Hlen. lia.
Qed.

Lemma includes_char_digits (ds : list ascii) (c : ascii) :
  all_digits ds -> is_digit c = false ->
  includes_char (string_of_list_ascii ds) c = false.
Proof.
  intros Hds Hc. induction Hds as [|d ds Hd _ IH]; [done|].
  simpl. rewrite IH, orb_false_r. apply Ascii.eqb_neq. by intros ->; congruence.
Qed.

Lemma rev_string_of_list (l : list ascii) :
  rev_string EmptyString (string_of_list_ascii l)
  = string_of_list_ascii (rev l).
Proof.
  induction l as [|c l IH]; [done|].
  simpl. rewrite rev_string_append, IH, string_of_list_ascii_app. done.
Qed.

Lemma starts_clean_digits (ds : list ascii) (rest : string) :
  all_digits ds -> ds <> [] ->
  starts_clean (String.append (string_of_list_ascii ds) rest).
Proof.
  intros Hds Hne. destruct Hds as [|d ds Hd _]; [done|].
  simpl. by digit_case Hd.
Qed.

Lemma toLowerCase_append (s1 s2 : string) :
  toLowerCase (String.append s1 s2)
  = String.append (toLowerCase s1) (toLowerCase s2).
Proof. induction s1 as [|c s1 IH]; [done|]. simpl. by rewrite IH. Qed.

(** What the parser sees in a text printed by [toFixed], followed by
    [suffix]. *)
Lemma fixed_text_read (neg : bool) (ip fp : list ascii) (text suffix : string) :
  fixed_text neg ip fp text ->
  no_digit_ahead suffix -> scan_exponent suffix = None ->
  starts_clean (String.append text suffix) /\
  starts_clean (rev_string EmptyString text) /\
  includes_char text "/" = false /\
  text <> EmptyString /\
  scan_decimal (String.append text suffix)
  = Some (of_decimal neg (digits_to_N (ip ++ fp)) (0 - Z.of_nat (length fp)),
          suffix).
Proof.
  intros (-> & Hip0 & Hfp0 & Hip & Hfp) Hsuffix Hexp.
  assert (string_of_list_ascii (ip ++ "."%char :: fp)
          = String.append (string_of_list_ascii ip)
              (String "." (string_of_list_ascii fp))) as Hbody
      by (by rewrite string_of_list_ascii_app).
  assert (forall rest,
            String.append
              (String.append (string_of_list_ascii ip)
                 (String "." (string_of_list_ascii fp))) rest
            = String.append (string_of_list_ascii ip)
                (String "." (String.append (string_of_list_ascii fp) rest)))
    as Hassoc by (intros rest; by rewrite append_assoc).
  split; [|split; [|split; [|split]]].
  - destruct neg; [done|]. cbn [app]. rewrite Hbody, Hassoc.
    by apply starts_clean_digits.
  - rewrite rev_string_of_list, !rev_app_distr. cbn [rev].
    rewrite <- !app_assoc, string_of_list_ascii_app.
    apply starts_clean_digits; [by apply Forall_rev|].
    intros Hnil. apply (f_equal (@rev ascii)) in Hnil.
    by rewrite rev_involutive in Hnil.
  - rewrite string_of_list_ascii_app, includes_char_append, Hbody.
    rewrite includes_char_append. cbn [includes_char].
    rewrite (includes_char_digits ip), (includes_char_digits fp) by done.
    by destruct neg.
  - destruct neg; [done|]. destruct ip; done.
  - destruct neg; cbn [app string_of_list_ascii String.append].
    + rewrite scan_decimal_negative, Hbody, Hassoc.
      by apply scan_unsigned_fixed.
    + rewrite Hbody, Hassoc. destruct Hip as [|d ip Hd Hip]; [done|].
      cbn [string_of_list_ascii String.append].
      rewrite scan_decimal_digit by done.
      by apply (scan_unsigned_fixed false (d :: ip)); [|constructor|..].
Qed.

Lemma prefix_append (p s : string) : String.prefix p (String.append p s) = true.
Proof.
  induction p as [|c p IH]; [by destruct s|].
  simpl. by destruct (ascii_dec c c).
Qed.

Lemma parse_fixed_inches (neg : bool) (ip fp : list ascii) (text : string) :
  fixed_text neg ip fp text ->
  parse (String.append text inch_mark)
  = Ok (of_decimal neg (digits_to_N (ip ++ fp)) (0 - Z.of_nat (length fp))).
Proof.
  intros Htext.
  destruct (fixed_text_read neg ip fp text inch_mark Htext eq_refl eq_refl)
    as (Hclean & Hrev & Hslash & Hne & Hscan).
  assert (trim (String.append text inch_mark) = String.append text inch_mark)
    as Htrim.
  { apply trim_fixed; [done|]. by rewrite rev_string_of_append. }
  rewrite parse_nonempty, Htrim by (by destruct text).
  assert (notation_of (String.append text inch_mark) = Decimal) as ->.
  { unfold notation_of, endsWith.
    rewrite toLowerCase_append, rev_string_of_append.
    change (rev_string EmptyString (toLowerCase inch_mark)) with inch_mark.
    cbn [inch_mark String.append String.prefix].
    rewrite includes_char_append, Hslash. done. }
  unfold parseDecimal, parseFloat.
  rewrite (trimStart_fixed _ Hclean), Hscan.
  by rewrite (has_sign_not_nan neg) by apply of_decimal_sign.
Qed.

Lemma parse_fixed_points (neg : bool) (ip fp : list ascii) (text : string) :
  fixed_text neg ip fp text ->
  parse (String.append text "pt")
  = let points :=
      of_decimal neg (digits_to_N (ip ++ fp)) (0 - Z.of_nat (length fp)) in
    if lt points pos_zero then Err PointsNegative
    else Ok (fdiv points (of_Z 72)).
Proof.
  intros Htext.
  destruct (fixed_text_read neg ip fp text "pt" Htext eq_refl eq_refl)
    as (Hclean & Hrev & Hslash & Hne & _).
  destruct (fixed_text_read neg ip fp text EmptyString Htext I eq_refl)
    as (Hclean0 & _ & _ & _ & Hscan).
  rewrite append_nil_r in Hclean0, Hscan.
  assert (trim (String.append text "pt") = String.append text "pt") as Htrim.
  { apply trim_fixed; [done|]. by rewrite rev_string_of_append. }
  rewrite parse_nonempty, Htrim by (by destruct text).
  assert (notation_of (String.append text "pt") = Points) as ->.
  { unfold notation_of, endsWith.
    rewrite toLowerCase_append, rev_string_of_append.
    change (rev_string EmptyString (toLowerCase "pt")) with "tp"%string.
    change (rev_string EmptyString "pt") with "tp"%string.
    by rewrite prefix_append. }
  unfold parsePoints, parseFloat.
  assert (str_length (String.append text "pt") - 2
          = Z.of_nat (String.length text)) as ->.
  { unfold str_length. rewrite length_append. simpl. lia. }
  rewrite substring0_append, (trim_fixed text) by done.
  rewrite (trimStart_fixed _ Hclean0), Hscan.
  by rewrite (has_sign_not_nan neg) by apply of_decimal_sign.
Qed.

Lemma format_decimal (inches : number) (mode : string) :
  String.eqb mode "points" = false -> String.eqb mode "fraction" = false ->
  format inches (Some mode)
  = option_map (fun text => String.append text inch_mark) (toFixed inches 5).
Proof.
  intros Hp Hf. unfold format. cbn [from_option]. unfold id.
  by rewrite Hp, Hf.
Qed.

Lemma parse_toFixed_inches (inches : number) (text : string) :
  toFixed inches 5 = Some text ->
  parse (String.append text inch_mark) =
  match inches with
  | S754_finite s m e => Ok (of_decimal s (nearest_scaled m e 5) (-5))
  | S754_zero _ => Ok pos_zero
  | S754_infinity s => Ok (S754_infinity s)
  | S754_nan => Err InvalidDecimalFormat
  end.
Proof.
  destruct inches as [s|s| |s m e].
  - by intros [= <-].
  - intros [= <-]. by destruct s.
  - by intros [= <-].
  - intros Htext.
    destruct (toFixed_finite s m e 5 text ltac:(done) Htext)
      as (ip & fp & Hshape & Hlen & Hnum).
    rewrite (parse_fixed_inches s ip fp text Hshape), Hnum, Hlen. done.
Qed.

(** X21. Reading back a size printed in decimal mode: when [format]
    gives a text for a mode other than [points] and [fraction], [parse]
    accepts that text, trailing inch mark included, and returns the
    size rounded to five decimals: the number nearest to [n / 10^5],
    where [n] is the integer nearest to [inches * 10^5] (the larger one
    in a tie), with the sign of [inches].  Zero and the infinities are
    read back as they are (zero as +0); only NaN is printed as a text
    that [parse] rejects. *)
Theorem format_decimal_parse (inches : number) (mode text : string) :
  String.eqb mode "points" = false -> String.eqb mode "fraction" = false ->
  format inches (Some mode) = Some text ->
  parse text =
  match inches with
  | S754_finite s m e => Ok (of_decimal s (nearest_scaled m e 5) (-5))
  | S754_zero _ => Ok pos_zero
  | S754_infinity s => Ok (S754_infinity s)
  | S754_nan => Err InvalidDecimalFormat
  end.
Proof.
  intros Hp Hf. rewrite (format_decimal _ _ Hp Hf).
  destruct (toFixed inches 5) as [t|] eqn:Ht; [|done].
  intros [= <-]. by apply parse_toFixed_inches.
Qed.

(** X22. Reading back a size printed in points: [format] prints
    [inches * 72] to one decimal followed by [pt]; [parse] reads that
    text as points and returns the printed value divided by 72, unless
    the printed value is below zero, which [parse] rejects although
    [format] printed it.  A NaN is printed as a text that [parse]
    rejects. *)
Theorem format_points_parse (inches : number) (text : string) :
  format inches (Some "points"%string) = Some text ->
  parse text =
  match fmul inches (of_Z 72) with
  | S754_finite s m e =>
      let points := of_decimal s (nearest_scaled m e 1) (-1) in
      if lt points pos_zero then Err PointsNegative
      else Ok (fdiv points (of_Z 72))
  | S754_zero _ => Ok pos_zero
  | S754_infinity false => Ok (S754_infinity false)
  | S754_infinity true => Err PointsNegative
  | S754_nan => Err InvalidPointFormat
  end.
Proof.
  unfold format. cbn [from_option]. unfold id.
  change (String.eqb "points" "points") with true. cbn match.
  destruct (fmul inches (of_Z 72)) as [s|s| |s m e] eqn:Hpoints.
  - by intros [= <-].
  - intros [= <-]. by destruct s.
  - by intros [= <-].
  - destruct (toFixed (S754_finite s m e) 1) as [t|] eqn:Ht; [|done].
    intros [= <-].
    destruct (toFixed_finite s m e 1 t ltac:(done) Ht)
      as (ip & fp & Hshape & Hlen & Hnum).
    rewrite (parse_fixed_points s ip fp t Hshape), Hnum, Hlen. done.
Qed.

Lemma parse_commonFractions :
  Forall (fun frac => parse (str frac) = Ok (value frac)) commonFractions.
Proof. repeat constructor. Qed.

(** X23. In fraction mode (also when no mode is given) [format] prints
    the first common fraction that is within 0.0001 of the size, and
    [parse] reads that text back, inch mark included, as exactly that
    fraction; when no common fraction is that close the text is the
    one of decimal mode. *)
Theorem format_fraction_parse (inches : number) (mode : option string)
    (text : string) :
  default "fraction"%string mode = "fraction"%string ->
  format inches mode = Some text ->
  (exists frac,
     frac ∈ commonFractions /\ is_close inches frac = true /\
     text = str frac /\ parse text = Ok (value frac)) \/
  ((forall frac, frac ∈ commonFractions -> is_close inches frac = false) /\
   format inches (Some "decimal"%string) = Some text).
Proof.
  intros Hmode. unfold format at 1. rewrite Hmode.
  change (String.eqb "fraction" "points") with false.
  change (String.eqb "fraction" "fraction") with true. cbn match.
  destruct (List.find (is_close inches) commonFractions) as [frac|] eqn:Hfind.
  - intros [= <-]. left. exists frac.
    destruct (List.find_some _ _ Hfind) as [Hin Hclose].
    apply list_elem_of_In in Hin. split; [done|]. split; [done|].
    split; [done|].
    pose proof parse_commonFractions as Hall.
    rewrite Forall_forall in Hall. by apply Hall.
  - intros Htext. right. split.
    + intros frac Hin. apply list_elem_of_In in Hin.
      apply (List.find_none _ _ Hfind frac Hin).
    + by rewrite format_decimal.
Qed.

(** ** The mask of the darker layers, for separated layers *)

(** X24. For the layers separated from a flattened raster, the mask
    built for layer [i] is opaque exactly at the pixels whose colour
    comes after position [i] in the sorted colours.  The mask of the
    next layer lies within it, and when the sorted colours are pairwise
    different the mask of a layer never covers a pixel of the colour of
    that layer. *)
Theorem darker_mask_separated (document : Document) (flattenedData : ImageData)
    (sortedColors : list ColorEntry) (i : nat) (x y : Z) :
  doc_width document = width flattenedData ->
  doc_height document = height flattenedData ->
  inside (width flattenedData) (height flattenedData) x y ->
  let colorLayers := separateColors flattenedData sortedColors in
  let mask := createDarkerColorMaskFromLayers document i colorLayers in
  (opaque mask x y = true <->
   exists j c', (i < j)%nat /\ sortedColors !! j = Some c'
                /\ matches_color flattenedData c' x y = true) /\
  (opaque (createDarkerColorMaskFromLayers document (S i) colorLayers) x y
   = true -> opaque mask x y = true) /\
  (NoDup (key_of <$> sortedColors) ->
   forall c, sortedColors !! i = Some c ->
             matches_color flattenedData c x y = true ->
             opaque mask x y = false).
Proof.
  intros Hdw Hdh Hin colorLayers mask.
  assert (forall k,
            opaque (createDarkerColorMaskFromLayers document k colorLayers) x y
            = true <->
            exists j c', (k < j)%nat /\ sortedColors !! j = Some c'
                         /\ matches_color flattenedData c' x y = true)
    as Hmask.
  { intros k.
    rewrite darker_mask_opaque;
      [|by apply separateColors_widths|by rewrite Hdw, Hdh].
    split.
    - intros (j & cl & Hj & Hl & Hop).
      apply lookup_separateColors in Hl as (c' & Hc' & _ & Hpx).
      rewrite Hpx, opaque_extract in Hop by done. by exists j, c'.
    - intros (j & c' & Hj & Hc' & Hm).
      exists j, {| color := c'; layer_lightness := lightness c';
                   pixelData := extractSingleColor flattenedData c' |}.
      split; [done|]. split.
      + unfold colorLayers, separateColors.
        change (map ?f ?l) with (f <$> l).
        by rewrite list_lookup_fmap, Hc'.
      + cbn [pixelData]. by rewrite opaque_extract. }
  split; [apply Hmask|]. split.
  - intros Hnext. apply Hmask. apply Hmask in Hnext as (j & c' & Hj & Hrest).
    exists j, c'. split; [lia|done].
  - intros Hnd c Hc Hm. destruct (opaque mask x y) eqn:Hop; [|done].
    apply Hmask in Hop as (j & c' & Hj & Hc' & Hm').
    rewrite matches_color_key in Hm, Hm'.
    destruct (pixel_key flattenedData (y, x)) as [k|]; [|done].
    apply key_eqb_eq in Hm, Hm'.
    assert (i = j); [|lia].
    apply (NoDup_lookup _ i j k Hnd);
      rewrite list_lookup_fmap; [rewrite Hc|rewrite Hc']; simpl; congruence.
Qed.

(** ** Dilation followed by erosion *)

Lemma ball_spreads (src : ImageData) (n : nat) (px py qx qy : Z) :
  (forall cx cy, Z.abs (cx - px) + Z.abs (cy - py) <= Z.of_nat n ->
                 inside (width src) (height src) cx cy) ->
  opaque src px py = true ->
  Z.abs (qx - px) + Z.abs (qy - py) <= Z.of_nat n ->
  spreads_to None src n (qx, qy).
Proof.
  revert qx qy. induction n as [|n IH]; intros qx qy Hball Hop Hdist.
  - assert (qx = px /\ qy = py) as [-> ->] by lia.
    apply spread_source; [simpl; apply Hball; lia|done].
  - assert (forall cx cy, Z.abs (cx - px) + Z.abs (cy - py) <= Z.of_nat n ->
                          inside (width src) (height src) cx cy) as Hball'
        by (intros cx cy Hc; apply Hball; lia).
    destruct (decide (Z.abs (qx - px) + Z.abs (qy - py) <= Z.of_nat n))
      as [Hnear|Hfar].
    { apply spreads_to_more. by apply IH. }
    assert (exists cx cy,
              Z.abs (cx - px) + Z.abs (cy - py) <= Z.of_nat n
              /\ adjacent4 (cx, cy) (qx, qy)) as (cx & cy & Hc & Hadj).
    { unfold adjacent4. simpl.
      destruct (decide (px < qx)); [exists (qx - 1), qy; lia|].
      destruct (decide (qx < px)); [exists (qx + 1), qy; lia|].
      destruct (decide (py < qy)); [exists qx, (qy - 1); lia|].
      exists qx, (qy + 1). lia. }
    apply spread_step with (cx, cy); [by apply IH|done| |done].
    simpl. apply Hball. lia.
Qed.

(** X25. Spreading and then shrinking by the same radius gives back
    every opaque pixel that is at least [radius] away from the border
    of the raster: such a pixel is opaque after [applyDilation]
    followed by [applyErosion], with its four channels unchanged. *)
Theorem erosion_of_dilation_covers (sourceData : ImageData)
    (radiusPixels : Z) (x y : Z) :
  well_formed sourceData -> 0 <= radiusPixels ->
  (forall cx cy, Z.abs (cx - x) + Z.abs (cy - y) <= radiusPixels ->
                 inside (width sourceData) (height sourceData) cx cy) ->
  opaque sourceData x y = true ->
  opaque (applyErosion (applyDilation sourceData radiusPixels) radiusPixels)
    x y = true /\
  pixel (applyErosion (applyDilation sourceData radiusPixels) radiusPixels)
    x y = pixel sourceData x y.
Proof.
  intros Hwf Hr Hball Hop. unfold applyDilation.
  rewrite applyErosion_iter_any, applyDilationWithMask_iter_any.
  set (n := Z.to_nat radiusPixels).
  destruct (dilate_passes_invariant None sourceData n Hwf)
    as (Hwfd & Hwd & Hhd).
  assert (inside (width sourceData) (height sourceData) x y) as Hin
      by (apply Hball; lia).
  assert (opaque (Nat.iter n erode_pass (Nat.iter n (dilate_pass None) sourceData))
            x y = true) as Hopen.
  { apply erode_passes_ball; [done|by rewrite Hwd, Hhd|].
    intros qx qy Hq. rewrite Hwd, Hhd.
    assert (inside (width sourceData) (height sourceData) qx qy) as Hqin
        by (apply Hball; lia).
    split; [done|].
    apply dilate_passes_spread; [done..|].
    apply (ball_spreads sourceData n x y qx qy); [|done|lia].
    intros cx cy Hc. apply Hball. lia. }
  split; [done|].
  rewrite erode_passes_pixel; [|done|by rewrite Hwd, Hhd|done].
  by apply dilate_passes_keep.
Qed.

(** * The further properties at concrete inputs *)

(** Under the top-row mask the red centre spreads to (1, 0) in one
    pass. *)
Lemma applyDilationWithMask_exact_witness :
  well_formed two_colors /\ same_size (Some top_row_mask) two_colors /\
  0 <= 1 /\ inside (width two_colors) (height two_colors) 1 0 /\
  (opaque (applyDilationWithMask two_colors 1 (Some top_row_mask)) 1 0 = true
   <-> spreads_to (Some top_row_mask) two_colors (Z.to_nat 1) (1, 0)).
Proof.
  assert (same_size (Some top_row_mask) two_colors) as Hsize
      by (split; [exact well_formed_top_row_mask|split; reflexivity]).
  assert (inside (width two_colors) (height two_colors) 1 0) as Hin
      by (apply inside_3x3; lia).
  split; [exact well_formed_two_colors|]. split; [exact Hsize|].
  split; [lia|]. split; [exact Hin|].
  exact (applyDilationWithMask_exact two_colors 1 (Some top_row_mask) 1 0
           well_formed_two_colors Hsize ltac:(lia) Hin).
Defined.

(** The red centre is the same pixel before and after one pass. *)
Lemma applyDilationWithMask_keeps_witness :
  well_formed two_colors /\ 0 <= 1 /\
  inside (width two_colors) (height two_colors) 1 1 /\
  opaque (applyDilationWithMask two_colors 0 None) 1 1 = true /\
  pixel (applyDilationWithMask two_colors 1 None) 1 1
  = pixel (applyDilationWithMask two_colors 0 None) 1 1.
Proof.
  assert (inside (width two_colors) (height two_colors) 1 1) as Hin
      by (apply inside_3x3; lia).
  assert (opaque (applyDilationWithMask two_colors 0 None) 1 1 = true) as Hop
      by (vm_compute; reflexivity).
  split; [exact well_formed_two_colors|]. split; [lia|].
  split; [exact Hin|]. split; [exact Hop|].
  exact (applyDilationWithMask_keeps two_colors 0 1 None 1 1
           well_formed_two_colors ltac:(lia) Hin Hop).
Defined.

Lemma applyDilationWithMask_copies_witness :
  well_formed two_colors /\
  inside (width two_colors) (height two_colors) 1 0 /\
  opaque (applyDilationWithMask two_colors 1 None) 1 0 = true /\
  exists qx qy,
    inside (width two_colors) (height two_colors) qx qy /\
    opaque two_colors qx qy = true /\
    pixel (applyDilationWithMask two_colors 1 None) 1 0
    = pixel two_colors qx qy.
Proof.
  assert (inside (width two_colors) (height two_colors) 1 0) as Hin
      by (apply inside_3x3; lia).
  assert (opaque (applyDilationWithMask two_colors 1 None) 1 0 = true) as Hop
      by (vm_compute; reflexivity).
  split; [exact well_formed_two_colors|]. split; [exact Hin|].
  split; [exact Hop|].
  exact (applyDilationWithMask_copies two_colors 1 None 1 0
           well_formed_two_colors Hin Hop).
Defined.

Lemma dilated_layer_color_witness :
  inside (width two_colors) (height two_colors) 1 0 /\
  opaque (applyDilationWithMask (extractSingleColor two_colors red) 1 None)
    1 0 = true /\
  pixel (applyDilationWithMask (extractSingleColor two_colors red) 1 None) 1 0
  = [Some (r red); Some (g red); Some (b red); Some xff].
Proof.
  assert (inside (width two_colors) (height two_colors) 1 0) as Hin
      by (apply inside_3x3; lia).
  assert (opaque (applyDilationWithMask (extractSingleColor two_colors red)
                    1 None) 1 0 = true) as Hop
      by (vm_compute; reflexivity).
  split; [exact Hin|]. split; [exact Hop|].
  exact (dilated_layer_color two_colors red 1 None 1 0 Hin Hop).
Defined.

(** Eroding the red 3 x 3 square by 1 at its centre. *)
Lemma applyErosion_exact_witness :
  well_formed all_red /\ 0 <= 1 /\
  inside (width all_red) (height all_red) 1 1 /\
  (opaque (applyErosion all_red 1) 1 1 = true <-> ball_opaque all_red 1 1 1) /\
  (opaque (applyErosion all_red 1) 1 1 = true ->
   pixel (applyErosion all_red 1) 1 1 = pixel all_red 1 1).
Proof.
  assert (inside (width all_red) (height all_red) 1 1) as Hin
      by (apply inside_3x3; lia).
  split; [exact well_formed_all_red|]. split; [lia|]. split; [exact Hin|].
  exact (applyErosion_exact all_red 1 1 1 well_formed_all_red ltac:(lia) Hin).
Defined.

(** A 3 x 3 raster does not survive an erosion by 2. *)
Lemma applyErosion_narrow_witness :
  well_formed all_red /\ 0 <= 2 /\
  (width all_red < 2 * 2 + 1 \/ height all_red < 2 * 2 + 1) /\
  inside (width all_red) (height all_red) 1 1 /\
  opaque (applyErosion all_red 2) 1 1 = false.
Proof.
  assert (width all_red < 2 * 2 + 1 \/ height all_red < 2 * 2 + 1) as Hsmall
      by (left; simpl; lia).
  assert (inside (width all_red) (height all_red) 1 1) as Hin
      by (apply inside_3x3; lia).
  split; [exact well_formed_all_red|]. split; [lia|].
  split; [exact Hsmall|]. split; [exact Hin|].
  exact (applyErosion_narrow all_red 2 1 1 well_formed_all_red ltac:(lia)
           Hsmall Hin).
Defined.

Lemma dilation_of_erosion_within_witness :
  well_formed all_red /\ 0 <= 1 /\
  inside (width all_red) (height all_red) 1 0 /\
  opaque (applyDilation (applyErosion all_red 1) 1) 1 0 = true /\
  opaque all_red 1 0 = true.
Proof.
  assert (inside (width all_red) (height all_red) 1 0) as Hin
      by (apply inside_3x3; lia).
  assert (opaque (applyDilation (applyErosion all_red 1) 1) 1 0 = true) as Hop
      by (vm_compute; reflexivity).
  split; [exact well_formed_all_red|]. split; [lia|]. split; [exact Hin|].
  split; [exact Hop|].
  exact (dilation_of_erosion_within all_red 1 1 0 well_formed_all_red
           ltac:(lia) Hin Hop).
Defined.

(** The underbase of the 3 x 3 example on a white garment, without
    choke, at the red centre. *)
Lemma generateUnderbase_spec_witness :
  let options := {| garmentColor := None; chokePixels := None |} in
  inside (width two_colors) (height two_colors) 1 1 /\
  width (generateUnderbase two_colors options) = width two_colors /\
  height (generateUnderbase two_colors options) = height two_colors /\
  (opaque (generateUnderbase two_colors options) 1 1 = true <->
   forall qx qy,
     Z.abs (qx - 1) + Z.abs (qy - 1) <= Z.max 0 0 ->
     inside (width two_colors) (height two_colors) qx qy
     /\ needs_underbase two_colors white_garment qx qy = true) /\
  pixel (generateUnderbase two_colors options) 1 1 =
  if opaque (generateUnderbase two_colors options) 1 1
  then white_opaque else transparent_black.
Proof.
  intros options.
  assert (inside (width two_colors) (height two_colors) 1 1) as Hin
      by (apply inside_3x3; lia).
  split; [exact Hin|].
  exact (generateUnderbase_spec two_colors options 1 1 Hin).
Defined.

(** The red layer of the 3 x 3 example, trapped with the range 0 to 4pt
    at 72 dpi. *)
Lemma trapLayer_confined_witness :
  let rg := {| min := of_Z 0; max := fdiv (of_Z 4) (of_Z 72) |} in
  doc_width document3 = width two_colors /\
  doc_height document3 = height two_colors /\
  inside (width two_colors) (height two_colors) 2 2 /\
  exists t raster,
    trapLayer document3 rg (of_Z 72) (separateColors two_colors [red; ink]) 0
      = Some (t, raster) /\
    exists c,
      [red; ink] !! 0%nat = Some c /\
      (matches_color two_colors c 2 2 = true -> opaque raster 2 2 = true) /\
      (opaque raster 2 2 = true ->
       pixel raster 2 2 = [Some (r c); Some (g c); Some (b c); Some xff] /\
       (matches_color two_colors c 2 2 = true \/
        exists j c', (0 < j)%nat /\ [red; ink] !! j = Some c'
                     /\ matches_color two_colors c' 2 2 = true)).
Proof.
  intros rg.
  assert (inside (width two_colors) (height two_colors) 2 2) as Hin
      by (apply inside_3x3; lia).
  split; [reflexivity|]. split; [reflexivity|]. split; [exact Hin|].
  destruct (trapLayer document3 rg (of_Z 72)
              (separateColors two_colors [red; ink]) 0)
    as [[t raster]|] eqn:Htrap; [|vm_compute in Htrap; discriminate].
  exists t, raster. split; [reflexivity|].
  exact (trapLayer_confined document3 two_colors [red; ink] rg (of_Z 72)
           0%nat t raster 2 2 eq_refl eq_refl Htrap Hin).
Defined.

(** Red is lighter than the dark colour: the list is left as it is. *)
Lemma sortColorsByLightness_spec_witness :
  lightest_first [red; ink] /\ sortColorsByLightness [red; ink] = [red; ink].
Proof.
  assert (lightest_first [red; ink]) as Hl.
  { intros [|[|i]] c1 c2; simpl; try discriminate.
    intros H1 H2. injection H1 as <-. injection H2 as <-.
    vm_compute. reflexivity. }
  split; [exact Hl|].
  destruct (sortColorsByLightness_spec [red; ink]) as (_ & _ & Hfixed & _).
  exact (Hfixed Hl).
Defined.

(** Red is in the palette of the 3 x 3 example on account of its
    centre. *)
Lemma analyzeColors_palette_witness :
  (exists x y,
     inside (width two_colors) (height two_colors) x y /\
     opaque two_colors x y = true /\
     channel two_colors x y 0 = Some xff /\
     channel two_colors x y 1 = Some x00 /\
     channel two_colors x y 2 = Some x00) /\
  (xff, x00, x00) ∈ key_of <$> colors (analyzeColors two_colors).
Proof.
  assert (exists x y,
            inside (width two_colors) (height two_colors) x y /\
            opaque two_colors x y = true /\
            channel two_colors x y 0 = Some xff /\
            channel two_colors x y 1 = Some x00 /\
            channel two_colors x y 2 = Some x00) as Hpx.
  { exists 1, 1. split; [apply inside_3x3; lia|].
    repeat split; vm_compute; reflexivity. }
  split; [exact Hpx|].
  destruct (analyzeColors_palette two_colors) as (_ & Hkeys & _).
  exact (proj2 (Hkeys (xff, x00, x00)) Hpx).
Defined.

Lemma extractSingleColor_count_witness :
  red ∈ colors (analyzeColors two_colors) /\
  opaque_count (extractSingleColor two_colors red) = count red /\
  1 <= count red.
Proof.
  assert (red ∈ colors (analyzeColors two_colors)) as Hin
      by (apply list_elem_of_In; vm_compute; left; reflexivity).
  split; [exact Hin|].
  exact (extractSingleColor_count two_colors red Hin).
Defined.

(** The 20 x 10 example: two colours of 100 pixels each. *)
Lemma analyzeDocument_layers_witness :
  let sorted := [entry_of (xff, x00, x00) 100; entry_of (x00, x00, x00) 100] in
  analyzeDocument red_and_black = Ok sorted /\
  (1 <= length sorted <= 10)%nat /\
  NoDup (key_of <$> sorted).
Proof.
  intros sorted.
  assert (analyzeDocument red_and_black = Ok sorted) as HOk
      by (vm_compute; reflexivity).
  split; [exact HOk|].
  destruct (analyzeDocument_layers red_and_black sorted HOk)
    as (Hlen & _ & _ & Hnd & _).
  split; [exact Hlen|exact Hnd].
Defined.

(** [Infinity/Infinity] is accepted and is not a number. *)
Lemma parse_not_a_number_witness :
  parse "Infinity/Infinity" = Ok NaN /\
  (isNaN NaN = true <-> infinite_fraction (trim "Infinity/Infinity")).
Proof.
  assert (parse "Infinity/Infinity" = Ok NaN) as Hok
      by (vm_compute; reflexivity).
  split; [exact Hok|].
  exact (proj1 (parse_not_a_number "Infinity/Infinity" NaN Hok)).
Defined.

Lemma validateRange_ordered_witness :
  let r := {| min := of_Z 0; max := fdiv (of_Z 1) (of_Z 32) |} in
  validateRange "0" "1/32" = Ok (r, false) /\
  isNaN (min r) = false /\ isNaN (max r) = false /\
  le pos_zero (min r) = true /\ le (min r) (max r) = true
  /\ le pos_zero (max r) = true.
Proof.
  intros r.
  assert (validateRange "0" "1/32" = Ok (r, false)) as Hok
      by (vm_compute; reflexivity).
  split; [exact Hok|]. split; [reflexivity|]. split; [reflexivity|].
  destruct (validateRange_ordered "0" "1/32" r false Hok) as (Hord & _).
  exact (Hord eq_refl eq_refl).
Defined.

Lemma parse_trim_witness :
  trim "  4pt " <> EmptyString /\ parse (trim "  4pt ") = parse "  4pt ".
Proof.
  assert (trim "  4pt " <> EmptyString) as Hne
      by (vm_compute; discriminate).
  split; [exact Hne|].
  destruct (parse_trim "  4pt ") as (Htrim & _).
  exact (Htrim Hne).
Defined.

Lemma createTrappedDocumentName_spec_witness :
  "design.psd"%string = String.append "design" (String "." "psd") /\
  includes_char "psd" "." = false /\
  createTrappedDocumentName "design.psd" = "design-trapped.psd"%string.
Proof.
  assert ("design.psd"%string = String.append "design" (String "." "psd"))
    as Hname by reflexivity.
  assert (includes_char "psd" "." = false) as Hext by reflexivity.
  split; [exact Hname|]. split; [exact Hext|].
  destruct (createTrappedDocumentName_spec "design.psd") as (_ & Hsplit & _).
  exact (Hsplit "design"%string "psd"%string Hname Hext).
Defined.

Lemma createTrappedDocumentName_injective_witness :
  createTrappedDocumentName "design.psd"
  = createTrappedDocumentName (String.append "design" ".psd") /\
  "design.psd"%string = String.append "design" ".psd".
Proof.
  assert (createTrappedDocumentName "design.psd"
          = createTrappedDocumentName (String.append "design" ".psd")) as Heq
      by reflexivity.
  split; [exact Heq|].
  exact (createTrappedDocumentName_injective _ _ Heq).
Defined.

(** An RGB document with 8 bits per channel and one unlocked layer. *)
Lemma checkDocumentValidity_spec_witness :
  let info := {| mode := "RGB"; bitsPerChannel := 8;
                 info_width := 20; info_height := 10 |} in
  let document :=
    Some {| layers := [{| locked := false |}]; docInfo := info |} in
  checkDocumentValidity document = Valid info /\
  exists doc layer warned,
    document = Some doc /\
    validateDocument (docInfo doc) = inr warned /\
    sourceLayer doc = Some layer /\ layers doc = [layer].
Proof.
  intros info document.
  assert (checkDocumentValidity document = Valid info) as Hvalid
      by reflexivity.
  split; [exact Hvalid|].
  exact (proj2 (checkDocumentValidity_spec document info) Hvalid).
Defined.

Lemma getRecommendedSizes_spec_witness :
  exists sizes,
    getRecommendedSizes "screen" = inr sizes /\
    exists r,
      validateRange (recommended_min sizes) (recommended_max sizes)
        = Ok (r, false) /\
      min r = minInches sizes /\
      lt (Math_abs (fsub (max r) (maxInches sizes)))
        (of_decimal false 1 (-4)) = true /\
      strict_eq (max r) (maxInches sizes) = String.eqb "screen" "offset" /\
      defaultMinTrap (getTrappingStrategy "screen") = minInches sizes /\
      defaultMaxTrap (getTrappingStrategy "screen") = maxInches sizes.
Proof.
  destruct (getRecommendedSizes "screen") as [message|sizes] eqn:Hsizes;
    [vm_compute in Hsizes; discriminate|].
  exists sizes. split; [reflexivity|].
  destruct (getRecommendedSizes_spec "screen") as (Hrec & _).
  exact (Hrec sizes Hsizes).
Defined.

(** 0.05 inches in decimal mode. *)
Lemma format_decimal_parse_witness :
  String.eqb "decimal" "points" = false /\
  String.eqb "decimal" "fraction" = false /\
  format (of_decimal false 5 (-2)) (Some "decimal"%string)
  = Some (String.append "0.05000" inch_mark) /\
  parse (String.append "0.05000" inch_mark) = Ok (of_decimal false 5000 (-5)).
Proof.
  assert (format (of_decimal false 5 (-2)) (Some "decimal"%string)
          = Some (String.append "0.05000" inch_mark)) as Htext
      by (vm_compute; reflexivity).
  split; [reflexivity|]. split; [reflexivity|]. split; [exact Htext|].
  exact (format_decimal_parse (of_decimal false 5 (-2)) "decimal"
           (String.append "0.05000" inch_mark) eq_refl eq_refl Htext).
Defined.

(** 4 points. *)
Lemma format_points_parse_witness :
  format (fdiv (of_Z 4) (of_Z 72)) (Some "points"%string)
  = Some "4.0pt"%string /\
  parse "4.0pt" = Ok (fdiv (of_decimal false 40 (-1)) (of_Z 72)).
Proof.
  assert (format (fdiv (of_Z 4) (of_Z 72)) (Some "points"%string)
          = Some "4.0pt"%string) as Htext
      by (vm_compute; reflexivity).
  split; [exact Htext|].
  exact (format_points_parse (fdiv (of_Z 4) (of_Z 72)) "4.0pt" Htext).
Defined.

(** 0.0313 inches is printed as 1/32. *)
Lemma format_fraction_parse_witness :
  default "fraction"%string None = "fraction"%string /\
  format (of_decimal false 313 (-4)) None
  = Some (String.append "1/32" inch_mark) /\
  ((exists frac,
      frac ∈ commonFractions /\
      is_close (of_decimal false 313 (-4)) frac = true /\
      String.append "1/32" inch_mark = str frac /\
      parse (String.append "1/32" inch_mark) = Ok (value frac)) \/
   ((forall frac, frac ∈ commonFractions ->
       is_close (of_decimal false 313 (-4)) frac = false) /\
    format (of_decimal false 313 (-4)) (Some "decimal"%string)
    = Some (String.append "1/32" inch_mark))).
Proof.
  assert (format (of_decimal false 313 (-4)) None
          = Some (String.append "1/32" inch_mark)) as Htext
      by (vm_compute; reflexivity).
  split; [reflexivity|]. split; [exact Htext|].
  exact (format_fraction_parse (of_decimal false 313 (-4)) None
           (String.append "1/32" inch_mark) eq_refl Htext).
Defined.

(** The mask of the red layer of the 3 x 3 example covers the dark
    corner. *)
Lemma darker_mask_separated_witness :
  doc_width document3 = width two_colors /\
  doc_height document3 = height two_colors /\
  inside (width two_colors) (height two_colors) 2 2 /\
  (opaque (createDarkerColorMaskFromLayers document3 0
             (separateColors two_colors [red; ink])) 2 2 = true <->
   exists j c', (0 < j)%nat /\ [red; ink] !! j = Some c'
                /\ matches_color two_colors c' 2 2 = true).
Proof.
  assert (inside (width two_colors) (height two_colors) 2 2) as Hin
      by (apply inside_3x3; lia).
  split; [reflexivity|]. split; [reflexivity|]. split; [exact Hin|].
  exact (proj1 (darker_mask_separated document3 two_colors [red; ink] 0%nat
                  2 2 eq_refl eq_refl Hin)).
Defined.

(** The centre of the red 3 x 3 square, radius 1. *)
Lemma erosion_of_dilation_covers_witness :
  well_formed all_red /\ 0 <= 1 /\
  (forall cx cy, Z.abs (cx - 1) + Z.abs (cy - 1) <= 1 ->
                 inside (width all_red) (height all_red) cx cy) /\
  opaque all_red 1 1 = true /\
  opaque (applyErosion (applyDilation all_red 1) 1) 1 1 = true /\
  pixel (applyErosion (applyDilation all_red 1) 1) 1 1 = pixel all_red 1 1.
Proof.
  assert (forall cx cy, Z.abs (cx - 1) + Z.abs (cy - 1) <= 1 ->
                        inside (width all_red) (height all_red) cx cy) as Hball
      by (intros cx cy Hc; apply inside_3x3; lia).
  assert (opaque all_red 1 1 = true) as Hop by (vm_compute; reflexivity).
  split; [exact well_formed_all_red|]. split; [lia|].
  split; [exact Hball|]. split; [exact Hop|].
  exact (erosion_of_dilation_covers all_red 1 1 1 well_formed_all_red
           ltac:(lia) Hball Hop).
Defined.
